(** * io_scene_psk_psa: skeleton, mesh and animation import

    A shallow embedding of [psk/importer.py] (PskImporter.import_psk),
    [psa/importer.py] (PsaImporter.import_psa and the operators of the import
    panel) and [psk/export/operators.py] (the material list of the export),
    and the properties of the skeleton builder, the mesh assembler, the
    vertex groups, the animation retargeter, the keyframe cleaner and the
    operators.

    Conventions of the embedding:
    - Python floats and numpy float cells are exact rationals ([Q]).
    - A Python exception is a [Raise] in the [result] monad; a list or array
      subscript out of range raises [IndexError].
    - The rotation primitives of the host's [mathutils] module
      ([Quaternion.rotate], [Vector.rotate], [Matrix.rotate],
      [Quaternion.to_matrix]) are the fields of the [Mathutils] class: the
      importers are written against that interface, and every theorem holds
      for any implementation of it.  [Exact.mathutils] is an implementation in
      exact arithmetic, used to run the definitions.
    - Mutable objects that are shared (the ImportBone objects, the numpy
      matrices) live in one store (a list) that is threaded through the loops
      and re-read after every write. *)

From Stdlib Require Import QArith Qabs.
From stdpp Require Import base option list strings gmap pretty sorting.

Set Default Proof Using "Type".
#[global] Set Warnings "-clear-no-such-hyp".

(** ** Exceptions *)

Inductive exn := IndexError | ValueError | KeyError | ZeroDivisionError.

Inductive result (A : Type) : Type :=
  | Ok (a : A)
  | Raise (e : exn).
Arguments Ok {A} a.
Arguments Raise {A} e.

#[global] Instance result_ret : MRet result := λ A a, Ok a.
#[global] Instance result_bind : MBind result := λ A B f m,
  match m with
  | Ok a => f a
  | Raise e => Raise e
  end.

Definition is_Ok {A} (r : result A) : Prop := ∃ a, r = Ok a.

(** [l[i]] for a non-negative index. *)
Definition get {A} (l : list A) (i : nat) : result A :=
  match l !! i with
  | Some x => Ok x
  | None => Raise IndexError
  end.

(** [l[i] = x] for a non-negative index. *)
Definition put {A} (l : list A) (i : nat) (x : A) : result (list A) :=
  match l !! i with
  | Some _ => Ok (<[i:=x]> l)
  | None => Raise IndexError
  end.

(** [for i in range(start, start + n): s = body(i, s)] *)
Fixpoint for_range_from {St} (start n : nat) (body : nat → St → result St) (s : St)
    : result St :=
  match n with
  | O => Ok s
  | S n' => s' ← body start s; for_range_from (S start) n' body s'
  end.

Definition for_range {St} (n : nat) (body : nat → St → result St) (s : St) : result St :=
  for_range_from 0 n body s.

(** [for i, x in enumerate(l): s = body(i, x, s)] *)
Fixpoint for_enumerate_from {A St} (start : nat) (l : list A)
    (body : nat → A → St → result St) (s : St) : result St :=
  match l with
  | [] => Ok s
  | x :: l' => s' ← body start x s; for_enumerate_from (S start) l' body s'
  end.

Definition for_enumerate {A St} (l : list A) (body : nat → A → St → result St) (s : St)
    : result St :=
  for_enumerate_from 0 l body s.

(** ** mathutils *)

Record Quaternion := mkQuat { qw : Q; qx : Q; qy : Q; qz : Q }.
Record Vector := mkVec { vx : Q; vy : Q; vz : Q }.

(** [Quaternion()] and [Vector()] *)
Definition quat_identity : Quaternion := mkQuat 1 0 0 0.
Definition vec_zero : Vector := mkVec 0 0 0.

(** [q.conjugated()] *)
Definition conjugated (q : Quaternion) : Quaternion :=
  mkQuat (qw q) (- qx q) (- qy q) (- qz q).

(** [a + b] and [a - b] on vectors *)
Definition vec_add (a b : Vector) : Vector :=
  mkVec (vx a + vx b) (vy a + vy b) (vz a + vz b).
Definition vec_sub (a b : Vector) : Vector :=
  mkVec (vx a - vx b) (vy a - vy b) (vz a - vz b).

Class Mathutils := {
  (** a 3x3 matrix *)
  Matrix : Type;
  (** the rotation part of [Matrix()] *)
  mat_identity : Matrix;
  (** the value of [q] after [q.rotate(other)] *)
  quat_rotate : Quaternion → Quaternion → Quaternion;
  (** the value of [v] after [v.rotate(other)], [other] a quaternion *)
  vec_rotate_quat : Vector → Quaternion → Vector;
  (** the value of [v] after [v.rotate(other)], [other] a matrix *)
  vec_rotate : Vector → Matrix → Vector;
  (** [q.to_matrix()] *)
  quat_to_matrix : Quaternion → Matrix;
  (** the value of [m] after [m.rotate(other)] *)
  mat_rotate : Matrix → Matrix → Matrix;
  (** the value of [q] after [q.rotate(other)], [other] a matrix *)
  quat_rotate_mat : Quaternion → Matrix → Quaternion;
}.

(** A 4x4 matrix: its 3x3 part and its [translation] column. *)
Record Matrix4 `{Mathutils} := mkMatrix4 { m3 : Matrix; translation : Vector }.

Section matrix4.
Context `{Mathutils}.

(** [Matrix()] *)
Definition mat4_identity : Matrix4 := mkMatrix4 _ mat_identity vec_zero.
(** [Matrix.Translation(v)] *)
Definition mat4_of_translation (v : Vector) : Matrix4 := mkMatrix4 _ mat_identity v.
(** [m.to_4x4()] *)
Definition to_4x4 (m : Matrix) : Matrix4 := mkMatrix4 _ m vec_zero.
(** [m.translation = v] *)
Definition set_translation (m : Matrix4) (v : Vector) : Matrix4 :=
  mkMatrix4 _ (m3 m) v.

End matrix4.

(** ** An implementation of the interface in exact arithmetic

    On unit quaternions and rotation matrices, and up to the sign of a
    quaternion, [q.rotate(other)] is the Hamilton product [other * q],
    [m.rotate(other)] the matrix product [other * m], and [v.rotate(m)] the
    product [m * v]. *)
Module Exact.

Definition quat_mul (a b : Quaternion) : Quaternion :=
  mkQuat
    (qw a * qw b - qx a * qx b - qy a * qy b - qz a * qz b)
    (qw a * qx b + qx a * qw b + qy a * qz b - qz a * qy b)
    (qw a * qy b - qx a * qz b + qy a * qw b + qz a * qx b)
    (qw a * qz b + qx a * qy b - qy a * qx b + qz a * qw b).

Record Mat3 := mkMat3 { row0 : Vector; row1 : Vector; row2 : Vector }.

Definition dot (a b : Vector) : Q := vx a * vx b + vy a * vy b + vz a * vz b.

Definition col0 (m : Mat3) : Vector := mkVec (vx (row0 m)) (vx (row1 m)) (vx (row2 m)).
Definition col1 (m : Mat3) : Vector := mkVec (vy (row0 m)) (vy (row1 m)) (vy (row2 m)).
Definition col2 (m : Mat3) : Vector := mkVec (vz (row0 m)) (vz (row1 m)) (vz (row2 m)).

Definition mat_vec (m : Mat3) (v : Vector) : Vector :=
  mkVec (dot (row0 m) v) (dot (row1 m) v) (dot (row2 m) v).

Definition row_mat (r : Vector) (m : Mat3) : Vector :=
  mkVec (dot r (col0 m)) (dot r (col1 m)) (dot r (col2 m)).

Definition mat_mul (a b : Mat3) : Mat3 :=
  mkMat3 (row_mat (row0 a) b) (row_mat (row1 a) b) (row_mat (row2 a) b).

Definition mat_of_quat (q : Quaternion) : Mat3 :=
  let (w, x, y, z) := q in
  mkMat3
    (mkVec (1 - 2 * (y * y + z * z)) (2 * (x * y - w * z)) (2 * (x * z + w * y)))
    (mkVec (2 * (x * y + w * z)) (1 - 2 * (x * x + z * z)) (2 * (y * z - w * x)))
    (mkVec (2 * (x * z - w * y)) (2 * (y * z + w * x)) (1 - 2 * (x * x + y * y))).

#[export] Instance mathutils : Mathutils := {|
  Matrix := Mat3;
  mat_identity := mkMat3 (mkVec 1 0 0) (mkVec 0 1 0) (mkVec 0 0 1);
  quat_rotate q other := quat_mul other q;
  vec_rotate_quat v other := mat_vec (mat_of_quat other) v;
  vec_rotate v other := mat_vec other v;
  quat_to_matrix := mat_of_quat;
  mat_rotate m other := mat_mul other m;
  (* only on the identity matrix, which is all the examples need *)
  quat_rotate_mat q other := q;
|}.

End Exact.

(** ** The skeleton builder of [PskImporter.import_psk] *)
Module Psk.

(** [Psk.Bone]: the fields the importer reads. *)
Record Bone := mkBone {
  name : string;
  parent_index : Z;
  rotation : Quaternion;
  location : Vector;
}.

Definition set_parent_index (b : Bone) (p : Z) : Bone :=
  mkBone (name b) p (rotation b) (location b).

Section skeleton.
Context `{Mathutils}.

(** The intermediate bone type.  [parent] refers to another ImportBone of the
    same list, by its index. *)
Record ImportBone := mkImportBone {
  index : nat;
  psk_bone : Bone;
  parent : option nat;
  local_rotation : Quaternion;
  local_translation : Vector;
  world_rotation_matrix : Matrix;
  world_matrix : Matrix4;
}.

Definition set_parent (v : option nat) (b : ImportBone) : ImportBone :=
  mkImportBone (index b) (psk_bone b) v (local_rotation b) (local_translation b)
    (world_rotation_matrix b) (world_matrix b).
Definition set_local_rotation (v : Quaternion) (b : ImportBone) : ImportBone :=
  mkImportBone (index b) (psk_bone b) (parent b) v (local_translation b)
    (world_rotation_matrix b) (world_matrix b).
Definition set_world_rotation_matrix (v : Matrix) (b : ImportBone) : ImportBone :=
  mkImportBone (index b) (psk_bone b) (parent b) (local_rotation b) (local_translation b)
    v (world_matrix b).
Definition set_world_matrix (v : Matrix4) (b : ImportBone) : ImportBone :=
  mkImportBone (index b) (psk_bone b) (parent b) (local_rotation b) (local_translation b)
    (world_rotation_matrix b) v.

(** [psk_bone.parent_index == 0 and bone_index == 0] *)
Definition is_root (bone_index : nat) (b : Bone) : bool :=
  bool_decide (parent_index b = 0%Z) && bool_decide (bone_index = 0%nat).

(** The body of the first loop: one ImportBone per [psk.bones] entry. *)
Definition new_import_bone (bone_index : nat) (psk_bone0 : Bone) : ImportBone :=
  let psk_bone := set_parent_index psk_bone0 (Z.max 0 (parent_index psk_bone0)) in
  let import_bone :=
    mkImportBone bone_index psk_bone None (rotation psk_bone) (location psk_bone)
      mat_identity mat4_identity in
  if is_root bone_index psk_bone then
    set_world_matrix (mat4_of_translation (local_translation import_bone))
      (set_world_rotation_matrix (quat_to_matrix (local_rotation import_bone)) import_bone)
  else import_bone.

Definition first_pass (bones : list Bone) : list ImportBone :=
  imap new_import_bone bones.

(** The body of the second loop.  [parent] is an object of the list, possibly
    the bone itself, so it is read again after every assignment to [bone]. *)
Definition link_bone (bone_index : nat) (s : list ImportBone) : result (list ImportBone) :=
  bone ← get s bone_index;
  if is_root bone_index (psk_bone bone) then Ok s else
  let p := Z.to_nat (parent_index (psk_bone bone)) in
  _ ← get s p;
  let s := alter (set_parent (Some p)) bone_index s in
  parent ← get s p;
  let s := alter (set_world_matrix (to_4x4 (world_rotation_matrix parent))) bone_index s in
  bone ← get s bone_index;
  parent ← get s p;
  let translation' := vec_rotate (local_translation bone) (world_rotation_matrix parent) in
  let s := alter (λ b, set_world_matrix
                         (set_translation (world_matrix b)
                            (vec_add (translation (world_matrix parent)) translation')) b)
                 bone_index s in
  bone ← get s bone_index;
  let s := alter (set_world_rotation_matrix
                    (quat_to_matrix (conjugated (local_rotation bone)))) bone_index s in
  parent ← get s p;
  let s := alter (λ b, set_world_rotation_matrix
                         (mat_rotate (world_rotation_matrix b) (world_rotation_matrix parent)) b)
                 bone_index s in
  Ok s.

Definition second_pass (s : list ImportBone) : result (list ImportBone) :=
  for_range (length s) link_bone s.

(** An edit bone of the armature, with the bind pose stored in its custom
    properties. *)
Record EditBone := mkEditBone {
  eb_name : string;
  eb_parent : option nat;
  eb_matrix : Matrix4;
  eb_orig_quat : Quaternion;
  eb_orig_loc : Vector;
  eb_post_quat : Quaternion;
}.

(** The body of the third loop, on the pair of the ImportBone list and of
    [armature_data.edit_bones].  The new edit bone is the last of the
    collection when its parent is looked up in it by index. *)
Definition make_edit_bone (i : nat) (st : list ImportBone * list EditBone)
    : result (list ImportBone * list EditBone) :=
  let '(s, edit_bones) := st in
  import_bone ← get s i;
  let new_bone := mkEditBone (name (psk_bone import_bone)) None mat4_identity
                    quat_identity vec_zero quat_identity in
  '(s, eb_par) ←
    match parent import_bone with
    | Some _ =>
        let p := Z.to_nat (parent_index (psk_bone import_bone)) in
        _ ← get (edit_bones ++ [new_bone]) p; Ok (s, Some p)
    | None =>
        Ok (alter (λ b, set_local_rotation (conjugated (local_rotation b)) b) i s, None)
    end;
  import_bone ← get s i;
  let edit_bone_matrix :=
    quat_rotate_mat (conjugated (local_rotation import_bone)) (m3 (world_matrix import_bone)) in
  let edit_bone_matrix :=
    set_translation (to_4x4 (quat_to_matrix edit_bone_matrix))
      (translation (world_matrix import_bone)) in
  let edit_bone :=
    mkEditBone (name (psk_bone import_bone)) eb_par edit_bone_matrix
      (local_rotation import_bone) (local_translation import_bone)
      (conjugated (local_rotation import_bone)) in
  Ok (s, edit_bones ++ [edit_bone]).

(** The armature part of [import_psk]. *)
Definition build_skeleton (bones : list Bone) : result (list ImportBone * list EditBone) :=
  let import_bones := first_pass bones in
  import_bones ← second_pass import_bones;
  for_range (length import_bones) make_edit_bone (import_bones, []).

(** The bone record after [psk_bone.parent_index = max(0, psk_bone.parent_index)]. *)
Definition clamped (b : Bone) : Bone := set_parent_index b (Z.max 0 (parent_index b)).

(** The hierarchy composition law between a bone and its parent:
    [world_rotation[b] = local_rotation[b]^-1 o world_rotation[parent]] and
    [world_translation[b] = world_translation[parent]
                            + rotate(local_translation[b], world_rotation[parent])],
    where [a o b] is [a] rotated by [b], as [a.rotate(b)] leaves it. *)
Definition composition_law (b par : ImportBone) : Prop :=
  world_rotation_matrix b =
    mat_rotate (quat_to_matrix (conjugated (local_rotation b))) (world_rotation_matrix par) ∧
  translation (world_matrix b) =
    vec_add (translation (world_matrix par))
      (vec_rotate (local_translation b) (world_rotation_matrix par)).

(** The parent reference of a bone that is not the root stays within the
    array. *)
Definition parent_in_range (bones : list Bone) (j : nat) : Prop :=
  ∀ bone, bones !! j = Some bone → is_root j (clamped bone) = false →
    (Z.to_nat (parent_index (clamped bone)) < length bones)%nat.

(** The parent reference of a bone that is not the root is not a later bone. *)
Definition parent_not_later (bones : list Bone) (j : nat) : Prop :=
  ∀ bone, bones !! j = Some bone → is_root j (clamped bone) = false →
    (Z.to_nat (parent_index (clamped bone)) ≤ j)%nat.

(** The ImportBone list when the second loop reaches bone [k]. *)
Definition second_inv (bones : list Bone) (k : nat) (s : list ImportBone) : Prop :=
  length s = length bones ∧
  (∀ j ib, s !! j = Some ib →
     ∃ bone, bones !! j = Some bone ∧ psk_bone ib = clamped bone ∧
       local_rotation ib = rotation bone ∧ local_translation ib = location bone ∧
       (is_root j (clamped bone) = true ∨ (k ≤ j)%nat → parent ib = None)) ∧
  (∀ j ib, (j < k)%nat → s !! j = Some ib → is_root j (psk_bone ib) = false →
     let p := Z.to_nat (parent_index (psk_bone ib)) in
     parent ib = Some p ∧
     ∀ par, (p < j)%nat → s !! p = Some par → composition_law ib par).

(** The state of the third loop when it reaches bone [k], [s0] being the
    ImportBone list it started from: only the [local_rotation] of a bone
    without parent has changed. *)
Definition third_inv (s0 : list ImportBone) (k : nat)
    (st : list ImportBone * list EditBone) : Prop :=
  length st.2 = k ∧ length st.1 = length s0 ∧
  ∀ j ib, st.1 !! j = Some ib →
    ∃ ib0, s0 !! j = Some ib0 ∧ psk_bone ib = psk_bone ib0 ∧ parent ib = parent ib0 ∧
      local_translation ib = local_translation ib0 ∧
      world_rotation_matrix ib = world_rotation_matrix ib0 ∧
      world_matrix ib = world_matrix ib0 ∧
      (is_Some (parent ib0) → local_rotation ib = local_rotation ib0).

End skeleton.




End Psk.

(** ** Sample skeletons *)
Module PskExamples.
Import Psk.

Definition root_bone : Bone := mkBone "root" 0 quat_identity vec_zero.

(** A root and a child at (0, 1, 0). *)
Definition chain : list Bone :=
  [root_bone; mkBone "child" 0 quat_identity (mkVec 0 1 0)].

(** The second bone names itself as its parent. *)
Definition self_parent : list Bone :=
  [root_bone; mkBone "loop" 1 quat_identity (mkVec 1 0 0)].


(** The second bone's parent comes after it. *)
Definition forward_parent_chain : list Bone :=
  [root_bone; mkBone "a" 2 quat_identity (mkVec 1 0 0);
   mkBone "b" 0 quat_identity (mkVec 0 1 0)].

End PskExamples.

(** ** The mesh assembler of [PskImporter.import_psk] *)
Module Mesh.

(** [Psk.Wedge], [Psk.Face] and [Psk.Color]: the fields the importer reads.
    The indices are unsigned in the file. *)
Record Wedge := mkWedge { point_index : nat; u : Q; v : Q }.
Record Face := mkFace { wedge_indices : nat * nat * nat; material_index : nat }.
Record Color := mkColor { red : N; green : N; blue : N; alpha : N }.

Record Psk := mkPsk {
  points : list Vector;
  wedges : list Wedge;
  faces : list Face;
  extra_uvs : list (Q * Q);
  vertex_colors : list Color;
  has_extra_uvs : bool;
  has_vertex_colors : bool;
}.

Record PskImportOptions := mkOptions {
  should_import_vertex_colors : bool;
  (** [vertex_color_space == 'SRGBA'] *)
  vertex_color_space_is_srgba : bool;
  should_import_extra_uvs : bool;
}.

(** [reversed(face.wedge_indices)] *)
Definition reversed (face : Face) : list nat :=
  let '(w0, w1, w2) := wedge_indices face in [w2; w1; w0].

(** *** bmesh

    A face of the BMesh: its vertices, by index, and its material.
    [bm.faces.new(verts)] raises ValueError when a vertex occurs twice in
    [verts], and when the mesh already has a face on the same vertices. *)
Record BMFace := mkBMFace { bm_verts : list nat; bm_material_index : nat }.

Definition same_verts (a b : list nat) : bool :=
  bool_decide (list_to_set a =@{gset nat} list_to_set b).

Definition faces_new (bm_faces : list BMFace) (verts : list nat) (material : nat)
    : result (list BMFace) :=
  if bool_decide (NoDup verts) then
    if existsb (λ f, same_verts (bm_verts f) verts) bm_faces
    then Raise ValueError
    else Ok (bm_faces ++ [mkBMFace verts material])
  else Raise ValueError.

(** [for x in l: s = body(x, s)] *)
Definition for_each {A St} (l : list A) (body : A → St → result St) (s : St) : result St :=
  for_enumerate l (λ _, body) s.

(** [[bm.verts[psk.wedges[i].point_index] for i in reversed(face.wedge_indices)]] *)
Definition face_point_indices (psk : Psk) (face : Face) : result (list nat) :=
  mapM (λ i, wedge ← get (wedges psk) i;
             _ ← get (points psk) (point_index wedge);
             Ok (point_index wedge)) (reversed face).

(** The body of the face loop, on the faces of the BMesh and
    [degenerate_face_indices]. *)
Definition add_face (psk : Psk) (face_index : nat) (face : Face)
    (st : list BMFace * gset nat) : result (list BMFace * gset nat) :=
  let '(bm_faces, degenerate_face_indices) := st in
  point_indices ← face_point_indices psk face;
  match faces_new bm_faces point_indices (material_index face) with
  | Ok bm_faces => Ok (bm_faces, degenerate_face_indices)
  | Raise ValueError => Ok (bm_faces, {[face_index]} ∪ degenerate_face_indices)
  | Raise e => Raise e
  end.

Definition build_faces (psk : Psk) : result (list BMFace * gset nat) :=
  for_enumerate (faces psk) (add_face psk) ([], ∅).

(** [mesh_data.loops] after [bm.to_mesh(mesh_data)]: the vertex index of
    every corner of every face, face after face. *)
Definition mesh_loops (bm_faces : list BMFace) : list nat :=
  bm_faces ≫= bm_verts.

(** A new UV layer has one entry per loop. *)
Definition new_uv_layer (loops : list nat) : list (Q * Q) :=
  replicate (length loops) (0%Q, 0%Q).

(** [uv_layer.data[data_index].uv = u, 1.0 - v; data_index += 1] *)
Definition write_uv (uv : Q * Q) (st : nat * list (Q * Q)) : result (nat * list (Q * Q)) :=
  let '(data_index, data) := st in
  data ← put data data_index (uv.1, (1 - uv.2)%Q);
  Ok (S data_index, data).

(** The TEXTURE COORDINATES loop. *)
Definition texture_coordinates (psk : Psk) (degenerate_face_indices : gset nat)
    (loops : list nat) : result (list (Q * Q)) :=
  st ← for_enumerate (faces psk) (λ face_index face st,
         if bool_decide (face_index ∈ degenerate_face_indices) then Ok st else
         face_wedges ← mapM (get (wedges psk)) (reversed face);
         for_each face_wedges (λ wedge, write_uv (u wedge, v wedge)) st)
       (0%nat, new_uv_layer loops);
  Ok st.2.

(** One pass of the EXTRA UVS loop: the layer of one channel. *)
Definition extra_uv_layer (psk : Psk) (degenerate_face_indices : gset nat)
    (loops : list nat) (wedge_index_offset : nat) : result (list (Q * Q)) :=
  st ← for_enumerate (faces psk) (λ face_index face st,
         if bool_decide (face_index ∈ degenerate_face_indices) then Ok st else
         for_each (reversed face) (λ wedge_index st,
           uv ← get (extra_uvs psk) (wedge_index_offset + wedge_index);
           write_uv uv st) st)
       (0%nat, new_uv_layer loops);
  Ok st.2.

(** The EXTRA UVS block: the layers EXTRAUV0, EXTRAUV1, ... in order.
    [int(len(psk.extra_uvs) / len(psk.wedges))] is the quotient of the two
    lengths, and raises ZeroDivisionError without wedges. *)
Definition extra_uv_layers (psk : Psk) (options : PskImportOptions)
    (degenerate_face_indices : gset nat) (loops : list nat) : result (list (list (Q * Q))) :=
  if has_extra_uvs psk && should_import_extra_uvs options then
    extra_uv_channel_count ←
      (if bool_decide (length (wedges psk) = 0)%nat then Raise ZeroDivisionError
       else Ok (length (extra_uvs psk) / length (wedges psk))%nat);
    st ← for_range extra_uv_channel_count (λ extra_uv_index st,
           let '(wedge_index_offset, layers) := st in
           layer ← extra_uv_layer psk degenerate_face_indices loops wedge_index_offset;
           Ok ((wedge_index_offset + length (wedges psk))%nat, layers ++ [layer]))
         (0%nat, []);
    Ok st.2
  else Ok [].

(** *** Vertex colors *)

(** A cell of the color buffer: [inf] or a color component.  The components
    are only stored, compared and passed to [rgb_to_srgb]: their type [F] is
    any type with a decidable equality. *)
Inductive cell (F : Type) := Inf | Fin (x : F).
Arguments Inf {F}.
Arguments Fin {F} x.

#[global] Instance cell_eq_dec {F} `{EqDecision F} : EqDecision (cell F).
Proof. solve_decision. Defined.

(** A value bound to a Python variable that is tested against [None]. *)
Inductive py_value (A : Type) := PyNone | PyObject (a : A).
Arguments PyNone {A}.
Arguments PyObject {A} a.

Section vertex_colors.
Context {F : Type} `{EqDecision F}.
(** [1.0] *)
Variable one : F.
(** [Color.normalized] and [rgb_to_srgb] are helpers of the package that the
    importer imports ([.data], [..helpers]). A normalized color is a tuple of
    four components. *)
Variable normalized : Color → F * F * F * F.
Variable rgb_to_srgb : cell F → cell F.

Definition Row : Type := cell F * cell F * cell F * cell F.
Definition Color32 : Type := F * F * F * F.

#[global] Instance Row_eq_dec : EqDecision Row.
Proof using Type*. unfold Row. apply _. Defined.

(** [np.full(size, inf)[i]] *)
Definition inf_row : Row := (Inf, Inf, Inf, Inf).

Definition row_of (c : Color32) : Row :=
  let '(cr, cg, cb, ca) := c in (Fin cr, Fin cg, Fin cb, Fin ca).

(** [x != inf] *)
Definition is_not_inf (c : cell F) : bool :=
  match c with Inf => false | Fin _ => true end.

(** [x == y], [y] a color component *)
Definition cell_eqb (c : cell F) (y : F) : bool :=
  match c with Inf => false | Fin x => bool_decide (x = y) end.

(** [tuple(row) != color] *)
Definition row_differs (row : Row) (c : Color32) : bool :=
  let '(x0, x1, x2, x3) := row in
  let '(cr, cg, cb, ca) := c in
  negb (cell_eqb x0 cr && cell_eqb x1 cg && cell_eqb x2 cb && cell_eqb x3 ca).

(** The body of the wedge loop, on the color buffer and
    [ambiguous_vertex_color_point_indices]. *)
Definition resolve_wedge_color (psk : Psk) (wedge_index : nat) (wedge : Wedge)
    (st : list Row * list nat) : result (list Row * list nat) :=
  let '(vertex_colors, ambiguous) := st in
  let point_index := point_index wedge in
  color ← get (Mesh.vertex_colors psk) wedge_index;
  let psk_vertex_color := normalized color in
  row ← get vertex_colors point_index;
  if is_not_inf row.1.1.1 && row_differs row psk_vertex_color
  then Ok (vertex_colors, ambiguous ++ [point_index])
  else
    vertex_colors ← put vertex_colors point_index (row_of psk_vertex_color);
    Ok (vertex_colors, ambiguous).

Definition resolve_colors (psk : Psk) : result (list Row * list nat) :=
  for_enumerate (wedges psk) (resolve_wedge_color psk)
    (replicate (length (points psk)) inf_row, []).

(** [vertex_colors[i, :3] = tuple(map(rgb_to_srgb, vertex_colors[i, :3]))] *)
Definition row_to_srgb (row : Row) : Row :=
  let '(x0, x1, x2, x3) := row in (rgb_to_srgb x0, rgb_to_srgb x1, rgb_to_srgb x2, x3).

Definition convert_color_space (options : PskImportOptions) (vertex_colors : list Row)
    : list Row :=
  if vertex_color_space_is_srgba options then row_to_srgb <$> vertex_colors
  else vertex_colors.

Definition white : Row := (Fin one, Fin one, Fin one, Fin one).

(** The body of the loop over [mesh_data.loops], on the colors of the layer
    and the number of loops that took the [else] branch.  A subscript of the
    buffer is a row of it. *)
Definition color_loop (vertex_colors : list Row) (loop_index vertex_index : nat)
    (st : list Row * nat) : result (list Row * nat) :=
  let '(data, fallbacks) := st in
  row ← get vertex_colors vertex_index;
  let vertex_color := PyObject row in
  match vertex_color with
  | PyObject vertex_color =>
      data ← put data loop_index vertex_color; Ok (data, fallbacks)
  | PyNone =>
      data ← put data loop_index white; Ok (data, S fallbacks)
  end.

Record VertexColors := mkVertexColors {
  (** the color buffer before the color space pass *)
  vc_resolved : list Row;
  (** the color buffer when the loops are colored *)
  vc_buffer : list Row;
  (** the colors of the layer VERTEXCOLOR, one per loop *)
  vc_data : list Row;
  vc_ambiguous : list nat;
  vc_fallbacks : nat;
}.

(** The VERTEX COLORS block, for the loops of the mesh. *)
Definition import_vertex_colors (psk : Psk) (options : PskImportOptions) (loops : list nat)
    : result (option VertexColors) :=
  if has_vertex_colors psk && should_import_vertex_colors options then
    '(resolved, ambiguous) ← resolve_colors psk;
    let vertex_colors := convert_color_space options resolved in
    '(data, fallbacks) ←
      for_enumerate loops (color_loop vertex_colors) (replicate (length loops) white, 0%nat);
    Ok (Some (mkVertexColors resolved vertex_colors data ambiguous fallbacks))
  else Ok None.

(** The mesh part of [import_psk]. *)
Record MeshData := mkMeshData {
  md_faces : list BMFace;
  md_degenerate : gset nat;
  md_loops : list nat;
  md_uv : list (Q * Q);
  md_extra_uvs : list (list (Q * Q));
  md_colors : option VertexColors;
}.

Definition import_mesh (psk : Psk) (options : PskImportOptions) : result MeshData :=
  '(bm_faces, degenerate_face_indices) ← build_faces psk;
  let loops := mesh_loops bm_faces in
  uv ← texture_coordinates psk degenerate_face_indices loops;
  extra ← extra_uv_layers psk options degenerate_face_indices loops;
  colors ← import_vertex_colors psk options loops;
  Ok (mkMeshData bm_faces degenerate_face_indices loops uv extra colors).

End vertex_colors.
End Mesh.

(** ** What the mesh assembler is to produce *)
Module MeshSpec.
Import Mesh.

(** The elements of [l] that satisfy [P], with their indices; the first
    element has index [start]. *)
Fixpoint ifilter {A} (P : nat → A → bool) (start : nat) (l : list A) : list (nat * A) :=
  match l with
  | [] => []
  | x :: l' => (if P start x then [(start, x)] else []) ++ ifilter P (S start) l'
  end.

(** The vertex a wedge index resolves to. *)
Definition wedge_point (psk : Psk) (i : nat) : nat :=
  default 0%nat (point_index <$> wedges psk !! i).

(** The vertices of a face, in the reversed order of its wedges. *)
Definition face_verts (psk : Psk) (face : Face) : list nat :=
  wedge_point psk <$> reversed face.

Definition distinct_vertices (psk : Psk) (face : Face) : nat :=
  size (list_to_set (face_verts psk face) : gset nat).

(** A face is degenerate when its three wedges resolve to fewer than three
    distinct vertices. *)
Definition is_degenerate (psk : Psk) (face : Face) : bool :=
  bool_decide (distinct_vertices psk face < 3)%nat.

(** Face [k] is on the same vertices as an earlier face that is not
    degenerate. *)
Definition repeats_earlier (psk : Psk) (k : nat) (face : Face) : bool :=
  existsb (λ face', negb (is_degenerate psk face') &&
                    same_verts (face_verts psk face') (face_verts psk face))
          (take k (faces psk)).

Definition discarded (psk : Psk) (k : nat) (face : Face) : bool :=
  is_degenerate psk face || repeats_earlier psk k face.

Definition kept (psk : Psk) (k : nat) (face : Face) : bool := negb (discarded psk k face).

Definition kept_faces (psk : Psk) : list (nat * Face) := ifilter (kept psk) 0 (faces psk).
Definition discarded_faces (psk : Psk) : list (nat * Face) := ifilter (discarded psk) 0 (faces psk).
Definition degenerate_faces (psk : Psk) : list (nat * Face) :=
  ifilter (λ _, is_degenerate psk) 0 (faces psk).

(** The faces whose index is not in a given set. *)
Definition faces_outside (psk : Psk) (excluded : gset nat) : list (nat * Face) :=
  ifilter (λ k _, bool_decide (k ∉ excluded)) 0 (faces psk).

Definition bm_face_of (psk : Psk) (face : Face) : BMFace :=
  mkBMFace (face_verts psk face) (material_index face).

(** [(u, 1 - v)] of the wedges of a face, in reversed order. *)
Definition face_uvs (psk : Psk) (face : Face) : list (Q * Q) :=
  (λ i, match wedges psk !! i with
        | Some w => (u w, (1 - v w)%Q)
        | None => (0%Q, 0%Q)
        end) <$> reversed face.



(** The wedge and point indices of the file are within range. *)
Definition well_formed (psk : Psk) : Prop :=
  (∀ k face i, faces psk !! k = Some face → i ∈ reversed face →
     (i < length (wedges psk))%nat) ∧
  (∀ i w, wedges psk !! i = Some w → (point_index w < length (points psk))%nat).

(** Wedge [i] is the first wedge of the file that references the vertex [p]. *)
Definition first_seen (psk : Psk) (p i : nat) : Prop :=
  (∃ w, wedges psk !! i = Some w ∧ point_index w = p) ∧
  ∀ j w, (j < i)%nat → wedges psk !! j = Some w → point_index w ≠ p.

(** No wedge references the vertex [p]. *)
Definition unreferenced (psk : Psk) (p : nat) : Prop :=
  ∀ j w, wedges psk !! j = Some w → point_index w ≠ p.

(** Every wedge has a color and a vertex, and every loop has a vertex. *)
Definition colors_well_formed (psk : Psk) (loops : list nat) : Prop :=
  (length (wedges psk) ≤ length (vertex_colors psk))%nat ∧
  (∀ i w, wedges psk !! i = Some w → (point_index w < length (points psk))%nat) ∧
  (∀ l v, loops !! l = Some v → (v < length (points psk))%nat).

(** The two conditions as checks. *)
Definition well_formedb (psk : Psk) : bool :=
  forallb (λ face, forallb (λ i, i <? length (wedges psk))%nat (reversed face)) (faces psk) &&
  forallb (λ w, point_index w <? length (points psk))%nat (wedges psk).

Definition colors_well_formedb (psk : Psk) (loops : list nat) : bool :=
  (length (wedges psk) <=? length (vertex_colors psk))%nat &&
  forallb (λ w, point_index w <? length (points psk))%nat (wedges psk) &&
  forallb (λ v, v <? length (points psk))%nat loops.

(** The state of the face loop after [k] faces: the faces accepted so far are
    the faces kept so far. *)
Definition accepted (psk : Psk) (k : nat) : list BMFace :=
  bm_face_of psk <$> (ifilter (kept psk) 0 (take k (faces psk))).*2.

Definition rejected (psk : Psk) (k : nat) : gset nat :=
  list_to_set (ifilter (discarded psk) 0 (take k (faces psk))).*1.

(** [u, 1.0 - v] *)
Definition flip_v (uv : Q * Q) : Q * Q := (uv.1, (1 - uv.2)%Q).

(** The wedge loop after [k] wedges: a vertex has the color of the first of
    these wedges that references it, and [inf] when none does; it is listed
    as ambiguous when one of these wedges references it with another color
    than the one it has. *)
Definition colors_inv {F} (normalized : Color → F * F * F * F) (psk : Psk) (k : nat)
    (st : list (@Row F) * list nat) : Prop :=
  length st.1 = length (points psk) ∧
  (∀ p i c, i < k → first_seen psk p i → vertex_colors psk !! i = Some c →
     st.1 !! p = Some (row_of (normalized c))) ∧
  (∀ p, p < length (points psk) →
     (∀ j w, j < k → wedges psk !! j = Some w → point_index w ≠ p) →
     st.1 !! p = Some inf_row) ∧
  (∀ p, p ∈ st.2 ↔
     ∃ i w c, i < k ∧ wedges psk !! i = Some w ∧ point_index w = p ∧
       vertex_colors psk !! i = Some c ∧ st.1 !! p ≠ Some (row_of (normalized c))).

(** The first wedge of the file on the vertex [p]. *)
Definition first_wedge (psk : Psk) (p : nat) : option nat :=
  fst <$> list_find (λ w, point_index w = p) (wedges psk).

(** The wedge [i] has another color than the first wedge on its vertex. *)
Definition recolors {F} `{EqDecision F} (normalized : Color → F * F * F * F) (psk : Psk)
    (i : nat) (w : Wedge) : bool :=
  match first_wedge psk (point_index w) ≫= (vertex_colors psk !!.), vertex_colors psk !! i with
  | Some c0, Some c => negb (bool_decide (normalized c0 = normalized c))
  | _, _ => false
  end.

(** The wedges that recolor their vertex, in the order of the file. *)
Definition recoloring_wedges {F} `{EqDecision F} (normalized : Color → F * F * F * F)
    (psk : Psk) : list (nat * Wedge) :=
  ifilter (recolors normalized psk) 0 (wedges psk).



End MeshSpec.

(** ** Sample meshes *)
Module MeshExamples.
Import Mesh.

Definition options_all : PskImportOptions := mkOptions true true true.

(** A triangle, and a second face whose first and last wedges are on the
    same vertex. *)
Definition with_degenerate_face : Psk :=
  mkPsk [mkVec 0 0 0; mkVec 1 0 0; mkVec 0 1 0]
        [mkWedge 0 0 0; mkWedge 1 1 0; mkWedge 2 0 1; mkWedge 0 (1 # 2) (1 # 2)]
        [mkFace (0, 1, 2)%nat 0; mkFace (0, 1, 3)%nat 0]
        [(0, 0); (1, 1); (2, 2); (3, 3); (4, 4); (5, 5); (6, 6); (7, 7); (8, 8)]%Q
        [mkColor 255 0 0 255; mkColor 0 255 0 255; mkColor 0 0 255 255; mkColor 9 9 9 255]
        true true.

(** The same triangle twice, the second time from another corner. *)
Definition with_duplicate_face : Psk :=
  mkPsk [mkVec 0 0 0; mkVec 1 0 0; mkVec 0 1 0]
        [mkWedge 0 0 0; mkWedge 1 1 0; mkWedge 2 0 1]
        [mkFace (0, 1, 2)%nat 0; mkFace (1, 2, 0)%nat 0]
        [] [] false false.

(** Four points, and three wedges on the first three. *)
Definition with_unreferenced_vertex : Psk :=
  mkPsk [mkVec 0 0 0; mkVec 1 0 0; mkVec 0 1 0; mkVec 1 1 0]
        [mkWedge 0 0 0; mkWedge 1 1 0; mkWedge 2 0 1]
        [mkFace (0, 1, 2)%nat 0]
        []
        [mkColor 255 0 0 255; mkColor 0 255 0 255; mkColor 0 0 255 255]
        false true.

(** Color components as integers, [1.0] as 255, [normalized] as the four
    bytes, and a stand-in for [rgb_to_srgb] that keeps [inf]. *)
Definition byte_normalized (c : Color) : Z * Z * Z * Z :=
  (Z.of_N (red c), Z.of_N (green c), Z.of_N (blue c), Z.of_N (alpha c)).

Definition double_rgb (c : cell Z) : cell Z :=
  match c with Inf => Inf | Fin z => Fin (2 * z)%Z end.

(** A face whose last wedge index is beyond the wedges of the file. *)
Definition with_missing_wedge : Psk :=
  mkPsk [mkVec 0 0 0; mkVec 1 0 0; mkVec 0 1 0]
        [mkWedge 0 0 0; mkWedge 1 1 0; mkWedge 2 0 1]
        [mkFace (0, 1, 5)%nat 0]
        [] [] false false.

(** Extra UVs, and no geometry. *)
Definition without_wedges : Psk :=
  mkPsk [] [] [] [(0, 0); (1, 1)]%Q [] true false.


(** Two triangles on four vertices; the vertex 0 has three wedges, of which
    the last two have another color than the first. *)
Definition with_two_recolorings : Psk :=
  mkPsk [mkVec 0 0 0; mkVec 1 0 0; mkVec 0 1 0; mkVec 1 1 0]
        [mkWedge 0 0 0; mkWedge 1 1 0; mkWedge 2 0 1; mkWedge 0 0 0; mkWedge 3 1 1;
         mkWedge 0 1 0]
        [mkFace (0, 1, 2)%nat 0; mkFace (3, 4, 2)%nat 0]
        [(0, 0); (1, 1); (2, 2); (3, 3); (4, 4); (5, 5); (6, 6)]%Q
        [mkColor 255 0 0 255; mkColor 0 255 0 255; mkColor 0 0 255 255; mkColor 9 9 9 255;
         mkColor 7 7 7 255; mkColor 9 9 9 255]
        true true.

End MeshExamples.

(** ** The animation importer, [PsaImporter.import_psa] *)
Module Psa.

(** [Psa.Bone]: its name, decoded. *)
Record Bone := mkBone { name : string }.

(** What the importer reads of the parent of an armature bone. *)
Record ParentBone := mkParentBone {
  pb_name : string;
  (** [parent.matrix_local.translation] *)
  pb_translation : Vector;
  (** [parent.matrix_local.to_quaternion()] *)
  pb_quaternion : Quaternion;
}.

(** A bone of the target armature. *)
Record ArmatureBone := mkArmatureBone {
  ab_name : string;
  ab_parent : option ParentBone;
  (** [matrix_local.translation] *)
  ab_translation : Vector;
  (** [matrix_local.to_quaternion()] *)
  ab_quaternion : Quaternion;
  (** the custom properties [orig_quat], [orig_loc] and [post_quat] *)
  ab_bind_pose : option (Quaternion * Vector * Quaternion);
}.

Inductive data_path := rotation_quaternion | location.

(** An f-curve of an action: the pose bone, the property and the index. *)
Record FCurve := mkFCurve { fc_bone : string; fc_path : data_path; fc_index : nat }.

#[global] Instance data_path_eq_dec : EqDecision data_path.
Proof. solve_decision. Defined.
#[global] Instance FCurve_eq_dec : EqDecision FCurve.
Proof. solve_decision. Defined.

(** The intermediate bone type.  [parent] refers to an ImportBone by its key
    in [import_bones_dict]. *)
Record ImportBone := mkImportBone {
  psa_bone : Bone;
  parent : option string;
  armature_bone : ArmatureBone;
  pose_bone : string;
  orig_loc : Vector;
  orig_quat : Quaternion;
  post_quat : Quaternion;
  fcurves : list FCurve;
}.

Definition set_parent (v : option string) (b : ImportBone) : ImportBone :=
  mkImportBone (psa_bone b) v (armature_bone b) (pose_bone b) (orig_loc b) (orig_quat b)
    (post_quat b) (fcurves b).
Definition set_bind_pose (loc : Vector) (quat post : Quaternion) (b : ImportBone) : ImportBone :=
  mkImportBone (psa_bone b) (parent b) (armature_bone b) (pose_bone b) loc quat post (fcurves b).
Definition set_fcurves (v : list FCurve) (b : ImportBone) : ImportBone :=
  mkImportBone (psa_bone b) (parent b) (armature_bone b) (pose_bone b) (orig_loc b)
    (orig_quat b) (post_quat b) v.

(** The samples of a sequence, [frame][bone][channel], and the matrix of the
    keyframes to write, of the same shape. *)
Abbreviation DataMatrix := (list (list (list Q))).
Abbreviation WriteMatrix := (list (list (list bool))).

(** [m[i, j]] and [m[i, j] = v] *)
Definition get2 {A} (m : list (list A)) (i j : nat) : result A :=
  row ← get m i; get row j.
Definition put2 {A} (m : list (list A)) (i j : nat) (v : A) : result (list (list A)) :=
  row ← get m i; row ← put row j v; put m i row.

(** [m[:, j, k]] *)
Definition column {A} (m : list (list (list A))) (j k : nat) : result (list A) :=
  mapM (λ row, cell ← get row j; get cell k) m.

(** [np.ones(m.shape)] *)
Definition ones (m : DataMatrix) : WriteMatrix :=
  (λ row : list (list Q), (λ cell : list Q, (λ _, true) <$> cell) <$> row) <$> m.

(** [Quaternion(seq)] and [Vector(seq)], the latter as far as its three
    components are read. *)
Definition quat_of_list (l : list Q) : result Quaternion :=
  match l with
  | [w; x; y; z] => Ok (mkQuat w x y z)
  | _ => Raise ValueError
  end.
Definition vec_of_list (l : list Q) : result Vector :=
  match l with
  | [x; y; z] => Ok (mkVec x y z)
  | _ => Raise ValueError
  end.

(** A sequence and the matrix [read_sequence_data_matrix] returns for it. *)
Record Sequence := mkSequence {
  seq_name : string;
  frame_count : nat;
  seq_data : DataMatrix;
}.

Record PsaImportOptions := mkOptions { should_clean_keys : bool }.

(** A key inserted in an f-curve. *)
Record Keyframe := mkKeyframe { kf_fcurve : FCurve; kf_frame : nat; kf_value : Q }.

Section importer.
Context `{Mathutils}.

(** Convert world-space transforms to local-space transforms. *)
Definition calculate_fcurve_data (import_bone : ImportBone) (key_data : list Q)
    : result (list Q) :=
  key_rotation ← quat_of_list (take 4 key_data);
  key_location ← vec_of_list (drop 4 key_data);
  let q := post_quat import_bone in
  let q := quat_rotate q (orig_quat import_bone) in
  let quat := q in
  let q := post_quat import_bone in
  let q := match parent import_bone with
           | None => quat_rotate q (conjugated key_rotation)
           | Some _ => quat_rotate q key_rotation
           end in
  let quat := quat_rotate quat (conjugated q) in
  let loc := vec_sub key_location (orig_loc import_bone) in
  let loc := vec_rotate_quat loc (conjugated (post_quat import_bone)) in
  Ok [qw quat; qx quat; qy quat; qz quat; vx loc; vy loc; vz loc].

(** [names.index(n)] *)
Definition index_of (names : list string) (n : string) : result nat :=
  match list_find (λ x, x = n) names with
  | Some (i, _) => Ok i
  | None => Raise ValueError
  end.

(** [armature_data.bones[bone_name]] *)
Definition find_bone (armature : list ArmatureBone) (bone_name : string)
    : result ArmatureBone :=
  match list_find (λ b, ab_name b = bone_name) armature with
  | Some (_, b) => Ok b
  | None => Raise KeyError
  end.

(** The index mapping from bones in the PSA to bones in the target armature,
    and the names of the PSA bones. *)
Definition map_bone (armature_bone_names : list string) (psa_bone_index : nat)
    (psa_bone : Bone) (st : gmap nat nat * list string) : result (gmap nat nat * list string) :=
  let '(psa_to_armature_bone_indices, psa_bone_names) := st in
  let psa_bone_name := name psa_bone in
  let psa_bone_names := psa_bone_names ++ [psa_bone_name] in
  match index_of armature_bone_names psa_bone_name with
  | Ok i => Ok (<[psa_bone_index := i]> psa_to_armature_bone_indices, psa_bone_names)
  | Raise ValueError => Ok (psa_to_armature_bone_indices, psa_bone_names)
  | Raise e => Raise e
  end.

(** [set(psa_bone_names).difference(set(armature_bone_names))] *)
Definition missing_bone_names (psa_bone_names armature_bone_names : list string) : gset string :=
  list_to_set psa_bone_names ∖ list_to_set armature_bone_names.

(** The body of the loop that creates the intermediate bone data, on
    [import_bones] and [import_bones_dict]; the dict holds the position of
    the ImportBone in [import_bones]. *)
Definition make_import_bone (armature : list ArmatureBone)
    (psa_to_armature_bone_indices : gmap nat nat) (psa_bone_index : nat) (psa_bone : Bone)
    (st : list (option ImportBone) * gmap string nat)
    : result (list (option ImportBone) * gmap string nat) :=
  let '(import_bones, import_bones_dict) := st in
  let bone_name := name psa_bone in
  if bool_decide (psa_bone_index ∉ dom psa_to_armature_bone_indices)
  then Ok (import_bones ++ [None], import_bones_dict)
  else
    armature_bone ← find_bone armature bone_name;
    let import_bone :=
      mkImportBone psa_bone None armature_bone bone_name vec_zero quat_identity
        quat_identity [] in
    Ok (import_bones ++ [Some import_bone],
        <[bone_name := length import_bones]> import_bones_dict).

(** The body of the loop that sets the parent and the bind pose of an
    ImportBone. *)
Definition resolve_import_bone (psa_bone_names : list string)
    (import_bones_dict : gmap string nat) (import_bone : ImportBone) : result ImportBone :=
  let armature_bone := armature_bone import_bone in
  import_bone ←
    match ab_parent armature_bone with
    | Some parent_bone =>
        if bool_decide (pb_name parent_bone ∈ psa_bone_names) then
          match import_bones_dict !! pb_name parent_bone with
          | Some _ => Ok (set_parent (Some (pb_name parent_bone)) import_bone)
          | None => Raise KeyError
          end
        else Ok import_bone
    | None => Ok import_bone
    end;
  match ab_bind_pose armature_bone with
  | Some (orig_quat, orig_loc, post_quat) =>
      Ok (set_bind_pose orig_loc orig_quat post_quat import_bone)
  | None =>
      let '(orig_loc, orig_quat) :=
        match parent import_bone, ab_parent armature_bone with
        | Some _, Some parent_bone =>
            let orig_loc := vec_sub (ab_translation armature_bone) (pb_translation parent_bone) in
            let orig_loc := vec_rotate_quat orig_loc (conjugated (pb_quaternion parent_bone)) in
            let orig_quat := ab_quaternion armature_bone in
            let orig_quat := quat_rotate orig_quat (conjugated (pb_quaternion parent_bone)) in
            (orig_loc, conjugated orig_quat)
        | _, _ => (ab_translation armature_bone, ab_quaternion armature_bone)
        end in
      Ok (set_bind_pose orig_loc orig_quat (conjugated orig_quat) import_bone)
  end.

(** The part of [import_psa] before the sequences. *)
Record Mapping := mkMapping {
  psa_to_armature_bone_indices : gmap nat nat;
  psa_bone_names : list string;
  missing : gset string;
  import_bones : list (option ImportBone);
}.

Definition build_import_bones (armature : list ArmatureBone) (bones : list Bone)
    : result Mapping :=
  let armature_bone_names := ab_name <$> armature in
  '(indices, psa_bone_names) ←
    for_enumerate bones (map_bone armature_bone_names) (∅, []);
  let missing_bone_names := missing_bone_names psa_bone_names armature_bone_names in
  '(import_bones, import_bones_dict) ←
    for_enumerate bones (make_import_bone armature indices) ([], ∅);
  import_bones ←
    mapM (λ import_bone,
            match import_bone with
            | Some import_bone =>
                import_bone ← resolve_import_bone psa_bone_names import_bones_dict import_bone;
                Ok (Some import_bone)
            | None => Ok None
            end) import_bones;
  Ok (mkMapping indices psa_bone_names missing_bone_names import_bones).

(** The seven f-curves of a pose bone, Qw Qx Qy Qz Lx Ly Lz. *)
Definition new_fcurves (pose_bone : string) : list FCurve :=
  [mkFCurve pose_bone rotation_quaternion 0; mkFCurve pose_bone rotation_quaternion 1;
   mkFCurve pose_bone rotation_quaternion 2; mkFCurve pose_bone rotation_quaternion 3;
   mkFCurve pose_bone location 0; mkFCurve pose_bone location 1;
   mkFCurve pose_bone location 2].

(** Create f-curves for the rotation and location of each bone: the keys of
    the index mapping are the positions of the ImportBones in
    [import_bones]. *)
Definition create_fcurves (indices : gmap nat nat) (import_bones : list (option ImportBone))
    : list (option ImportBone) :=
  imap (λ psa_bone_index import_bone,
          if bool_decide (psa_bone_index ∈ dom indices)
          then (λ b, set_fcurves (new_fcurves (pose_bone b)) b) <$> import_bone
          else import_bone) import_bones.

(** Convert the sequence's data from world-space to local-space. *)
Definition convert_bone (import_bone : ImportBone) (bone_index frame_count : nat)
    (sequence_data_matrix : DataMatrix) : result DataMatrix :=
  for_range frame_count (λ frame_index m,
    key_data ← get2 m frame_index bone_index;
    key_data ← calculate_fcurve_data import_bone key_data;
    put2 m frame_index bone_index key_data) sequence_data_matrix.

Definition convert_sequence (import_bones : list (option ImportBone)) (frame_count : nat)
    (sequence_data_matrix : DataMatrix) : result DataMatrix :=
  for_enumerate import_bones (λ bone_index import_bone m,
    match import_bone with
    | None => Ok m
    | Some import_bone => convert_bone import_bone bone_index frame_count m
    end) sequence_data_matrix.

(** [abs(datum - last_written_datum) < threshold] *)
Definition below_threshold (threshold datum last_written_datum : Q) : bool :=
  negb (Qle_bool threshold (Qabs (datum - last_written_datum))).

(** The walk over the frames of one f-curve, on [last_written_datum] and the
    write matrix. *)
Definition clean_fcurve (threshold : Q) (bone_index fcurve_index : nat)
    (fcurve_frame_data : list Q) (keyframe_write_matrix : WriteMatrix) : result WriteMatrix :=
  st ← for_enumerate fcurve_frame_data (λ frame_index datum st,
         let '(last_written_datum, w) := st in
         if bool_decide (0 < frame_index)%nat && below_threshold threshold datum last_written_datum
         then
           cell ← get2 w frame_index bone_index;
           cell ← put cell fcurve_index false;
           w ← put2 w frame_index bone_index cell;
           Ok (last_written_datum, w)
         else Ok (datum, w))
       (0%Q, keyframe_write_matrix);
  Ok st.2.

(** Clean the keyframe data. *)
Definition clean_keys (threshold : Q) (import_bones : list (option ImportBone))
    (sequence_data_matrix : DataMatrix) (keyframe_write_matrix : WriteMatrix)
    : result WriteMatrix :=
  for_enumerate import_bones (λ bone_index import_bone w,
    match import_bone with
    | None => Ok w
    | Some import_bone =>
        for_range (length (fcurves import_bone)) (λ fcurve_index w,
          fcurve_frame_data ← column sequence_data_matrix bone_index fcurve_index;
          clean_fcurve threshold bone_index fcurve_index fcurve_frame_data w) w
    end) keyframe_write_matrix.

(** [zip(fcurves, should_write, key_data)], keeping the keys to insert. *)
Fixpoint zip_keys (frame_index : nat) (fcurves : list FCurve) (write : list bool)
    (key_data : list Q) : list Keyframe :=
  match fcurves, write, key_data with
  | fcurve :: fcurves, should_write :: write, datum :: key_data =>
      (if should_write then [mkKeyframe fcurve frame_index datum] else []) ++
      zip_keys frame_index fcurves write key_data
  | _, _, _ => []
  end.

(** [any(row)] *)
Definition any (row : list bool) : bool := existsb id row.

(** Write the keyframes out: the keys inserted in the action, in order. *)
Definition write_keyframes (import_bones : list (option ImportBone)) (frame_count : nat)
    (sequence_data_matrix : DataMatrix) (keyframe_write_matrix : WriteMatrix)
    : result (list Keyframe) :=
  for_range frame_count (λ frame_index keys,
    for_enumerate import_bones (λ bone_index import_bone keys,
      match import_bone with
      | None => Ok keys
      | Some import_bone =>
          write ← get2 keyframe_write_matrix frame_index bone_index;
          if any write then
            key_data ← get2 sequence_data_matrix frame_index bone_index;
            Ok (keys ++ zip_keys frame_index (fcurves import_bone) write key_data)
          else Ok keys
      end) keys) [].

(** The result of the import of one sequence: the converted samples, the
    write matrix and the keys of the action. *)
Record Action := mkAction {
  act_name : string;
  act_data : DataMatrix;
  act_write : WriteMatrix;
  act_keys : list Keyframe;
}.

Definition threshold : Q := 1 # 1000.

(** The body of the loop over the sequences, the threshold being given. *)
Definition import_sequence_with (threshold : Q) (options : PsaImportOptions)
    (mapping : Mapping) (sequence : Sequence) : result Action :=
  let import_bones :=
    create_fcurves (psa_to_armature_bone_indices mapping) (import_bones mapping) in
  let sequence_data_matrix := seq_data sequence in
  let keyframe_write_matrix := ones sequence_data_matrix in
  sequence_data_matrix ←
    convert_sequence import_bones (frame_count sequence) sequence_data_matrix;
  keyframe_write_matrix ←
    (if should_clean_keys options
     then clean_keys threshold import_bones sequence_data_matrix keyframe_write_matrix
     else Ok keyframe_write_matrix);
  keys ← write_keyframes import_bones (frame_count sequence) sequence_data_matrix
           keyframe_write_matrix;
  Ok (mkAction (seq_name sequence) sequence_data_matrix keyframe_write_matrix keys).

Definition import_sequence : PsaImportOptions → Mapping → Sequence → result Action :=
  import_sequence_with threshold.

Definition import_psa (armature : list ArmatureBone) (bones : list Bone)
    (sequences : list Sequence) (options : PsaImportOptions)
    : result (Mapping * list Action) :=
  mapping ← build_import_bones armature bones;
  actions ← mapM (import_sequence options mapping) sequences;
  Ok (mapping, actions).

End importer.
End Psa.

(** ** What the animation importer is to produce *)
Module PsaSpec.
Import Psa.

(** [m[f, b]], when both indices are in range. *)
Definition cell_at {A} (m : list (list A)) (f b : nat) : option A :=
  m !! f ≫= (.!! b).

(** A matrix of [frames] rows of [bones] cells of seven channels. *)
Definition shaped {A} (m : list (list (list A))) (frames bones : nat) : Prop :=
  length m = frames ∧
  ∀ f row, m !! f = Some row →
    length row = bones ∧ ∀ b cell, row !! b = Some cell → length cell = 7%nat.

Definition shapedb {A} (m : list (list (list A))) (frames bones : nat) : bool :=
  bool_decide (length m = frames) &&
  forallb (λ row, bool_decide (length row = bones) &&
                  forallb (λ cell, bool_decide (length cell = 7%nat)) row) m.

(** The values of the channel [c] of the bone [b], frame after frame. *)
Definition channel {A} (m : list (list (list A))) (b c : nat) : list A :=
  omap (λ row : list (list A), row !! b ≫= (.!! c)) m.


(** The walk of the cleaner over the values of one channel, as a function:
    the flag of every frame, [frame_index] being the index of the first value
    and [last] the last written datum. *)
Fixpoint keep_from (threshold : Q) (frame_index : nat) (last : Q) (values : list Q)
    : list bool :=
  match values with
  | [] => []
  | datum :: values =>
      if bool_decide (0 < frame_index)%nat && below_threshold threshold datum last
      then false :: keep_from threshold (S frame_index) last values
      else true :: keep_from threshold (S frame_index) datum values
  end.

Definition keep_flags (threshold : Q) (values : list Q) : list bool :=
  keep_from threshold 0 0%Q values.


(** A cell of the write matrix after the channels in [drop] were unmarked. *)
Definition apply_drops (drop : nat → bool) (cell : list bool) : list bool :=
  imap (λ c x, x && negb (drop c)) cell.

(** The cleaner unmarks the frame [f] of the channel [c] of the bone [b]. *)
Definition dropped (threshold : Q) (import_bones : list (option ImportBone))
    (m : DataMatrix) (f b c : nat) : bool :=
  match import_bones !! b with
  | Some (Some import_bone) =>
      bool_decide (c < length (fcurves import_bone))%nat &&
      negb (default true (keep_flags threshold (channel m b c) !! f))
  | _ => false
  end.

(** The walk starting at the frame [start] drops the frame [f]. *)
Definition walk_drop (threshold : Q) (start : nat) (last : Q) (values : list Q) (f : nat)
    : bool :=
  bool_decide (start ≤ f) &&
  negb (default true (keep_from threshold start last values !! (f - start))).

Section retarget.
Context `{Mathutils}.

(** [a o b], the composition of the specification: [a] rotated by [b], as
    [a.rotate(b)] leaves [a]. *)
Definition compose (a b : Quaternion) : Quaternion := quat_rotate a b.

(** [rotate(v, q)] *)
Definition rotate (v : Vector) (q : Quaternion) : Vector := vec_rotate_quat v q.

(** The per-sample conversion of the specification:
    [q = post_quat o orig_quat],
    [q' = post_quat o (root? conjugate(key_rotation) : key_rotation)],
    [local_rotation = q o conjugate(q')],
    [local_translation = rotate(key_location - orig_loc, conjugate(post_quat))]. *)
Definition spec_local_rotation (b : ImportBone) (key_rotation : Quaternion) : Quaternion :=
  let q := compose (post_quat b) (orig_quat b) in
  let q' := compose (post_quat b)
              (if parent b is None then conjugated key_rotation else key_rotation) in
  compose q (conjugated q').

Definition spec_local_translation (b : ImportBone) (key_location : Vector) : Vector :=
  rotate (vec_sub key_location (orig_loc b)) (conjugated (post_quat b)).

(** The seven channels of a sample. *)
Definition sample (rotation : Quaternion) (translation : Vector) : list Q :=
  [qw rotation; qx rotation; qy rotation; qz rotation;
   vx translation; vy translation; vz translation].

(** The cell of a bone after the conversion. *)
Definition converted (import_bone : option (option ImportBone)) (cell : list Q) : list Q :=
  match import_bone with
  | Some (Some b) =>
      match calculate_fcurve_data b cell with
      | Ok v => v
      | Raise _ => cell
      end
  | _ => cell
  end.

End retarget.
Section mapping.
Context `{Mathutils}.

(** The ImportBone of a PSA bone as the loop over the PSA bones creates it:
    none when the armature has no bone of its name. *)
Definition new_import_bone (armature : list ArmatureBone) (psa_bone : Bone)
    : option ImportBone :=
  match find_bone armature (name psa_bone) with
  | Ok armature_bone =>
      Some (mkImportBone psa_bone None armature_bone (name psa_bone) vec_zero quat_identity
              quat_identity [])
  | Raise _ => None
  end.

(** The step of the loop that sets the parents and the bind poses. *)
Definition resolve (psa_bone_names : list string) (import_bones_dict : gmap string nat)
    (import_bone : option ImportBone) : result (option ImportBone) :=
  match import_bone with
  | Some import_bone =>
      import_bone ← resolve_import_bone psa_bone_names import_bones_dict import_bone;
      Ok (Some import_bone)
  | None => Ok None
  end.

(** An ImportBone with the f-curves of an action. *)
Definition with_fcurves (import_bone : option ImportBone) : option ImportBone :=
  (λ b, set_fcurves (new_fcurves (pose_bone b)) b) <$> import_bone.

End mapping.

(** The index in a list of the element that is at [j] once the element at [k]
    is removed. *)
Definition skip (k j : nat) : nat := if decide (j < k) then j else S j.

(** A sequence without the samples of the bone [k]. *)
Definition without_bone (k : nat) (sequence : Sequence) : Sequence :=
  mkSequence (seq_name sequence) (frame_count sequence) (delete k <$> seq_data sequence).

(** An action without the samples and the flags of the bone [k]. *)
Definition action_without_bone (k : nat) (action : Action) : Action :=
  mkAction (act_name action) (delete k <$> act_data action) (delete k <$> act_write action)
    (act_keys action).

End PsaSpec.

Module PsaExamples.
Import Psa.

(** An armature of a root and an arm on it, with their stored bind poses. *)
Definition root : ArmatureBone :=
  mkArmatureBone "Root" None vec_zero quat_identity
    (Some (quat_identity, vec_zero, quat_identity)).

Definition arm : ArmatureBone :=
  mkArmatureBone "Arm" (Some (mkParentBone "Root" vec_zero quat_identity)) (mkVec 0 1 0)
    quat_identity (Some (mkQuat 0 1 0 0, mkVec 0 1 0, mkQuat 0 (-1) 0 0)).

Definition armature : list ArmatureBone := [root; arm].

(** The bones of the PSA: the armature has no bone "Spine". *)
Definition bones : list Bone := [mkBone "Root"; mkBone "Spine"; mkBone "Arm"].

(** Three frames; the samples of "Spine" do not change, the arm turns at the
    second frame and returns at the third. *)
Definition idle : Sequence :=
  mkSequence "Idle" 3
    [[[1; 0; 0; 0; 0; 0; 0]; [1; 0; 0; 0; 5; 5; 5]; [1; 0; 0; 0; 0; 1; 0]];
     [[1; 0; 0; 0; 0; 0; 0]; [1; 0; 0; 0; 5; 5; 5]; [0; 0; 0; 1; 0; 2; 0]];
     [[1; 0; 0; 0; 0; 0; 0]; [1; 0; 0; 0; 5; 5; 5]; [1; 0; 0; 0; 0; 1; 0]]]%Q.

Definition clean : PsaImportOptions := mkOptions true.

(** The ImportBones of [bones] on [armature], with their f-curves. *)
Definition import_root : ImportBone :=
  mkImportBone (mkBone "Root") None root "Root" vec_zero quat_identity quat_identity
    (new_fcurves "Root").

Definition import_arm : ImportBone :=
  mkImportBone (mkBone "Arm") (Some "Root") arm "Arm" (mkVec 0 1 0) (mkQuat 0 1 0 0)
    (mkQuat 0 (-1) 0 0) (new_fcurves "Arm").

Definition idle_import_bones : list (option ImportBone) :=
  [Some import_root; None; Some import_arm].

End PsaExamples.

(** ** The mapping and the keys of [import_psa], as functions of its input *)
Module PsaKeys.
Import Psa PsaSpec.


(** The index of the first occurrence of [n] in [names]. *)
Definition first_index (names : list string) (n : string) : option nat :=
  fst <$> list_find (λ x, x = n) names.

(** The keys that the write loop inserts for one bone at one frame. *)
Definition bone_keys (sequence_data_matrix : DataMatrix) (keyframe_write_matrix : WriteMatrix)
    (frame_index bone_index : nat) (import_bone : option ImportBone) : list Keyframe :=
  match import_bone with
  | Some import_bone =>
      match cell_at keyframe_write_matrix frame_index bone_index with
      | Some write =>
          if any write then
            match cell_at sequence_data_matrix frame_index bone_index with
            | Some key_data => zip_keys frame_index (fcurves import_bone) write key_data
            | None => []
            end
          else []
      | None => []
      end
  | None => []
  end.

(** The keys of one frame, bone after bone, and of all the frames. *)
Definition frame_keys (import_bones : list (option ImportBone)) (m : DataMatrix)
    (w : WriteMatrix) (frame_index : nat) : list Keyframe :=
  mjoin (imap (bone_keys m w frame_index) import_bones).

Definition all_keys (import_bones : list (option ImportBone)) (frame_count : nat)
    (m : DataMatrix) (w : WriteMatrix) : list Keyframe :=
  seq 0 frame_count ≫= frame_keys import_bones m w.

(** The number of PSA bones that have an ImportBone. *)
Definition mapped_count (import_bones : list (option ImportBone)) : nat :=
  length (omap id import_bones).

End PsaKeys.

Module PsaKeysExamples.
Import Psa.



End PsaKeysExamples.

(** ** The operators of the PSA import panel *)
Module PsaOperators.
Import Psa.

(** [PsaImportActionListItem] *)
Record ActionListItem := mkItem {
  action_name : string;
  item_frame_count : nat;
  is_selected : bool;
}.

Definition set_is_selected (v : bool) (item : ActionListItem) : ActionListItem :=
  mkItem (action_name item) (item_frame_count item) v.

(** [PsaImportSelectAll]: [poll] and the action list after [execute]. *)
Definition select_all_poll (action_list : list ActionListItem) : bool :=
  let has_unselected_actions := existsb (λ action, negb (is_selected action)) action_list in
  bool_decide (0 < length action_list)%nat && has_unselected_actions.

Definition select_all_execute (action_list : list ActionListItem) : list ActionListItem :=
  set_is_selected true <$> action_list.

(** [PsaImportDeselectAll] *)
Definition deselect_all_poll (action_list : list ActionListItem) : bool :=
  let has_selected_actions := existsb is_selected action_list in
  bool_decide (0 < length action_list)%nat && has_selected_actions.

Definition deselect_all_execute (action_list : list ActionListItem) : list ActionListItem :=
  set_is_selected false <$> action_list.

(** [PsaImportOperator.poll]; the active object is given by its type, when
    there is one. *)
Definition import_poll (action_list : list ActionListItem) (active_object : option string)
    : bool :=
  let has_selected_actions := existsb is_selected action_list in
  has_selected_actions &&
  match active_object with
  | Some type => bool_decide (type = "ARMATURE")
  | None => false
  end.

(** [[x.action_name for x in property_group.action_list if x.is_selected]] *)
Definition selected_names (action_list : list ActionListItem) : list string :=
  action_name <$> filter (λ x, is_selected x) action_list.

Section execute.
Context `{Mathutils}.

(** [psa_reader.sequences[x]] *)
Definition find_sequence (sequences : gmap string Sequence) (x : string) : result Sequence :=
  match sequences !! x with
  | Some sequence => Ok sequence
  | None => Raise KeyError
  end.

(** [import_psa] on the sequences of the reader: [map] is lazy, a name is
    looked up when the loop over the sequences reaches it. *)
Definition import_psa_named (sequences : gmap string Sequence) (armature : list ArmatureBone)
    (bones : list Bone) (sequence_names : list string) (options : PsaImportOptions)
    : result (Mapping * list Action) :=
  mapping ← build_import_bones armature bones;
  actions ← mapM (λ x, sequence ← find_sequence sequences x;
                       import_sequence options mapping sequence) sequence_names;
  Ok (mapping, actions).

(** [PsaImportOperator.execute]: the result of the import and the number of
    actions that is reported. *)
Definition execute (sequences : gmap string Sequence) (armature : list ArmatureBone)
    (bones : list Bone) (should_clean_keys : bool) (action_list : list ActionListItem)
    : result (Mapping * list Action * nat) :=
  let sequence_names := selected_names action_list in
  let options := mkOptions should_clean_keys in
  imported ← import_psa_named sequences armature bones sequence_names options;
  Ok (imported, length sequence_names).

End execute.
End PsaOperators.

Module PsaOperatorsExamples.
Import Psa PsaOperators PsaExamples.

Definition idle_reader : gmap string Sequence := {["Idle" := idle]}.

Definition idle_list : list ActionListItem := [mkItem "Idle" 3 true; mkItem "Walk" 8 false].

End PsaOperatorsExamples.

(** ** The material list of the PSK export operator

    [psk/export/operators.py]: [populate_material_list] and the two
    operators that move the selected material. *)
Module PskExport.

Inductive exn := RuntimeError (message : string).

Section materials.
Context {Material : Type} `{EqDecision Material}.

(** An entry of [pg.material_list]. *)
Record MaterialListItem := mkItem { material : Material; index : nat }.

(** [materials.append(material)] unless [material in materials] *)
Definition add_material (materials : list Material) (material : Material) : list Material :=
  if bool_decide (material ∈ materials) then materials else materials ++ [material].

(** The loop over the material slots of one mesh object, from the slot [i]
    on; the material of a slot is [None] when the slot is empty. *)
Fixpoint collect_slots (i : nat) (material_slots : list (option Material))
    (materials : list Material) : exn + list Material :=
  match material_slots with
  | [] => inr materials
  | material :: material_slots =>
      match material with
      | None =>
          inl (RuntimeError ("Material slot cannot be empty (index " +:+ pretty i +:+ ")"))
      | Some material => collect_slots (S i) material_slots (add_material materials material)
      end
  end.

(** The loop over the mesh objects. *)
Fixpoint collect_materials (mesh_objects : list (list (option Material)))
    (materials : list Material) : exn + list Material :=
  match mesh_objects with
  | [] => inr materials
  | mesh_object :: mesh_objects =>
      match collect_slots 0 mesh_object materials with
      | inl e => inl e
      | inr materials => collect_materials mesh_objects materials
      end
  end.

(** [populate_material_list(mesh_objects, material_list)]: the material list
    after the call, and the exception when one is raised. *)
Definition populate_material_list (mesh_objects : list (list (option Material)))
    (material_list : list MaterialListItem) : list MaterialListItem * option exn :=
  let material_list : list MaterialListItem := [] in
  match collect_materials mesh_objects [] with
  | inl e => (material_list, Some e)
  | inr materials =>
      (material_list ++ imap (λ index material, mkItem material index) materials, None)
  end.

(** The materials of a list of slots of which none is empty, in the order of
    their first occurrence, after [materials]. *)
Definition first_occurrences (slots : list Material) (materials : list Material)
    : list Material :=
  foldl add_material materials slots.

(** The materials [materials] are those of [slots], once each, in the order
    of their first occurrence. *)
Definition in_order_of_first_occurrence (slots materials : list Material) : Prop :=
  NoDup materials ∧
  (∀ m, m ∈ materials ↔ m ∈ slots) ∧
  ∀ i j a b, (i < j)%nat → materials !! i = Some a → materials !! j = Some b →
    ∃ p, slots !! p = Some a ∧ ∀ q, slots !! q = Some b → (p < q)%nat.

End materials.

(** [bpy_prop_collection.move(key, pos)]: the item at [key] is moved to
    [pos] when both are indices of the collection, and nothing is done
    otherwise. *)
Definition move {A} (l : list A) (key pos : Z) : list A :=
  if bool_decide (0 ≤ key < Z.of_nat (length l))%Z &&
     bool_decide (0 ≤ pos < Z.of_nat (length l))%Z then
    match l !! Z.to_nat key with
    | Some x =>
        let l' := delete (Z.to_nat key) l in
        take (Z.to_nat pos) l' ++ x :: drop (Z.to_nat pos) l'
    | None => l
    end
  else l.

Section operators.
Context {Item : Type}.

(** The properties of [context.scene.psk_export] that the operators use. *)
Record ExportProperties := mkProperties {
  material_list : list Item;
  material_list_index : Z;
}.

(** [PSK_OT_material_list_move_up] *)
Definition move_up_poll (pg : ExportProperties) : bool :=
  bool_decide (0 < material_list_index pg)%Z.

Definition move_up_execute (pg : ExportProperties) : ExportProperties :=
  let pg := mkProperties
              (move (material_list pg) (material_list_index pg) (material_list_index pg - 1))
              (material_list_index pg) in
  mkProperties (material_list pg) (material_list_index pg - 1).

(** [PSK_OT_material_list_move_down] *)
Definition move_down_poll (pg : ExportProperties) : bool :=
  bool_decide (material_list_index pg < Z.of_nat (length (material_list pg)) - 1)%Z.

Definition move_down_execute (pg : ExportProperties) : ExportProperties :=
  let pg := mkProperties
              (move (material_list pg) (material_list_index pg) (material_list_index pg + 1))
              (material_list_index pg) in
  mkProperties (material_list pg) (material_list_index pg + 1).

End operators.
Arguments ExportProperties : clear implicits.

End PskExport.

Module PskExportExamples.
Import PskExport.

(** Two mesh objects that share the material "skin", and a mesh object with
    an empty slot. *)
Definition body : list (option string) := [Some "skin"; Some "cloth"].
Definition head : list (option string) := [Some "eyes"; Some "skin"].
Definition hat : list (option string) := [Some "felt"; None; None].

Definition three_materials : ExportProperties string :=
  mkProperties ["skin"; "cloth"; "eyes"] 1.

End PskExportExamples.

(** ** The edit bones of [import_psk], as a function of the ImportBones *)
Module PskEditBones.
Import Psk.

Section edit_bones.
Context `{Mathutils}.

(** The rotation of an ImportBone when its edit bone is made: the one of a
    bone without parent has just been conjugated in place. *)
Definition bind_rotation (b : ImportBone) : Quaternion :=
  match parent b with
  | Some _ => local_rotation b
  | None => conjugated (local_rotation b)
  end.

(** The edit bone that the third loop makes of an ImportBone of the second
    loop. *)
Definition edit_bone_of (b : ImportBone) : EditBone :=
  mkEditBone (name (psk_bone b))
    (match parent b with
     | Some _ => Some (Z.to_nat (parent_index (psk_bone b)))
     | None => None
     end)
    (set_translation
       (to_4x4 (quat_to_matrix
                  (quat_rotate_mat (conjugated (bind_rotation b)) (m3 (world_matrix b)))))
       (translation (world_matrix b)))
    (bind_rotation b) (local_translation b) (conjugated (bind_rotation b)).

(** The state of the third loop when it reaches bone [k], [s0] being the
    ImportBone list it started from. *)
Definition edit_inv (s0 : list ImportBone) (k : nat)
    (st : list ImportBone * list EditBone) : Prop :=
  length st.1 = length s0 ∧
  (∀ j, (k ≤ j)%nat → st.1 !! j = s0 !! j) ∧
  (∀ j ib, st.1 !! j = Some ib →
     ∃ ib0, s0 !! j = Some ib0 ∧ world_matrix ib = world_matrix ib0) ∧
  st.2 = edit_bone_of <$> take k s0.

End edit_bones.
End PskEditBones.

(** ** The vertex groups of [import_psk] *)
Module PskVertexGroups.

(** [Psk.Weight]: the fields the importer reads.  The indices are Python
    ints: a subscript with a negative one counts from the end of the list. *)
Record Weight := mkWeight { weight : Q; point_index : Z; bone_index : Z }.

(** The exceptions of this part: a subscript out of range, and an attribute
    of [None]. *)
Inductive exn := IndexError | AttributeError.

(** The position that [l[i]] reads. *)
Definition subscript {A} (l : list A) (i : Z) : option nat :=
  if bool_decide (0 ≤ i < Z.of_nat (length l))%Z then Some (Z.to_nat i)
  else if bool_decide (- Z.of_nat (length l) ≤ i < 0)%Z
       then Some (Z.to_nat (Z.of_nat (length l) + i))
       else None.

(** [sorted(list(vertex_group_bone_indices))], where
    [vertex_group_bone_indices = set(map(lambda weight: weight.bone_index, psk.weights))] *)
Definition vertex_group_bone_indices (weights : list Weight) : list Z :=
  merge_sort Z.le (elements (list_to_set (bone_index <$> weights) : gset Z)).

Record State := mkState {
  (** [mesh_object.vertex_groups]: the names the groups were created with *)
  vertex_groups : list string;
  (** [import_bone.vertex_group] of every ImportBone: [None], or a group of
      [mesh_object.vertex_groups], by its position *)
  vertex_group : list (option nat);
  (** the calls of [vertex_group.add]: the group, the vertex and the weight *)
  added : list (nat * Z * Q);
}.

(** [import_bone.vertex_group = mesh_object.vertex_groups.new(name=...)],
    for the ImportBone at position [b]. *)
Definition new_vertex_group (name : string) (b : nat) (st : State) : State :=
  mkState (vertex_groups st ++ [name])
          (<[b := Some (length (vertex_groups st))]> (vertex_group st))
          (added st).

(** The first loop.  [map] is lazy: the subscript [import_bones[x]] is
    evaluated when the loop comes to [x].  [names] are the names of the
    ImportBones.  The state is returned with the exception, if any. *)
Fixpoint create_vertex_groups (names : list string) (indices : list Z) (st : State)
    : State * option exn :=
  match indices with
  | [] => (st, None)
  | x :: indices =>
      match subscript names x ≫= λ b, pair b <$> names !! b with
      | Some (b, name) => create_vertex_groups names indices (new_vertex_group name b st)
      | None => (st, Some IndexError)
      end
  end.

(** [import_bones[weight.bone_index].vertex_group.add((weight.point_index,), weight.weight, 'ADD')] *)
Definition add_weight (names : list string) (w : Weight) (st : State) : State * option exn :=
  match subscript names (bone_index w) with
  | Some b =>
      match vertex_group st !! b with
      | Some (Some group) =>
          (mkState (vertex_groups st) (vertex_group st)
                   (added st ++ [(group, point_index w, weight w)]), None)
      | Some None => (st, Some AttributeError)
      | None => (st, Some IndexError)
      end
  | None => (st, Some IndexError)
  end.

(** The second loop. *)
Fixpoint add_weights (names : list string) (weights : list Weight) (st : State)
    : State * option exn :=
  match weights with
  | [] => (st, None)
  | w :: weights =>
      match add_weight names w st with
      | (st, None) => add_weights names weights st
      | (st, Some e) => (st, Some e)
      end
  end.

(** Both loops, for ImportBones with the given names and no vertex group. *)
Definition import_vertex_groups (names : list string) (weights : list Weight)
    : State * option exn :=
  let st := mkState [] (replicate (length names) None) [] in
  match create_vertex_groups names (vertex_group_bone_indices weights) st with
  | (st, None) => add_weights names weights st
  | (st, Some e) => (st, Some e)
  end.


End PskVertexGroups.

Module PskVertexGroupsExamples.
Import PskVertexGroups.

Definition three_bones : list string := ["root"; "spine"; "head"].

(** Weights on the bones 2 and 0. *)
Definition two_groups : list Weight :=
  [mkWeight 1 0 2; mkWeight (1 # 2) 1 0; mkWeight (1 # 2) 1 2].

(** The last bone as 2 and as -1. *)
Definition from_the_end : list Weight :=
  [mkWeight 1 0 2; mkWeight 1 1 (-1)].


End PskVertexGroupsExamples.

(** * Properties *)

(** ** Loops and subscripts *)

Lemma get_Ok {A} (l : list A) i x : l !! i = Some x → get l i = Ok x.
Proof. intros E. unfold get. by rewrite E. Qed.

Lemma get_Raise {A} (l : list A) i : l !! i = None → get l i = Raise IndexError.
Proof. intros E. unfold get. by rewrite E. Qed.

Lemma put_Ok {A} (l : list A) i x v : l !! i = Some x → put l i v = Ok (<[i:=v]> l).
Proof. intros E. unfold put. by rewrite E. Qed.

Lemma get_inv {A} (l : list A) i x : get l i = Ok x → l !! i = Some x.
Proof. unfold get. destruct (l !! i); naive_solver. Qed.

Lemma get_exn {A} (l : list A) i e : get l i = Raise e → e = IndexError ∧ l !! i = None.
Proof. unfold get. destruct (l !! i); naive_solver. Qed.

Lemma bind_Ok_l {A B} (a : A) (f : A → result B) : Ok a ≫= f = f a.
Proof. done. Qed.

Lemma bind_Ok {A B} (m : result A) (f : A → result B) b :
  m ≫= f = Ok b → ∃ a, m = Ok a ∧ f a = Ok b.
Proof. destruct m; naive_solver. Qed.

Lemma bind_Raise {A B} (m : result A) (f : A → result B) e :
  m ≫= f = Raise e → m = Raise e ∨ ∃ a, m = Ok a ∧ f a = Raise e.
Proof. destruct m; naive_solver. Qed.

(** A loop whose steps keep an invariant returns, and the invariant holds at
    the end. *)
Lemma for_range_from_intro {St} (P : nat → St → Prop) body n : ∀ start (s : St),
  P start s →
  (∀ i s, start ≤ i < start + n → P i s → ∃ s', body i s = Ok s' ∧ P (S i) s') →
  ∃ s', for_range_from start n body s = Ok s' ∧ P (start + n) s'.
Proof.
  induction n as [|n IH]; intros start s HP Hstep; simpl.
  - exists s. by rewrite Nat.add_0_r.
  - destruct (Hstep start s) as (s1 & E & HP1); [lia|done|].
    rewrite E. simpl.
    destruct (IH (S start) s1 HP1) as (s' & E' & HP').
    { intros i s2 Hi. apply Hstep. lia. }
    exists s'. split; [done|]. by replace (start + S n) with (S start + n) by lia.
Qed.

(** Conversely, a loop that returned went through every step. *)
Lemma for_range_from_elim {St} (P : nat → St → Prop) (R : nat → Prop) body n :
  ∀ start (s s' : St),
  for_range_from start n body s = Ok s' →
  P start s →
  (∀ i s s1, start ≤ i < start + n → P i s → body i s = Ok s1 → R i ∧ P (S i) s1) →
  P (start + n) s' ∧ ∀ i, start ≤ i < start + n → R i.
Proof.
  induction n as [|n IH]; intros start s s' E HP Hstep; simpl in E.
  - inversion E; subst. rewrite Nat.add_0_r. split; [done|lia].
  - apply bind_Ok in E as (s1 & E1 & E2).
    destruct (Hstep start s s1) as [HR HP1]; [lia|done|done|].
    destruct (IH (S start) s1 s' E2 HP1) as [HP' HR'].
    { intros i s2 s3 Hi. apply Hstep. lia. }
    replace (start + S n) with (S start + n) by lia. split; [done|].
    intros i Hi. destruct (decide (i = start)) as [->|]; [done|]. apply HR'. lia.
Qed.


(** ** The skeleton builder *)

Section skeleton_facts.
Context `{Mathutils}.
Import Psk.

Lemma link_bone_step i s b par :
  let p := Z.to_nat (parent_index (psk_bone b)) in
  s !! i = Some b → is_root i (psk_bone b) = false → s !! p = Some par →
  ∃ s' b', link_bone i s = Ok s' ∧ length s' = length s ∧
    (∀ j, j ≠ i → s' !! j = s !! j) ∧ s' !! i = Some b' ∧
    psk_bone b' = psk_bone b ∧ parent b' = Some p ∧
    local_rotation b' = local_rotation b ∧ local_translation b' = local_translation b ∧
    (p ≠ i → composition_law b' par).
Proof.
  intros p Hi Hroot Hp. unfold link_bone.
  rewrite (get_Ok _ _ _ Hi). simpl. rewrite Hroot. fold p.
  rewrite (get_Ok _ _ _ Hp). simpl.
  destruct (decide (p = i)) as [Hpi|Hpi].
  - rewrite Hpi in *.
    repeat (erewrite get_Ok; [|rewrite ?list_lookup_alter_eq, ?Hi; simpl; reflexivity]; simpl).
    eexists _, _. split; [reflexivity|].
    split; [by rewrite !length_alter|].
    split; [intros j Hj; by rewrite !list_lookup_alter_ne|].
    rewrite !list_lookup_alter_eq, Hi. simpl. by repeat split.
  - repeat (erewrite get_Ok;
      [|rewrite ?list_lookup_alter_eq, ?list_lookup_alter_ne, ?Hi, ?Hp by done;
        simpl; reflexivity]; simpl).
    eexists _, _. split; [reflexivity|].
    split; [by rewrite !length_alter|].
    split; [intros j Hj; by rewrite !list_lookup_alter_ne|].
    rewrite !list_lookup_alter_eq, Hi. simpl. by repeat split.
Qed.

Lemma link_bone_root i s b :
  s !! i = Some b → is_root i (psk_bone b) = true → link_bone i s = Ok s.
Proof. intros Hi Hroot. unfold link_bone. rewrite (get_Ok _ _ _ Hi). simpl. by rewrite Hroot. Qed.

Lemma link_bone_out_of_range i s b :
  s !! i = Some b → is_root i (psk_bone b) = false →
  s !! Z.to_nat (parent_index (psk_bone b)) = None →
  link_bone i s = Raise IndexError.
Proof.
  intros Hi Hroot Hp. unfold link_bone. rewrite (get_Ok _ _ _ Hi). simpl.
  rewrite Hroot. by rewrite (get_Raise _ _ Hp).
Qed.


Lemma first_pass_inv bones : second_inv bones 0 (first_pass bones).
Proof.
  unfold first_pass. split; [by rewrite length_imap|]. split.
  - intros j ib Hj. rewrite list_lookup_imap in Hj.
    destruct (bones !! j) as [bone|] eqn:E; [|done]. simpl in Hj.
    injection Hj as <-. exists bone. split; [done|].
    unfold new_import_bone. fold (clamped bone).
    by destruct (is_root j (clamped bone)).
  - intros j ib Hj. lia.
Qed.

Lemma second_pass_step bones k s :
  second_inv bones k s → k < length bones →
  (∀ s1, link_bone k s = Ok s1 → second_inv bones (S k) s1 ∧ parent_in_range bones k) ∧
  (parent_in_range bones k → is_Ok (link_bone k s)).
Proof.
  intros (Hlen & Hbones & Hlaw) Hk.
  destruct (lookup_lt_is_Some_2 s k) as [ib Hib]; [lia|].
  destruct (Hbones k ib Hib) as (bone & Hbone & Hpsk & Hrot & Hloc & Hpar).
  destruct (is_root k (psk_bone ib)) eqn:Hroot.
  { rewrite (link_bone_root k s ib Hib Hroot). split; [|by eexists].
    intros s1 [= <-]. split.
    - split; [done|]. split.
      + intros j ib' Hj. destruct (Hbones j ib' Hj) as (bone' & ? & ? & ? & ? & Hn).
        exists bone'. repeat split; try done. intros [?|?]; apply Hn; [by left|right; lia].
      + intros j ib' Hj Hib' Hr. destruct (decide (j = k)) as [->|].
        * congruence.
        * apply Hlaw; [lia|done..].
    - intros bone' Hb' Hr. congruence. }
  destruct (s !! Z.to_nat (parent_index (psk_bone ib))) as [par|] eqn:Hp.
  2:{ rewrite (link_bone_out_of_range k s ib Hib Hroot Hp). split; [done|].
      intros Hrange. apply lookup_ge_None_1 in Hp.
      specialize (Hrange bone Hbone). rewrite <-Hpsk in Hrange.
      specialize (Hrange Hroot). lia. }
  destruct (link_bone_step k s ib par Hib Hroot Hp)
    as (s' & b' & E & Hlen' & Hother & Hk' & Hpsk' & Hpar' & Hrot' & Hloc' & Hlaw').
  rewrite E. split; [|by eexists].
  intros s1 [= <-]. split.
  - split; [congruence|]. split.
    + intros j ib' Hj. destruct (decide (j = k)) as [->|Hne].
      * assert (ib' = b') as -> by congruence.
        exists bone. repeat split; try congruence.
        intros [?|?]; [congruence|lia].
      * rewrite Hother in Hj by done.
        destruct (Hbones j ib' Hj) as (bone' & ? & ? & ? & ? & Hn).
        exists bone'. repeat split; try done. intros [?|?]; apply Hn; [by left|right; lia].
    + intros j ib' Hj Hib' Hr. destruct (decide (j = k)) as [->|Hne].
      * assert (ib' = b') as -> by congruence. simpl. rewrite Hpsk'.
        split; [done|]. intros par' Hlt Hpar''.
        rewrite Hother in Hpar'' by lia.
        assert (par' = par) as -> by congruence. apply Hlaw'. lia.
      * rewrite Hother in Hib' by done.
        destruct (Hlaw j ib') as [? Hl]; [lia|done..|]. split; [done|].
        intros par' Hlt Hpar''. apply Hl; [done|]. rewrite Hother in Hpar''; [done|lia].
  - intros bone' Hb' Hr. assert (bone' = bone) as -> by congruence.
    rewrite <-Hpsk. apply lookup_lt_Some in Hp. lia.
Qed.

(** The second loop returns exactly when every parent reference is within
    the array. *)
Lemma second_pass_Ok bones s' :
  second_pass (first_pass bones) = Ok s' →
  second_inv bones (length bones) s' ∧ ∀ j, j < length bones → parent_in_range bones j.
Proof.
  unfold second_pass, for_range. intros E.
  assert (length (first_pass bones) = length bones) as Hlen
    by (unfold first_pass; by rewrite length_imap).
  rewrite Hlen in E.
  apply (for_range_from_elim (second_inv bones) (parent_in_range bones)) in E.
  - destruct E as [? HR]. split; [done|]. intros j Hj. apply HR. lia.
  - apply first_pass_inv.
  - intros i s s1 Hi Hinv Hs1.
    destruct (second_pass_step bones i s Hinv) as [Hstep _]; [lia|].
    by destruct (Hstep s1 Hs1).
Qed.



Lemma third_pass_step bones s0 k st :
  second_inv bones (length bones) s0 → third_inv s0 k st → k < length bones →
  (∀ st1, make_edit_bone k st = Ok st1 → third_inv s0 (S k) st1 ∧ parent_not_later bones k) ∧
  (parent_not_later bones k → is_Ok (make_edit_bone k st)).
Proof.
  intros (Hlen0 & Hbones & Hlaw) (Hebs & Hlen & Hrel) Hk.
  destruct st as [s ebs]. simpl in *.
  destruct (lookup_lt_is_Some_2 s k) as [ib Hib]; [lia|].
  destruct (Hrel k ib Hib) as (ib0 & Hib0 & Hpsk & Hpar & Hrest).
  destruct (Hbones k ib0 Hib0) as (bone & Hbone & Hpsk0 & _ & _ & Hnone).
  unfold make_edit_bone. rewrite (get_Ok _ _ _ Hib). simpl.
  destruct (is_root k (clamped bone)) eqn:Hroot.
  - (* the root: its rotation is conjugated in place *)
    rewrite Hpar, Hnone by by left. simpl.
    erewrite get_Ok by (rewrite list_lookup_alter_eq, Hib; reflexivity). simpl.
    split; [|by eexists]. intros st1 [= <-]. split.
    + split; [simpl; rewrite length_app; simpl; lia|].
      split; [simpl; by rewrite length_alter|]. simpl.
      intros j ib' Hj. destruct (decide (j = k)) as [->|Hne].
      * rewrite list_lookup_alter_eq, Hib in Hj. injection Hj as <-.
        exists ib0. split; [done|]. simpl. destruct Hrest as (? & ? & ? & _).
        repeat split; try done. rewrite Hnone by by left. by intros [? ?].
      * rewrite list_lookup_alter_ne in Hj by done. by apply Hrel.
    + intros bone' Hb' Hr. congruence.
  - destruct (Hlaw k ib0) as [Hp _]; [lia|done|congruence|].
    rewrite Hpar, Hp. rewrite Hpsk, Hpsk0.
    set (p := Z.to_nat (parent_index (clamped bone))).
    destruct (decide (p ≤ k)) as [Hle|Hgt].
    + destruct (lookup_lt_is_Some_2 (ebs ++ [mkEditBone (name (clamped bone)) None
                  mat4_identity quat_identity vec_zero quat_identity]) p) as [eb Heb].
      { rewrite length_app. simpl. lia. }
      rewrite (get_Ok _ _ _ Heb). simpl. rewrite (get_Ok _ _ _ Hib). simpl.
      split; [|by eexists]. intros st1 [= <-]. split.
      * split; [simpl; rewrite length_app; simpl; lia|]. by split.
      * intros bone' Hb' Hr. assert (bone' = bone) as -> by congruence. done.
    + rewrite get_Raise.
      2:{ apply lookup_ge_None_2. rewrite length_app. simpl. lia. }
      simpl. split; [done|]. intros Hnl. specialize (Hnl bone Hbone Hroot).
      fold p in Hnl. lia.
Qed.

Lemma third_inv_init s0 : third_inv s0 0 (s0, []).
Proof.
  split; [done|]. split; [done|]. simpl. intros j ib Hj. exists ib. by repeat split.
Qed.

(** What a returned skeleton satisfies. *)
Lemma build_skeleton_Ok bones s ebs :
  build_skeleton bones = Ok (s, ebs) →
  ∃ s0, second_inv bones (length bones) s0 ∧ third_inv s0 (length bones) (s, ebs) ∧
    ∀ j, j < length bones → parent_not_later bones j.
Proof.
  unfold build_skeleton. intros E. apply bind_Ok in E as (s0 & E2 & E3).
  apply second_pass_Ok in E2 as [Hinv _]. exists s0. split; [done|].
  assert (length s0 = length bones) as Hlen by apply Hinv.
  unfold for_range in E3. rewrite Hlen in E3.
  apply (for_range_from_elim (third_inv s0) (parent_not_later bones)) in E3.
  - destruct E3 as [? HR]. split; [done|]. intros j Hj. apply HR. lia.
  - apply third_inv_init.
  - intros i st st1 Hi Hst Est.
    destruct (third_pass_step bones s0 i st Hinv Hst) as [Hstep _]; [lia|].
    by destruct (Hstep st1 Est).
Qed.



End skeleton_facts.

Section skeleton_claims.
Context `{Mathutils}.
Import Psk.



(** C3 (amended): in a skeleton that was built, every bone that is not the
    root and whose parent index is not its own index has its parent resolved
    to an earlier bone of the list, and its world transform satisfies the
    hierarchy composition law against that parent:
    [world_rotation[b] = conjugate(local_rotation[b]) o world_rotation[parent]]
    and [world_translation[b] = world_translation[parent]
         + rotate(local_translation[b], world_rotation[parent])]. *)
Theorem C3_composition_law bones s ebs b ib :
  build_skeleton bones = Ok (s, ebs) →
  s !! b = Some ib →
  is_root b (psk_bone ib) = false →
  Z.to_nat (parent_index (psk_bone ib)) ≠ b →
  ∃ par, parent ib = Some (Z.to_nat (parent_index (psk_bone ib))) ∧
    Z.to_nat (parent_index (psk_bone ib)) < b ∧
    s !! Z.to_nat (parent_index (psk_bone ib)) = Some par ∧
    composition_law ib par.
Proof.
  intros E Hb Hroot Hself.
  destruct (build_skeleton_Ok bones s ebs E) as (s0 & Hinv & (_ & Hlen & Hrel) & Hnl).
  destruct Hinv as (Hlen0 & Hbones & Hlaw). simpl in *.
  destruct (Hrel b ib Hb) as (ib0 & Hb0 & Hpsk & Hpar & Hloc & Hwr & Hwm & Hrot).
  rewrite Hpsk in *. set (p := Z.to_nat (parent_index (psk_bone ib0))) in *.
  destruct (Hbones b ib0 Hb0) as (bone & Hbone & Hpsk0 & _).
  assert (b < length bones) as Hlt by (by apply lookup_lt_Some in Hbone).
  destruct (Hlaw b ib0) as [Hp Hcomp]; [lia|done..|]. fold p in Hp, Hcomp.
  assert (p < b) as Hpb.
  { specialize (Hnl b Hlt bone Hbone). rewrite <-Hpsk0 in Hnl.
    specialize (Hnl Hroot). fold p in Hnl. lia. }
  destruct (lookup_lt_is_Some_2 s p) as [par Hpar']; [lia|].
  destruct (Hrel p par Hpar') as (par0 & Hpar0 & _ & _ & _ & Hwr' & Hwm' & _).
  exists par. split; [congruence|]. split; [done|]. split; [done|].
  destruct (Hcomp par0 Hpb Hpar0) as [Hc1 Hc2].
  unfold composition_law. rewrite Hwr, Hwm, Hloc, Hwr', Hwm', Hrot; [done|].
  by rewrite Hp.
Qed.


End skeleton_claims.

Section skeleton_examples.
Import Psk PskExamples.
#[local] Existing Instance Exact.mathutils.

Lemma C3_composition_law_witness :
  ∃ s ebs ib, build_skeleton chain = Ok (s, ebs) ∧ s !! 1%nat = Some ib ∧
    ∃ par, parent ib = Some (Z.to_nat (parent_index (psk_bone ib))) ∧
      Z.to_nat (parent_index (psk_bone ib)) < 1 ∧
      s !! Z.to_nat (parent_index (psk_bone ib)) = Some par ∧
      composition_law ib par.
Proof.
  eexists _, _, _. split; [reflexivity|]. split; [reflexivity|].
  eapply (C3_composition_law chain _ _ 1%nat).
  - reflexivity.
  - reflexivity.
  - reflexivity.
  - simpl. lia.
Defined.

(** C3 as stated fails on a bone that names itself as its parent: the build
    returns, the bone is not the root, its parent reference is resolved (to
    itself), and its world translation is not the parent's world translation
    plus its rotated local translation. *)
Lemma C3_counterexample :
  ∃ s ebs ib par, build_skeleton self_parent = Ok (s, ebs) ∧
    s !! 1%nat = Some ib ∧ is_root 1 (psk_bone ib) = false ∧
    parent ib = Some 1%nat ∧ s !! 1%nat = Some par ∧
    ¬ composition_law ib par.
Proof.
  eexists _, _, _, _. split; [reflexivity|].
  split; [reflexivity|]. split; [reflexivity|]. split; [reflexivity|].
  split; [reflexivity|].
  intros [_ Ht]. cbv in Ht. discriminate.
Qed.


Example build_forward_parent_chain :
  build_skeleton forward_parent_chain = Raise IndexError.
Proof. reflexivity. Qed.

End skeleton_examples.

(** ** More on loops *)

Lemma for_enumerate_from_inv {A St} (P : nat → St → Prop) (l : list A) body :
  ∀ start (s : St),
  P 0 s →
  (∀ i x s, l !! i = Some x → P i s → ∃ s1, body (start + i) x s = Ok s1 ∧ P (S i) s1) →
  ∃ s', for_enumerate_from start l body s = Ok s' ∧ P (length l) s'.
Proof.
  revert P. induction l as [|x l IH]; intros P start s HP Hstep; simpl.
  - by exists s.
  - destruct (Hstep 0 x s) as (s1 & E & HP1); [done..|].
    rewrite Nat.add_0_r in E. rewrite E. simpl.
    apply (IH (λ i, P (S i))); [done|].
    intros i y s2 Hi HP2. replace (S start + i) with (start + S i) by lia.
    by apply Hstep.
Qed.

Lemma mapM_Ok {A B} (f : A → result B) (g : A → B) (l : list A) :
  (∀ x, x ∈ l → f x = Ok (g x)) → mapM f l = Ok (g <$> l).
Proof.
  induction l as [|x l IH]; intros Hf; simpl; [done|].
  rewrite Hf by left. simpl. rewrite IH; [done|].
  intros y Hy. apply Hf. by right.
Qed.

(** ** The mesh assembler *)

Section mesh_facts.
Import Mesh MeshSpec.

Lemma ifilter_app {A} (P : nat → A → bool) (l1 l2 : list A) start :
  ifilter P start (l1 ++ l2) = ifilter P start l1 ++ ifilter P (start + length l1) l2.
Proof.
  revert start. induction l1 as [|x l1 IH]; intros start; simpl.
  - by rewrite Nat.add_0_r.
  - rewrite IH, <-app_assoc. by replace (S start + length l1) with (start + S (length l1)) by lia.
Qed.

Lemma ifilter_snoc {A} (P : nat → A → bool) (l : list A) x :
  ifilter P 0 (l ++ [x]) = ifilter P 0 l ++ (if P (length l) x then [(length l, x)] else []).
Proof. rewrite ifilter_app. simpl. by rewrite app_nil_r. Qed.

Lemma elem_of_ifilter {A} (P : nat → A → bool) (l : list A) start i x :
  (i, x) ∈ ifilter P start l ↔ ∃ j, i = start + j ∧ l !! j = Some x ∧ P i x = true.
Proof.
  revert start. induction l as [|y l IH]; intros start; simpl.
  - split; [by intros ?%elem_of_nil|]. by intros (j & _ & ? & _).
  - rewrite elem_of_app, IH. split.
    + intros [Hin|(j & -> & Hj & HP)].
      * destruct (P start y) eqn:E; [|by apply elem_of_nil in Hin].
        apply list_elem_of_singleton in Hin. injection Hin as -> ->.
        exists 0. by rewrite Nat.add_0_r.
      * exists (S j). split; [lia|]. split; [done|].
        by replace (start + S j) with (S start + j) by lia.
    + intros ([|j] & -> & Hj & HP); simpl in Hj.
      * injection Hj as ->. left. rewrite Nat.add_0_r in *. rewrite HP.
        by apply list_elem_of_singleton.
      * right. exists j. split; [lia|]. split; [done|].
        by replace (S start + j) with (start + S j) by lia.
Qed.

Lemma NoDup_fst_ifilter {A} (P : nat → A → bool) (l : list A) start :
  NoDup (ifilter P start l).*1.
Proof.
  revert start. induction l as [|y l IH]; intros start; simpl; [constructor|].
  rewrite fmap_app. apply NoDup_app. split; [|split; [|apply IH]].
  - destruct (P start y); simpl; [apply NoDup_singleton|constructor].
  - intros i Hi Hin. apply list_elem_of_fmap in Hin as ([i' x] & -> & Hin).
    apply elem_of_ifilter in Hin as (j & Hj & _). simpl in *.
    destruct (P start y); simpl in Hi; [|by apply elem_of_nil in Hi].
    apply list_elem_of_singleton in Hi. lia.
Qed.

Lemma size_list_to_set_le (l : list nat) : size (list_to_set l : gset nat) ≤ length l.
Proof.
  induction l as [|x l IH]; [by rewrite list_to_set_nil, size_empty|].
  rewrite list_to_set_cons. simpl.
  destruct (decide (x ∈ l)) as [Hin|Hnin].
  - assert ({[x]} ∪ list_to_set l = (list_to_set l : gset nat)) as -> by set_solver.
    lia.
  - rewrite size_union, size_singleton by set_solver. lia.
Qed.

Lemma NoDup_size (l : list nat) : NoDup l ↔ size (list_to_set l : gset nat) = length l.
Proof.
  split; [apply size_list_to_set|].
  induction l as [|x l IH]; [constructor|]. rewrite list_to_set_cons. simpl. intros Hsize.
  destruct (decide (x ∈ l)) as [Hin|Hnin].
  - pose proof (size_list_to_set_le l).
    assert ({[x]} ∪ list_to_set l = (list_to_set l : gset nat)) as Heq by set_solver.
    rewrite Heq in Hsize. lia.
  - constructor; [done|]. apply IH.
    rewrite size_union, size_singleton in Hsize by set_solver. lia.
Qed.

Lemma length_face_verts psk face : length (face_verts psk face) = 3.
Proof. unfold face_verts, reversed. rewrite length_fmap. by destruct (wedge_indices face) as [[? ?] ?]. Qed.

Lemma is_degenerate_NoDup psk face :
  is_degenerate psk face = negb (bool_decide (NoDup (face_verts psk face))).
Proof.
  unfold is_degenerate, distinct_vertices.
  pose proof (size_list_to_set_le (face_verts psk face)) as Hle.
  pose proof (NoDup_size (face_verts psk face)) as Hnd.
  rewrite length_face_verts in *.
  destruct (bool_decide_reflect (NoDup (face_verts psk face))); simpl.
  - apply bool_decide_eq_false. apply Hnd in n. lia.
  - apply bool_decide_eq_true. destruct (decide (size (list_to_set (face_verts psk face) : gset nat) = 3)); [|lia].
    tauto.
Qed.

End mesh_facts.

Section face_loop.
Import Mesh MeshSpec.
Variable psk : Psk.
Hypothesis Hwf : well_formed psk.

Lemma face_point_indices_Ok k face :
  faces psk !! k = Some face → face_point_indices psk face = Ok (face_verts psk face).
Proof using Hwf.
  intros Hface. unfold face_point_indices, face_verts. apply mapM_Ok.
  intros i Hi. destruct Hwf as [Hw Hp].
  destruct (lookup_lt_is_Some_2 (wedges psk) i) as [w Ei]; [by eapply Hw|].
  destruct (lookup_lt_is_Some_2 (points psk) (point_index w)) as [pt Ept]; [by eapply Hp|].
  rewrite (get_Ok _ _ _ Ei). simpl. rewrite (get_Ok _ _ _ Ept). simpl.
  unfold wedge_point. by rewrite Ei.
Qed.

Lemma same_verts_trans a b c :
  same_verts a b = true → same_verts b c = true → same_verts a c = true.
Proof.
  unfold same_verts. rewrite !bool_decide_eq_true. congruence.
Qed.

Lemma take_snoc k face :
  faces psk !! k = Some face →
  take (S k) (faces psk) = take k (faces psk) ++ [face] ∧ length (take k (faces psk)) = k.
Proof.
  intros Hk. split; [by apply take_S_r|].
  apply length_take_le. apply lookup_lt_Some in Hk. lia.
Qed.

Lemma accepted_snoc k face :
  faces psk !! k = Some face →
  accepted psk (S k) = accepted psk k ++ (if kept psk k face then [bm_face_of psk face] else []).
Proof.
  intros Hk. unfold accepted. destruct (take_snoc k face Hk) as [-> Hlen].
  rewrite ifilter_snoc, Hlen, !fmap_app. by destruct (kept psk k face).
Qed.

Lemma rejected_snoc k face :
  faces psk !! k = Some face →
  rejected psk (S k) = (if discarded psk k face then {[k]} ∪ rejected psk k else rejected psk k).
Proof.
  intros Hk. unfold rejected. destruct (take_snoc k face Hk) as [-> Hlen].
  rewrite ifilter_snoc, Hlen, fmap_app, list_to_set_app_L.
  clear Hwf. destruct (discarded psk k face); simpl; set_solver.
Qed.

(** A face on the vertices [verts] was accepted exactly when an earlier face
    that is not degenerate is on these vertices. *)
Lemma existsb_accepted k verts :
  existsb (λ f, same_verts (bm_verts f) verts) (accepted psk k) =
  existsb (λ face', negb (is_degenerate psk face') &&
                    same_verts (face_verts psk face') verts) (take k (faces psk)).
Proof.
  induction k as [|k IH]; [done|].
  destruct (faces psk !! k) as [face|] eqn:Hk.
  2:{ apply lookup_ge_None_1 in Hk. unfold accepted in *.
      rewrite !take_ge in * by lia. done. }
  rewrite (accepted_snoc k face Hk). destruct (take_snoc k face Hk) as [-> _].
  rewrite !existsb_app, IH. simpl.
  unfold kept, discarded. destruct (is_degenerate psk face) eqn:Hdeg; simpl; [done|].
  destruct (repeats_earlier psk k face) eqn:Hrep; simpl; [|done].
  rewrite !orb_false_r.
  destruct (same_verts (face_verts psk face) verts) eqn:Hsame; [|by rewrite orb_false_r].
  rewrite orb_true_r. unfold repeats_earlier in Hrep.
  apply existsb_exists in Hrep as (face' & Hin & [Hnd Hs]%andb_prop).
  apply existsb_exists. exists face'. split; [done|].
  rewrite Hnd. simpl. by eapply same_verts_trans.
Qed.

Lemma add_face_step k face :
  faces psk !! k = Some face →
  add_face psk k face (accepted psk k, rejected psk k) = Ok (accepted psk (S k), rejected psk (S k)).
Proof using Hwf.
  intros Hk. unfold add_face. rewrite (face_point_indices_Ok k face Hk). simpl.
  rewrite (accepted_snoc k face Hk), (rejected_snoc k face Hk).
  unfold faces_new. rewrite existsb_accepted.
  fold (repeats_earlier psk k face).
  unfold kept, discarded. rewrite is_degenerate_NoDup.
  destruct (bool_decide (NoDup (face_verts psk face))); simpl.
  2:{ by rewrite app_nil_r. }
  destruct (repeats_earlier psk k face); simpl; [by rewrite app_nil_r|done].
Qed.

Lemma build_faces_Ok :
  build_faces psk = Ok (accepted psk (length (faces psk)), rejected psk (length (faces psk))).
Proof using Hwf.
  unfold build_faces, for_enumerate.
  destruct (for_enumerate_from_inv (λ k st, st = (accepted psk k, rejected psk k))
              (faces psk) (add_face psk) 0 ([], ∅)) as (st & E & ->); [done| |done].
  intros i face st Hi ->. eexists. split; [|done]. by apply add_face_step.
Qed.

End face_loop.

Section uv_layers.
Import Mesh MeshSpec.

(** Writing the entries of [xs] one after the other fills the layer from
    [data_index] on. *)
Lemma write_uvs {A} (f : A → result (Q * Q)) (g : A → Q * Q) (xs : list A) :
  ∀ start pre m,
  (∀ x, x ∈ xs → f x = Ok (g x)) → length xs ≤ m →
  for_enumerate_from start xs (λ _ x st, uv ← f x; write_uv uv st)
      (length pre, pre ++ replicate m (0%Q, 0%Q)) =
    Ok (length pre + length xs,
        pre ++ (flip_v ∘ g <$> xs) ++ replicate (m - length xs) (0%Q, 0%Q)).
Proof.
  induction xs as [|x xs IH]; intros start pre m Hf Hm; simpl.
  - by rewrite Nat.add_0_r, Nat.sub_0_r.
  - rewrite Hf by left. simpl in *. destruct m as [|m]; [lia|]. simpl.
    unfold put. rewrite lookup_app_r, Nat.sub_diag by lia. simpl.
    rewrite insert_app_r_alt, Nat.sub_diag by lia. simpl.
    specialize (IH (S start) (pre ++ [flip_v (g x)]) m).
    rewrite length_app in IH. simpl in IH.
    replace (S (length pre)) with (length pre + 1) by lia.
    rewrite <-!app_assoc in IH. simpl in IH. unfold flip_v in IH at 1.
    rewrite IH; [|intros y Hy; apply Hf; by right|lia].
    f_equal. f_equal. lia.
Qed.

Context (deg : gset nat) (body : nat → Face → nat * list (Q * Q) → result (nat * list (Q * Q)))
  (vals : Face → list (Q * Q)) (ok : Face → Prop).
Hypothesis body_skip : ∀ i face st, i ∈ deg → body i face st = Ok st.
Hypothesis body_write : ∀ i face pre m, ok face → i ∉ deg → length (vals face) ≤ m →
  body i face (length pre, pre ++ replicate m (0%Q, 0%Q)) =
    Ok (length pre + length (vals face),
        pre ++ vals face ++ replicate (m - length (vals face)) (0%Q, 0%Q)).

Let outside (start : nat) (l : list Face) : list (nat * Face) :=
  ifilter (λ k _, bool_decide (k ∉ deg)) start l.

(** The faces outside [deg] fill the layer, face after face. *)
Lemma fill_layer l : ∀ start pre m,
  (∀ face, face ∈ l → ok face) →
  length (outside start l ≫= vals ∘ snd) ≤ m →
  for_enumerate_from start l body (length pre, pre ++ replicate m (0%Q, 0%Q)) =
    Ok (length pre + length (outside start l ≫= vals ∘ snd),
        pre ++ (outside start l ≫= vals ∘ snd) ++
          replicate (m - length (outside start l ≫= vals ∘ snd)) (0%Q, 0%Q)).
Proof using body_skip body_write.
  induction l as [|face l IH]; intros start pre m Hok Hm.
  - simpl. by rewrite Nat.add_0_r, Nat.sub_0_r.
  - assert (outside start (face :: l) ≫= vals ∘ snd =
            (if bool_decide (start ∉ deg) then vals face else []) ++
            (outside (S start) l ≫= vals ∘ snd)) as Hcons.
    { unfold outside. simpl. rewrite bind_app.
      destruct (bool_decide (start ∉ deg)); simpl; [by rewrite app_nil_r|done]. }
    rewrite Hcons in *. clear Hcons. unfold outside in *. simpl.
    destruct (bool_decide_reflect (start ∉ deg)) as [Hout|Hin].
    + rewrite length_app in Hm.
      rewrite body_write; [|apply Hok; by left|done|lia]. simpl.
      specialize (IH (S start) (pre ++ vals face) (m - length (vals face))).
      rewrite length_app, <-!app_assoc in IH.
      rewrite IH; [|intros f Hf; apply Hok; by right|lia].
      rewrite length_app, <-!app_assoc. f_equal. f_equal; [lia|]. do 4 f_equal. lia.
    + rewrite body_skip by (by destruct (decide (start ∈ deg))). simpl.
      apply IH; [intros f Hf; apply Hok; by right|done].
Qed.

Lemma fill_layer_nil l n :
  (∀ face, face ∈ l → ok face) →
  n = length (outside 0 l ≫= vals ∘ snd) →
  for_enumerate_from 0 l body (0, replicate n (0%Q, 0%Q)) =
    Ok (n, outside 0 l ≫= vals ∘ snd).
Proof using body_skip body_write.
  intros Hok ->. pose proof (fill_layer l 0 [] _ Hok (le_n _)) as E.
  rewrite Nat.sub_diag in E. simpl in E. by rewrite app_nil_r in E.
Qed.

End uv_layers.

Section mesh_streams.
Import Mesh MeshSpec.
Variable psk : Psk.

Lemma ifilter_ext {A} (P R : nat → A → bool) (l : list A) start :
  (∀ j x, l !! j = Some x → P (start + j) x = R (start + j) x) →
  ifilter P start l = ifilter R start l.
Proof.
  revert start. induction l as [|x l IH]; intros start HPR; simpl; [done|].
  rewrite <-(Nat.add_0_r start) at 1 3. rewrite (HPR 0 x) by done.
  rewrite Nat.add_0_r. f_equal. apply IH. intros j y Hj.
  replace (S start + j) with (start + S j) by lia. by apply HPR.
Qed.

Lemma length_bind_const {A B} (f : A → list B) (l : list A) c :
  (∀ x, x ∈ l → length (f x) = c) → length (l ≫= f) = c * length l.
Proof.
  induction l as [|x l IH]; intros Hf; [simpl; lia|].
  rewrite bind_cons, length_app, Hf by left. rewrite IH; [simpl; lia|].
  intros y Hy. apply Hf. by right.
Qed.

Lemma length_face_uvs face : length (face_uvs psk face) = 3.
Proof. unfold face_uvs, reversed. rewrite length_fmap. by destruct (wedge_indices face) as [[? ?] ?]. Qed.


Lemma length_reversed face : length (reversed face) = 3.
Proof. unfold reversed. by destruct (wedge_indices face) as [[? ?] ?]. Qed.

(** The TEXTURE COORDINATES loop fills the layer with the UVs of the faces
    outside [deg], when the layer has one entry per corner of these faces. *)
Lemma texture_coordinates_Ok (deg : gset nat) (loops : list nat) :
  well_formed psk →
  length loops = length (faces_outside psk deg ≫= face_uvs psk ∘ snd) →
  texture_coordinates psk deg loops = Ok (faces_outside psk deg ≫= face_uvs psk ∘ snd).
Proof.
  intros [Hw _] Hlen. unfold texture_coordinates, for_enumerate, new_uv_layer.
  rewrite (fill_layer_nil deg _ (face_uvs psk)
             (λ face, ∀ i, i ∈ reversed face → i < length (wedges psk))); [done| | | |done].
  - intros i face st Hi. by rewrite bool_decide_eq_true_2.
  - intros i face pre m Hok Hi Hm. rewrite bool_decide_eq_false_2 by done.
    rewrite (mapM_Ok _ (λ i, default (mkWedge 0 0 0) (wedges psk !! i))).
    2:{ intros j Hj. destruct (lookup_lt_is_Some_2 (wedges psk) j) as [w Ej]; [by apply Hok|].
        rewrite (get_Ok _ _ _ Ej). by rewrite Ej. }
    simpl. unfold for_each, for_enumerate.
    rewrite length_face_uvs in *.
    rewrite (write_uvs (λ w, Ok (u w, v w)) (λ w, (u w, v w))); [|done|].
    2:{ by rewrite length_fmap, length_reversed. }
    rewrite length_fmap, length_reversed. do 4 f_equal.
    unfold face_uvs. rewrite <-list_fmap_compose. apply list_fmap_ext.
    intros n j Hj. simpl.
    destruct (lookup_lt_is_Some_2 (wedges psk) j) as [w Ej].
    { apply Hok. by eapply list_elem_of_lookup_2. }
    by rewrite Ej.
  - intros face [k Hk]%list_elem_of_lookup i Hi. by eapply Hw.
Qed.


End mesh_streams.

Section mesh_assembly.
Import Mesh MeshSpec.
Variable psk : Psk.
Hypothesis Hwf : well_formed psk.

Lemma build_faces_spec :
  build_faces psk =
    Ok (bm_face_of psk <$> (kept_faces psk).*2, list_to_set (discarded_faces psk).*1).
Proof using Hwf.
  rewrite (build_faces_Ok psk Hwf). unfold accepted, rejected, kept_faces, discarded_faces.
  by rewrite take_ge by lia.
Qed.

Lemma elem_of_discarded k :
  k ∈ (list_to_set (discarded_faces psk).*1 : gset nat) ↔
  ∃ face, faces psk !! k = Some face ∧ discarded psk k face = true.
Proof.
  rewrite elem_of_list_to_set, list_elem_of_fmap. unfold discarded_faces. split.
  - intros ([k' face] & -> & (j & -> & Hj & Hd)%elem_of_ifilter). simpl in *. by exists face.
  - intros (face & Hk & Hd). exists (k, face). split; [done|].
    apply elem_of_ifilter. by exists k.
Qed.

Lemma faces_outside_discarded :
  faces_outside psk (list_to_set (discarded_faces psk).*1) = kept_faces psk.
Proof.
  unfold faces_outside, kept_faces. apply ifilter_ext. intros j face Hj. simpl.
  unfold kept. destruct (discarded psk j face) eqn:Hd; simpl.
  - apply bool_decide_eq_false. intros Hn. apply Hn, elem_of_discarded. by exists face.
  - apply bool_decide_eq_true. intros (face' & Hj' & Hd')%elem_of_discarded. congruence.
Qed.

Lemma mesh_loops_kept :
  mesh_loops (bm_face_of psk <$> (kept_faces psk).*2) = kept_faces psk ≫= face_verts psk ∘ snd.
Proof.
  unfold mesh_loops. induction (kept_faces psk) as [|[k face] l IH]; [done|].
  rewrite !fmap_cons, !bind_cons, IH. done.
Qed.

Lemma length_mesh_loops_kept :
  length (mesh_loops (bm_face_of psk <$> (kept_faces psk).*2)) = 3 * length (kept_faces psk).
Proof.
  rewrite mesh_loops_kept. apply length_bind_const. intros [k face] _. simpl.
  apply length_face_verts.
Qed.


End mesh_assembly.

Section vertex_color_facts.
Import Mesh MeshSpec.
Context {F : Type} `{EqDecision F}.
Variable one : F.
Variable normalized : Color → F * F * F * F.
Variable rgb_to_srgb : cell F → cell F.
Variable psk : Psk.

Lemma row_differs_row_of (c0 c : F * F * F * F) :
  row_differs (row_of c0) c = negb (bool_decide (c0 = c)).
Proof.
  destruct c0 as [[[a0 a1] a2] a3], c as [[[b0 b1] b2] b3]. simpl. f_equal.
  repeat case_bool_decide; simpl; congruence.
Qed.

Lemma row_of_inj (c0 c : F * F * F * F) : row_of c0 = row_of c → c0 = c.
Proof.
  destruct c0 as [[[a0 a1] a2] a3], c as [[[b0 b1] b2] b3]. simpl. congruence.
Qed.

Lemma row_of_not_inf (c : F * F * F * F) : row_of c ≠ (inf_row : Row).
Proof. by destruct c as [[[a0 a1] a2] a3]. Qed.

Lemma is_not_inf_row_of (c : F * F * F * F) : is_not_inf (row_of c).1.1.1 = true.
Proof. by destruct c as [[[a0 a1] a2] a3]. Qed.

(** Among the first [k] wedges, either none references [p] or one is the
    first to do so. *)
Lemma first_seen_dec k p :
  k ≤ length (wedges psk) →
  (∀ j w, j < k → wedges psk !! j = Some w → point_index w ≠ p) ∨
  (∃ i, i < k ∧ first_seen psk p i).
Proof.
  intros Hk.
  destruct (list_find (λ w, point_index w = p) (take k (wedges psk))) as [[i w]|] eqn:E.
  - apply list_find_Some in E as (Hi & Hp & Hfirst). right.
    assert (i < k) as Hik.
    { apply lookup_lt_Some in Hi. rewrite length_take in Hi. lia. }
    exists i. split; [done|]. rewrite lookup_take_lt in Hi by done. split; [by exists w|].
    intros j w' Hj Hw'. apply (Hfirst j w'); [|done].
    rewrite lookup_take_lt; [done|lia].
  - apply list_find_None in E. left. intros j w Hj Hw.
    rewrite Forall_forall in E. apply E.
    apply list_elem_of_lookup. exists j. by rewrite lookup_take_lt.
Qed.

Lemma first_seen_unique p i j : first_seen psk p i → first_seen psk p j → i = j.
Proof.
  intros [(w & Hw & Hp) Hi] [(w' & Hw' & Hp') Hj].
  destruct (Nat.lt_total i j) as [Hlt|[->|Hlt]]; [|done|].
  - by destruct (Hj i w Hlt Hw).
  - by destruct (Hi j w' Hlt Hw').
Qed.

Hypothesis Hcolors : length (wedges psk) ≤ length (vertex_colors psk).
Hypothesis Hpoints : ∀ i w, wedges psk !! i = Some w → point_index w < length (points psk).

Lemma resolve_wedge_color_step k wedge st :
  wedges psk !! k = Some wedge → colors_inv normalized psk k st →
  ∃ st', resolve_wedge_color normalized psk k wedge st = Ok st' ∧ colors_inv normalized psk (S k) st'.
Proof using Hcolors Hpoints.
  intros Hk (Hlen & Hfirst & Hnone & Hamb). destruct st as [buffer amb]. simpl in *.
  pose proof (lookup_lt_Some _ _ _ Hk) as Hklt.
  destruct (lookup_lt_is_Some_2 (vertex_colors psk) k) as [c Hc]; [lia|].
  set (p := point_index wedge).
  assert (p < length (points psk)) as Hp by (by eapply Hpoints).
  destruct (lookup_lt_is_Some_2 buffer p) as [row Hrow]; [lia|].
  unfold resolve_wedge_color. rewrite (get_Ok _ _ _ Hc). simpl. fold p.
  rewrite (get_Ok _ _ _ Hrow). simpl.
  assert (point_index wedge = p) as Hpdef by done. clearbody p.
  destruct (first_seen_dec k p) as [Hno|(i0 & Hi0 & Hfs)]; [lia| |].
  - (* the first wedge on this vertex *)
    rewrite (Hnone p Hp Hno) in Hrow. injection Hrow as <-. simpl.
    unfold put. rewrite (Hnone p Hp Hno). simpl.
    eexists. split; [done|]. split; [|split; [|split]]; simpl.
    + by rewrite length_insert.
    + intros q i c' Hi Hq Hc'. destruct (decide (q = p)) as [->|Hne].
      * assert (i = k) as ->.
        { destruct (decide (i = k)) as [|Hik]; [done|].
          destruct Hq as [(w & Hw & Hwp) _]. destruct (Hno i w); [lia|done..]. }
        rewrite list_lookup_insert_eq by lia. congruence.
      * rewrite list_lookup_insert_ne by done.
        assert (i ≠ k) by (intros ->; destruct Hq as [(w & Hw & Hwp) _]; congruence).
        apply (Hfirst q i c'); [lia|done..].
    + intros q Hq Hnoq. assert (q ≠ p) as Hne by (intros ->; apply (Hnoq k wedge); [lia|done..]).
      rewrite list_lookup_insert_ne by done. apply Hnone; [done|].
      intros j w Hj. apply Hnoq. lia.
    + intros q. rewrite Hamb. split.
      * intros (i & w & c' & Hi & Hw & Hwq & Hc' & Hd).
        assert (q ≠ p) as Hne by (intros ->; by apply (Hno i w)).
        exists i, w, c'. rewrite list_lookup_insert_ne by done.
        repeat split; try done. lia.
      * intros (i & w & c' & Hi & Hw & Hwq & Hc' & Hd).
        destruct (decide (q = p)) as [->|Hne].
        { assert (i = k) as ->.
          { destruct (decide (i = k)) as [|Hik]; [done|]. destruct (Hno i w); [lia|done..]. }
          rewrite list_lookup_insert_eq in Hd by lia. congruence. }
        rewrite list_lookup_insert_ne in Hd by done.
        assert (i ≠ k) by (intros ->; congruence).
        exists i, w, c'. repeat split; try done. lia.
  - (* the vertex has the color of an earlier wedge *)
    destruct (lookup_lt_is_Some_2 (vertex_colors psk) i0) as [c0 Hc0]; [lia|].
    pose proof (Hfirst p i0 c0 Hi0 Hfs Hc0) as Hrow0.
    rewrite Hrow0 in Hrow. injection Hrow as <-.
    rewrite is_not_inf_row_of, row_differs_row_of. simpl.
    assert (∀ q i c', i < S k → first_seen psk q i → vertex_colors psk !! i = Some c' →
              buffer !! q = Some (row_of (normalized c'))) as Hfirst'.
    { intros q i c' Hi Hq Hc'. destruct (decide (i = k)) as [->|Hik].
      - pose proof Hq as [(w & Hw & Hwq) _].
        assert (q = p) as -> by congruence.
        pose proof (first_seen_unique _ _ _ Hq Hfs). lia.
      - apply (Hfirst q i c'); [lia|done..]. }
    assert (∀ q, q < length (points psk) →
              (∀ j w, j < S k → wedges psk !! j = Some w → point_index w ≠ q) →
              buffer !! q = Some inf_row) as Hnone'.
    { intros q Hq Hnoq. apply Hnone; [done|]. intros j w Hj. apply Hnoq. lia. }
    case_bool_decide as Hsame; simpl.
    + (* the same color: it is stored again *)
      unfold put. rewrite Hrow0. simpl. rewrite <-Hsame, list_insert_id by done.
      eexists. split; [done|]. split; [done|]. split; [done|]. split; [done|]. simpl.
      intros q. rewrite Hamb. split.
      * intros (i & w & c' & Hi & Hrest). exists i, w, c'. split; [lia|done].
      * intros (i & w & c' & Hi & Hw & Hwq & Hc' & Hd).
        destruct (decide (i = k)) as [->|Hik].
        { assert (q = p) as -> by congruence. congruence. }
        exists i, w, c'. repeat split; try done. lia.
    + (* another color: the vertex is ambiguous *)
      eexists. split; [done|]. split; [done|]. split; [done|]. split; [done|]. simpl.
      intros q. rewrite elem_of_app, list_elem_of_singleton, Hamb. split.
      * intros [(i & w & c' & Hi & Hrest)| ->].
        { exists i, w, c'. split; [lia|done]. }
        exists k, wedge, c. repeat split; try done; [lia|].
        rewrite Hrow0. intros [= Heq%row_of_inj]. done.
      * intros (i & w & c' & Hi & Hw & Hwq & Hc' & Hd).
        destruct (decide (i = k)) as [->|Hik].
        { right. congruence. }
        left. exists i, w, c'. repeat split; try done. lia.
Qed.

Lemma colors_inv_init : colors_inv normalized psk 0 (replicate (length (points psk)) inf_row, []).
Proof.
  clear Hcolors Hpoints.
  split; [simpl; by rewrite length_replicate|]. split; [intros; lia|]. split.
  - intros p Hp _. simpl. by apply lookup_replicate_2.
  - intros p. simpl. split; [by intros ?%elem_of_nil|]. intros (i & _ & _ & ? & _). lia.
Qed.

Lemma resolve_colors_Ok :
  ∃ st, resolve_colors normalized psk = Ok st ∧ colors_inv normalized psk (length (wedges psk)) st.
Proof using Hcolors Hpoints.
  unfold resolve_colors, for_enumerate.
  apply (for_enumerate_from_inv (colors_inv normalized psk)); [apply colors_inv_init|].
  intros i w st Hi Hinv. by apply resolve_wedge_color_step.
Qed.

(** The loop over the loops of the mesh never takes the [else] branch, and
    gives every loop the row of its vertex. *)
Lemma color_loops_Ok (buffer : list (@Row F)) (loops : list nat) :
  (∀ l v, loops !! l = Some v → v < length buffer) →
  ∃ data, for_enumerate loops (color_loop one buffer) (replicate (length loops) (white one), 0)
            = Ok (data, 0) ∧
    length data = length loops ∧
    ∀ l v, loops !! l = Some v → data !! l = buffer !! v.
Proof.
  clear Hcolors Hpoints. intros Hloops. unfold for_enumerate.
  destruct (for_enumerate_from_inv
    (λ k (st : list (@Row F) * nat), st.2 = 0 ∧ length st.1 = length loops ∧
       ∀ l v, l < k → loops !! l = Some v → st.1 !! l = buffer !! v)
    loops (color_loop one buffer) 0 (replicate (length loops) (white one), 0))
    as ([data fb] & E & Hfb & Hlen & Hdata).
  - split; [done|]. split; [simpl; by rewrite length_replicate|]. intros; lia.
  - intros k v [data fb] Hk (Hfb & Hlen & Hdata). simpl in *. subst fb.
    destruct (lookup_lt_is_Some_2 buffer v) as [row Hrow]; [by eapply Hloops|].
    unfold color_loop. rewrite (get_Ok _ _ _ Hrow). simpl.
    destruct (lookup_lt_is_Some_2 data k) as [old Hold].
    { rewrite Hlen. by eapply lookup_lt_Some. }
    unfold put. rewrite Hold. simpl. eexists. split; [done|]. simpl.
    split; [done|]. split; [by rewrite length_insert|].
    intros l v' Hl Hv'. destruct (decide (l = k)) as [->|Hne].
    + rewrite list_lookup_insert_eq by (by eapply lookup_lt_Some). congruence.
    + rewrite list_lookup_insert_ne by done. apply Hdata; [lia|done].
  - simpl in *. subst fb. exists data. split; [done|]. split; [done|].
    intros l v Hl. apply Hdata; [|done]. by eapply lookup_lt_Some.
Qed.

End vertex_color_facts.

Lemma for_enumerate_from_preserve {A St} (P : St → Prop) (l : list A) body :
  ∀ start (s s' : St),
  (∀ i x s s1, body i x s = Ok s1 → P s → P s1) →
  P s → for_enumerate_from start l body s = Ok s' → P s'.
Proof.
  induction l as [|x l IH]; intros start s s' Hbody HP E; simpl in E.
  - by injection E as <-.
  - apply bind_Ok in E as (s1 & E1 & E2). eapply IH; [done| |done]. by eapply Hbody.
Qed.

Section mesh_claims.
Import Mesh MeshSpec.

(** C5 (amended): a face is recorded in [degenerate_face_indices] exactly
    when the BMesh rejects it: when its three wedges resolve to fewer than
    three distinct vertices, or to the three vertices of an earlier face that
    is not degenerate.  The recorded faces are left out of the faces of the
    mesh, of its loops (which carry the colors) and of the UV layer, and
    the reported count is the number of recorded faces. *)
Theorem C5_discarded_faces (psk : Psk) :
  well_formed psk →
  ∃ bm deg uv,
    build_faces psk = Ok (bm, deg) ∧
    texture_coordinates psk deg (mesh_loops bm) = Ok uv ∧
    (∀ k face, faces psk !! k = Some face → k ∈ deg ↔ discarded psk k face = true) ∧
    (∀ k face, faces psk !! k = Some face → is_degenerate psk face = true → k ∈ deg) ∧
    size deg = length (discarded_faces psk) ∧
    bm = bm_face_of psk <$> (kept_faces psk).*2 ∧
    mesh_loops bm = kept_faces psk ≫= face_verts psk ∘ snd ∧
    uv = kept_faces psk ≫= face_uvs psk ∘ snd.
Proof.
  intros Hwf. eexists _, _, (kept_faces psk ≫= face_uvs psk ∘ snd).
  split; [by apply build_faces_spec|].
  assert (∀ k face, faces psk !! k = Some face →
            k ∈ (list_to_set (discarded_faces psk).*1 : gset nat) ↔
            discarded psk k face = true) as Hiff.
  { intros k face Hk. rewrite elem_of_discarded. split; [|by exists face].
    intros (face' & Hk' & Hd). congruence. }
  split; [|split; [done|]; split; [|split; [|split; [done|split; [|done]]]]].
  - rewrite texture_coordinates_Ok; [by rewrite faces_outside_discarded|done|].
    rewrite faces_outside_discarded, length_mesh_loops_kept. symmetry.
    apply length_bind_const. intros [k face] _. simpl. apply length_face_uvs.
  - intros k face Hk Hdeg. apply (Hiff k face Hk). unfold discarded. by rewrite Hdeg.
  - rewrite size_list_to_set by apply NoDup_fst_ifilter. by rewrite length_fmap.
  - apply mesh_loops_kept.
Qed.


Context {F : Type} `{EqDecision F}.
Variable one : F.
Variable normalized : Color → F * F * F * F.
Variable rgb_to_srgb : cell F → cell F.

Lemma import_vertex_colors_Ok psk options loops :
  has_vertex_colors psk = true → should_import_vertex_colors options = true →
  colors_well_formed psk loops →
  ∃ resolved amb data,
    import_vertex_colors one normalized rgb_to_srgb psk options loops =
      Ok (Some (mkVertexColors resolved (convert_color_space rgb_to_srgb options resolved)
                  data amb 0)) ∧
    colors_inv normalized psk (length (wedges psk)) (resolved, amb) ∧
    length data = length loops ∧
    ∀ l v, loops !! l = Some v →
      data !! l = convert_color_space rgb_to_srgb options resolved !! v.
Proof.
  intros Hhas Hopt (Hcolors & Hpoints & Hloops).
  unfold import_vertex_colors. rewrite Hhas, Hopt. simpl.
  destruct (resolve_colors_Ok normalized psk Hcolors Hpoints) as ([resolved amb] & -> & Hinv).
  simpl.
  destruct (color_loops_Ok one (convert_color_space rgb_to_srgb options resolved) loops)
    as (data & -> & Hlen & Hdata).
  { intros l v Hl. destruct Hinv as [Hn _]. simpl in Hn.
    unfold convert_color_space. destruct (vertex_color_space_is_srgba options);
      rewrite ?length_fmap, Hn; by eapply Hloops. }
  simpl. by exists resolved, amb, data.
Qed.


(** C10: no loop takes the branch that assigns opaque white, since the
    subscript of the color buffer is a row and never [None]; and a loop on a
    vertex that no wedge references is given the row of [inf] the buffer was
    filled with (when the colors are not converted, or [rgb_to_srgb] keeps
    [inf]). *)
Theorem C10_fallback_unreachable psk options loops :
  has_vertex_colors psk = true → should_import_vertex_colors options = true →
  colors_well_formed psk loops →
  ∃ vc,
    import_vertex_colors one normalized rgb_to_srgb psk options loops = Ok (Some vc) ∧
    vc_fallbacks vc = 0 ∧
    (∀ l v, loops !! l = Some v →
       ∃ row, vc_buffer vc !! v = Some row ∧ vc_data vc !! l = Some row) ∧
    (∀ l v, loops !! l = Some v → unreferenced psk v →
       vertex_color_space_is_srgba options = false ∨ rgb_to_srgb Inf = Inf →
       vc_data vc !! l = Some inf_row).
Proof.
  intros Hhas Hopt Hwf.
  destruct (import_vertex_colors_Ok psk options loops Hhas Hopt Hwf)
    as (resolved & amb & data & -> & (Hlen & Hfirst & Hnone & Hamb) & Hdlen & Hdata).
  destruct Hwf as (_ & _ & Hloops).
  eexists. split; [done|]. simpl in *. split; [done|]. split.
  - intros l v Hl. rewrite (Hdata l v Hl).
    destruct (lookup_lt_is_Some_2 (convert_color_space rgb_to_srgb options resolved) v)
      as [row Hrow]; [|by exists row].
    unfold convert_color_space. destruct (vertex_color_space_is_srgba options);
      rewrite ?length_fmap, Hlen; by eapply Hloops.
  - intros l v Hl Hun Hinf. rewrite (Hdata l v Hl).
    assert (resolved !! v = Some inf_row) as Hv.
    { apply Hnone; [by eapply Hloops|]. intros j w _. apply Hun. }
    unfold convert_color_space. destruct (vertex_color_space_is_srgba options); [|done].
    rewrite list_lookup_fmap, Hv. simpl. destruct Hinf as [|Hinf]; [done|].
    unfold inf_row. by rewrite !Hinf.
Qed.

End mesh_claims.

Section mesh_examples.
Import Mesh MeshSpec MeshExamples.

Lemma well_formedb_spec psk : well_formedb psk = true → well_formed psk.
Proof.
  unfold well_formedb. intros [Hf Hw]%andb_prop.
  rewrite forallb_forall in Hf, Hw. split.
  - intros k face i Hk Hi. apply list_elem_of_lookup_2, list_elem_of_In, Hf in Hk.
    rewrite forallb_forall in Hk. apply list_elem_of_In, Hk in Hi. by apply Nat.ltb_lt.
  - intros i w Hi. apply list_elem_of_lookup_2, list_elem_of_In, Hw in Hi. by apply Nat.ltb_lt.
Qed.

Lemma colors_well_formedb_spec psk loops :
  colors_well_formedb psk loops = true → colors_well_formed psk loops.
Proof.
  unfold colors_well_formedb. intros [[Hc Hw]%andb_prop Hl]%andb_prop.
  rewrite forallb_forall in Hw, Hl. split; [by apply Nat.leb_le|]. split.
  - intros i w Hi. apply list_elem_of_lookup_2, list_elem_of_In, Hw in Hi. by apply Nat.ltb_lt.
  - intros l v Hv. apply list_elem_of_lookup_2, list_elem_of_In, Hl in Hv. by apply Nat.ltb_lt.
Qed.

Example build_with_degenerate_face :
  build_faces with_degenerate_face = Ok ([mkBMFace [2; 1; 0] 0], {[1]}).
Proof. reflexivity. Qed.

Example uv_with_degenerate_face :
  texture_coordinates with_degenerate_face {[1]} [2; 1; 0] = Ok [(0, 1 - 1); (1, 1 - 0); (0, 1 - 0)]%Q.
Proof. reflexivity. Qed.

Lemma C5_discarded_faces_witness :
  ∃ bm deg uv,
    build_faces with_degenerate_face = Ok (bm, deg) ∧
    texture_coordinates with_degenerate_face deg (mesh_loops bm) = Ok uv ∧
    (∀ k face, faces with_degenerate_face !! k = Some face →
       k ∈ deg ↔ discarded with_degenerate_face k face = true) ∧
    (∀ k face, faces with_degenerate_face !! k = Some face →
       is_degenerate with_degenerate_face face = true → k ∈ deg) ∧
    size deg = length (discarded_faces with_degenerate_face) ∧
    bm = bm_face_of with_degenerate_face <$> (kept_faces with_degenerate_face).*2 ∧
    mesh_loops bm = kept_faces with_degenerate_face ≫= face_verts with_degenerate_face ∘ snd ∧
    uv = kept_faces with_degenerate_face ≫= face_uvs with_degenerate_face ∘ snd.
Proof. apply (C5_discarded_faces with_degenerate_face). by apply well_formedb_spec. Defined.

(** C5 as stated fails on a triangle that occurs twice: no face has fewer
    than three distinct vertices, and yet one face is recorded as degenerate
    and counted. *)
Lemma C5_counterexample :
  ∃ bm deg face,
    build_faces with_duplicate_face = Ok (bm, deg) ∧
    length (degenerate_faces with_duplicate_face) = 0 ∧
    size deg = 1 ∧
    faces with_duplicate_face !! 1 = Some face ∧
    distinct_vertices with_duplicate_face face = 3 ∧
    1 ∈ deg.
Proof.
  eexists _, _, _. split; [reflexivity|]. split; [reflexivity|]. split; [reflexivity|].
  split; [reflexivity|]. split; [reflexivity|]. set_solver.
Qed.


Example extra_uv_layers_with_degenerate_face :
  extra_uv_layers with_degenerate_face options_all {[1]} [2; 1; 0] =
    Ok [[(2, 1 - 2); (1, 1 - 1); (0, 1 - 0)]; [(6, 1 - 6); (5, 1 - 5); (4, 1 - 4)]]%Q.
Proof. reflexivity. Qed.


(** The first and the last wedge are on the vertex 0 with different colors:
    the vertex keeps the first color and is listed once. *)
Example colors_with_degenerate_face :
  import_vertex_colors 255%Z byte_normalized double_rgb with_degenerate_face options_all
    [2; 1; 0] =
  Ok (Some (mkVertexColors
    [(Fin 255, Fin 0, Fin 0, Fin 255); (Fin 0, Fin 255, Fin 0, Fin 255);
     (Fin 0, Fin 0, Fin 255, Fin 255)]%Z
    [(Fin 510, Fin 0, Fin 0, Fin 255); (Fin 0, Fin 510, Fin 0, Fin 255);
     (Fin 0, Fin 0, Fin 510, Fin 255)]%Z
    [(Fin 0, Fin 0, Fin 510, Fin 255); (Fin 0, Fin 510, Fin 0, Fin 255);
     (Fin 510, Fin 0, Fin 0, Fin 255)]%Z
    [0] 0)).
Proof. reflexivity. Qed.

(** The loop on the vertex 3, which no wedge references, is given the row
    of [inf]. *)
Lemma C10_fallback_unreachable_witness :
  ∃ vc,
    import_vertex_colors 255%Z byte_normalized double_rgb with_unreferenced_vertex options_all
      [3; 1; 0] = Ok (Some vc) ∧
    vc_fallbacks vc = 0 ∧
    (∀ l v, [3; 1; 0] !! l = Some v →
       ∃ row, vc_buffer vc !! v = Some row ∧ vc_data vc !! l = Some row) ∧
    (∀ l v, [3; 1; 0] !! l = Some v → unreferenced with_unreferenced_vertex v →
       vertex_color_space_is_srgba options_all = false ∨ double_rgb Inf = Inf →
       vc_data vc !! l = Some inf_row).
Proof.
  apply (C10_fallback_unreachable 255%Z byte_normalized double_rgb
           with_unreferenced_vertex options_all).
  - reflexivity.
  - reflexivity.
  - by apply colors_well_formedb_spec.
Defined.

Example colors_with_unreferenced_vertex :
  ∃ vc, import_vertex_colors 255%Z byte_normalized double_rgb with_unreferenced_vertex
          options_all [3; 1; 0] = Ok (Some vc) ∧
    vc_data vc =
      [inf_row; (Fin 0, Fin 510, Fin 0, Fin 255); (Fin 510, Fin 0, Fin 0, Fin 255)]%Z.
Proof. eexists. split; reflexivity. Qed.

End mesh_examples.

(** ** Matrices *)

Section matrix_facts.
Import Psa PsaSpec.
Context {A : Type}.
Implicit Types m : list (list A).

Lemma get2_Ok m f b c : cell_at m f b = Some c → get2 m f b = Ok c.
Proof.
  unfold cell_at, get2. destruct (m !! f) as [row|] eqn:E; [|done]. simpl.
  intros Hb. rewrite (get_Ok _ _ _ E). simpl. by apply get_Ok.
Qed.

Lemma put2_Ok m f b c v :
  cell_at m f b = Some c →
  ∃ m', put2 m f b v = Ok m' ∧ length m' = length m ∧
    ∀ f' b', cell_at m' f' b' = if decide (f' = f ∧ b' = b) then Some v else cell_at m f' b'.
Proof.
  unfold cell_at, put2. destruct (m !! f) as [row|] eqn:E; [|done]. simpl.
  intros Hb. rewrite (get_Ok _ _ _ E). simpl. unfold put. rewrite Hb, E. simpl.
  eexists. split; [done|]. split; [by rewrite length_insert|]. intros f' b'.
  pose proof (lookup_lt_Some _ _ _ E). pose proof (lookup_lt_Some _ _ _ Hb).
  destruct (decide (f' = f)) as [->|Hf].
  - rewrite list_lookup_insert_eq by done. simpl.
    destruct (decide (b' = b)) as [->|Hb'].
    + rewrite list_lookup_insert_eq by done. by rewrite decide_True.
    + rewrite list_lookup_insert_ne by done. rewrite decide_False by naive_solver.
      by rewrite E.
  - rewrite list_lookup_insert_ne by done. by rewrite decide_False by naive_solver.
Qed.

End matrix_facts.

(** ** The retargeter *)

Section retarget_facts.
Import Psa PsaSpec.
Context `{Mathutils}.

Lemma shaped_cell {A} (m : list (list (list A))) frames bones f b :
  shaped m frames bones → f < frames → b < bones →
  ∃ cell, cell_at m f b = Some cell ∧ length cell = 7.
Proof.
  intros [Hlen Hrows] Hf Hb. unfold cell_at.
  destruct (lookup_lt_is_Some_2 m f) as [row Hrow]; [lia|].
  destruct (Hrows f row Hrow) as [Hlr Hcells].
  destruct (lookup_lt_is_Some_2 row b) as [cell Hcell]; [lia|].
  exists cell. rewrite Hrow. simpl. split; [done|]. by eapply Hcells.
Qed.

Lemma shapedb_spec {A} (m : list (list (list A))) frames bones :
  shapedb m frames bones = true → shaped m frames bones.
Proof.
  unfold shapedb. intros [Hlen Hrows]%andb_prop. apply bool_decide_eq_true in Hlen.
  split; [done|]. intros f row Hf. rewrite forallb_forall in Hrows.
  apply list_elem_of_lookup_2, list_elem_of_In, Hrows in Hf.
  apply andb_prop in Hf as [Hl%bool_decide_eq_true Hcells]. split; [done|].
  intros b cell Hb. rewrite forallb_forall in Hcells.
  apply list_elem_of_lookup_2, list_elem_of_In, Hcells in Hb.
  by apply bool_decide_eq_true in Hb.
Qed.

Lemma length_7 {A} (l : list A) :
  length l = 7 → ∃ a b c d e f g, l = [a; b; c; d; e; f; g].
Proof.
  intros Hl. do 7 (destruct l as [|? l]; [done|]). destruct l; [|done]. by eexists _, _, _, _, _, _, _.
Qed.

(** The function of the source computes the formula of the specification. *)
Lemma calculate_fcurve_data_spec b w x y z lx ly lz :
  calculate_fcurve_data b [w; x; y; z; lx; ly; lz] =
    Ok (sample (spec_local_rotation b (mkQuat w x y z))
               (spec_local_translation b (mkVec lx ly lz))).
Proof.
  unfold calculate_fcurve_data, spec_local_rotation, spec_local_translation, compose, rotate.
  simpl. by destruct (parent b).
Qed.

Lemma calculate_fcurve_data_Ok b cell :
  length cell = 7 →
  calculate_fcurve_data b cell = Ok (converted (Some (Some b)) cell) ∧
  length (converted (Some (Some b)) cell) = 7.
Proof.
  intros (w & x & y & z & lx & ly & lz & ->)%length_7. unfold converted.
  by rewrite calculate_fcurve_data_spec.
Qed.

Lemma convert_bone_Ok b bone_index frame_count m0 :
  (∀ f, f < frame_count → ∃ cell, cell_at m0 f bone_index = Some cell ∧ length cell = 7) →
  ∃ m', convert_bone b bone_index frame_count m0 = Ok m' ∧ length m' = length m0 ∧
    ∀ f b', cell_at m' f b' =
      if decide (b' = bone_index ∧ f < frame_count)
      then converted (Some (Some b)) <$> cell_at m0 f b' else cell_at m0 f b'.
Proof.
  intros Hcells. unfold convert_bone, for_range.
  destruct (for_range_from_intro (λ j m, length m = length m0 ∧ ∀ f b', cell_at m f b' =
      if decide (b' = bone_index ∧ f < j)
      then converted (Some (Some b)) <$> cell_at m0 f b' else cell_at m0 f b')
    (λ frame_index m,
       key_data ← get2 m frame_index bone_index;
       key_data ← calculate_fcurve_data b key_data;
       put2 m frame_index bone_index key_data) frame_count 0 m0) as (m' & E & Hm');
    [| |by exists m'].
  { split; [done|]. intros f b'. rewrite decide_False; [done|lia]. }
  intros j m Hj [Hlm Hinv]. destruct (Hcells j) as (cell & Hcell & Hlen); [lia|].
  assert (cell_at m j bone_index = Some cell) as Hm.
  { rewrite Hinv, decide_False; [done|lia]. }
  rewrite (get2_Ok _ _ _ _ Hm), bind_Ok_l.
  destruct (calculate_fcurve_data_Ok b cell Hlen) as [-> _]. rewrite bind_Ok_l.
  destruct (put2_Ok m j bone_index cell (converted (Some (Some b)) cell) Hm)
    as (m1 & -> & Hlm1 & Hm1).
  exists m1. split; [done|]. split; [congruence|]. intros f b'. rewrite Hm1, Hinv.
  destruct (decide (f = j ∧ b' = bone_index)) as [[-> ->]|Hne].
  - rewrite decide_True by lia. by rewrite Hcell.
  - destruct (decide (b' = bone_index ∧ f < j)) as [[-> ?]|?].
    + rewrite decide_True; [done|lia].
    + rewrite decide_False; [done|]. intros [-> ?]. destruct Hne. split; [lia|done].
Qed.

Lemma convert_sequence_Ok import_bones frame_count (m0 : DataMatrix) :
  (∀ f b ib, f < frame_count → import_bones !! b = Some (Some ib) →
     ∃ cell, cell_at m0 f b = Some cell ∧ length cell = 7) →
  ∃ m', convert_sequence import_bones frame_count m0 = Ok m' ∧ length m' = length m0 ∧
    ∀ f b, cell_at m' f b =
      if decide (f < frame_count)
      then converted (import_bones !! b) <$> cell_at m0 f b else cell_at m0 f b.
Proof.
  intros Hcells. unfold convert_sequence, for_enumerate.
  destruct (for_enumerate_from_inv (λ k m, length m = length m0 ∧ ∀ f b, cell_at m f b =
      if decide (f < frame_count ∧ b < k)
      then converted (import_bones !! b) <$> cell_at m0 f b else cell_at m0 f b)
    import_bones
    (λ bone_index import_bone m,
       match import_bone with
       | None => Ok m
       | Some import_bone => convert_bone import_bone bone_index frame_count m
       end) 0 m0) as (m' & E & Hlm' & Hm').
  - split; [done|]. intros f b. rewrite decide_False; [done|lia].
  - intros k oib m Hk [Hlm Hinv]. simpl. destruct oib as [ib|].
    + destruct (convert_bone_Ok ib k frame_count m) as (m1 & -> & Hlm1 & Hm1).
      { intros f Hf. destruct (Hcells f k ib Hf Hk) as (cell & Hcell & Hlen).
        exists cell. split; [|done]. rewrite Hinv, decide_False; [done|lia]. }
      exists m1. split; [done|]. split; [congruence|]. intros f b. rewrite Hm1, Hinv.
      destruct (decide (b = k ∧ f < frame_count)) as [[-> Hf]|Hne].
      * rewrite decide_False by lia. rewrite decide_True by lia. by rewrite Hk.
      * destruct (decide (f < frame_count ∧ b < k)) as [[? ?]|?].
        -- rewrite decide_True; [done|lia].
        -- rewrite decide_False; [done|]. intros [? ?]. destruct Hne. split; [lia|done].
    + exists m. split; [done|]. split; [done|]. intros f b. rewrite Hinv.
      destruct (decide (f < frame_count ∧ b < k)) as [[? ?]|?].
      * rewrite decide_True; [done|lia].
      * destruct (decide (f < frame_count ∧ b < S k)) as [[? ?]|?]; [|done].
        assert (b = k) as -> by lia. rewrite Hk. simpl. by destruct (cell_at m0 f k).
  - exists m'. split; [done|]. split; [done|]. intros f b. rewrite Hm'.
    destruct (decide (f < frame_count)) as [Hf|Hf].
    + destruct (decide (b < length import_bones)) as [Hb|Hb].
      * rewrite decide_True; [done|lia].
      * rewrite decide_False by lia. rewrite lookup_ge_None_2 by lia. simpl.
        by destruct (cell_at m0 f b).
    + rewrite decide_False; [done|lia].
Qed.

End retarget_facts.

(** ** The keyframe cleaner *)

Section cleaner_facts.
Import Psa PsaSpec.

Lemma apply_drops_insert (drop : nat → bool) (cell : list bool) c :
  <[c := false]> (apply_drops drop cell) =
  apply_drops (λ c', drop c' || bool_decide (c' = c)) cell.
Proof.
  unfold apply_drops. apply list_eq. intros i.
  destruct (decide (i = c)) as [->|Hne].
  - destruct (cell !! c) as [x|] eqn:E.
    + rewrite list_lookup_insert_eq.
      2:{ rewrite length_imap. by eapply lookup_lt_Some. }
      rewrite list_lookup_imap, E. simpl. rewrite bool_decide_eq_true_2 by done.
      by rewrite orb_true_r, andb_false_r.
    + rewrite list_insert_ge.
      2:{ rewrite length_imap. by apply lookup_ge_None_1. }
      by rewrite !list_lookup_imap, E.
  - rewrite list_lookup_insert_ne by done. rewrite !list_lookup_imap.
    destruct (cell !! i); [|done]. simpl. rewrite bool_decide_eq_false_2 by done.
    by rewrite orb_false_r.
Qed.

Lemma apply_drops_ext (d1 d2 : nat → bool) (cell : list bool) :
  (∀ c, c < length cell → d1 c = d2 c) → apply_drops d1 cell = apply_drops d2 cell.
Proof.
  intros Hd. unfold apply_drops. apply list_eq. intros i. rewrite !list_lookup_imap.
  destruct (cell !! i) eqn:E; [|done]. simpl. rewrite Hd; [done|]. by eapply lookup_lt_Some.
Qed.

Lemma apply_drops_none (cell : list bool) : apply_drops (λ _, false) cell = cell.
Proof.
  unfold apply_drops. apply list_eq. intros i. rewrite list_lookup_imap.
  destruct (cell !! i); [|done]. simpl. by rewrite andb_true_r.
Qed.

Lemma apply_drops_compose (d1 d2 : nat → bool) (cell : list bool) :
  apply_drops d2 (apply_drops d1 cell) = apply_drops (λ c, d1 c || d2 c) cell.
Proof.
  unfold apply_drops. apply list_eq. intros i. rewrite !list_lookup_imap.
  destruct (cell !! i); [|done]. simpl. f_equal.
  destruct b, (d1 i), (d2 i); done.
Qed.

Lemma length_apply_drops drop cell : length (apply_drops drop cell) = length cell.
Proof. unfold apply_drops. by rewrite length_imap. Qed.

Lemma walk_drop_nil threshold start last f : walk_drop threshold start last [] f = false.
Proof. unfold walk_drop. simpl. by rewrite andb_false_r. Qed.

Lemma walk_drop_cons threshold start last datum values f :
  walk_drop threshold start last (datum :: values) f =
    if bool_decide (0 < start) && below_threshold threshold datum last
    then bool_decide (f = start) || walk_drop threshold (S start) last values f
    else walk_drop threshold (S start) datum values f.
Proof.
  unfold walk_drop. simpl.
  destruct (bool_decide (0 < start) && below_threshold threshold datum last).
  - destruct (decide (f = start)) as [->|Hne].
    + rewrite Nat.sub_diag. simpl. rewrite !bool_decide_eq_true_2 by lia. done.
    + rewrite (bool_decide_eq_false_2 (f = start)) by done. simpl.
      destruct (decide (start ≤ f)) as [Hle|Hgt].
      * rewrite !bool_decide_eq_true_2 by lia. simpl.
        replace (f - start) with (S (f - S start)) by lia. done.
      * by rewrite !bool_decide_eq_false_2 by lia.
  - destruct (decide (f = start)) as [->|Hne].
    + rewrite Nat.sub_diag. simpl. rewrite bool_decide_eq_true_2 by lia.
      by rewrite bool_decide_eq_false_2 by lia.
    + destruct (decide (start ≤ f)) as [Hle|Hgt].
      * rewrite !bool_decide_eq_true_2 by lia. simpl.
        replace (f - start) with (S (f - S start)) by lia. done.
      * by rewrite !bool_decide_eq_false_2 by lia.
Qed.

(** The walk over the frames of one channel unmarks the frames that
    [keep_from] drops. *)
Lemma clean_walk threshold b c (values : list Q) : ∀ start last (w : WriteMatrix),
  (∀ i, i < length values →
     ∃ cell, cell_at w (start + i) b = Some cell ∧ c < length cell) →
  ∃ last' w',
    for_enumerate_from start values (λ frame_index datum st,
      let '(last_written_datum, w) := st in
      if bool_decide (0 < frame_index)%nat &&
         below_threshold threshold datum last_written_datum
      then
        cell ← get2 w frame_index b;
        cell ← put cell c false;
        w ← put2 w frame_index b cell;
        Ok (last_written_datum, w)
      else Ok (datum, w)) (last, w) = Ok (last', w') ∧ length w' = length w ∧
    ∀ f b', cell_at w' f b' =
      (λ cell, if bool_decide (b' = b) && walk_drop threshold start last values f
               then <[c := false]> cell else cell) <$> cell_at w f b'.
Proof.
  induction values as [|datum values IH]; intros start last w Hcells.
  - exists last, w. split; [done|]. split; [done|].
    intros f b'. rewrite walk_drop_nil, andb_false_r.
    by destruct (cell_at w f b').
  - simpl. destruct (bool_decide (0 < start) && below_threshold threshold datum last) eqn:Hc.
    + destruct (Hcells 0) as (cell & Hcell & Hlen); [simpl; lia|].
      rewrite Nat.add_0_r in Hcell.
      rewrite (get2_Ok _ _ _ _ Hcell), bind_Ok_l.
      destruct (lookup_lt_is_Some_2 cell c Hlen) as [x Hx].
      rewrite (put_Ok _ _ _ _ Hx), bind_Ok_l.
      destruct (put2_Ok w start b cell (<[c:=false]> cell) Hcell) as (w1 & -> & Hlw1 & Hw1).
      rewrite !bind_Ok_l.
      destruct (IH (S start) last w1) as (last' & w' & -> & Hlw' & Hw').
      { intros i Hi. destruct (Hcells (S i)) as (cell' & Hcell' & Hlen'); [simpl; lia|].
        exists cell'. split; [|done]. rewrite Hw1, decide_False by lia.
        by replace (S start + i) with (start + S i) by lia. }
      exists last', w'. split; [done|]. split; [congruence|]. intros f b'.
      rewrite Hw', Hw1, walk_drop_cons, Hc.
      destruct (decide (f = start ∧ b' = b)) as [[-> ->]|Hne].
      * rewrite Hcell. simpl. rewrite !bool_decide_eq_true_2 by done. simpl.
        destruct (walk_drop threshold (S start) last values start); [|done].
        by rewrite list_insert_insert_eq.
      * destruct (cell_at w f b') as [cell'|]; [|done]. simpl. f_equal.
        destruct (decide (b' = b)) as [->|?].
        -- rewrite bool_decide_eq_true_2 by done. simpl.
           rewrite (bool_decide_eq_false_2 (f = start)) by naive_solver. done.
        -- by rewrite !(bool_decide_eq_false_2 (b' = b)) by done.
    + rewrite bind_Ok_l.
      destruct (IH (S start) datum w) as (last' & w' & -> & Hlw' & Hw').
      { intros i Hi. destruct (Hcells (S i)) as (cell' & Hcell' & Hlen'); [simpl; lia|].
        exists cell'. split; [|done]. by replace (S start + i) with (start + S i) by lia. }
      exists last', w'. split; [done|]. split; [done|]. intros f b'.
      by rewrite Hw', walk_drop_cons, Hc.
Qed.

Lemma walk_drop_keep_flags threshold values f :
  walk_drop threshold 0 0%Q values f =
    negb (default true (keep_flags threshold values !! f)).
Proof.
  unfold walk_drop, keep_flags. rewrite bool_decide_eq_true_2 by lia.
  by rewrite Nat.sub_0_r.
Qed.

Lemma clean_fcurve_Ok threshold b c values (w : WriteMatrix) :
  (∀ f, f < length values → ∃ cell, cell_at w f b = Some cell ∧ c < length cell) →
  ∃ w', clean_fcurve threshold b c values w = Ok w' ∧ length w' = length w ∧
    ∀ f b', cell_at w' f b' =
      (λ cell, if bool_decide (b' = b) &&
                  negb (default true (keep_flags threshold values !! f))
               then <[c := false]> cell else cell) <$> cell_at w f b'.
Proof.
  intros Hcells. unfold clean_fcurve, for_enumerate.
  destruct (clean_walk threshold b c values 0 0%Q w) as (last' & w' & -> & Hlw' & Hw'); [done|].
  exists w'. split; [done|]. split; [done|]. intros f b'. rewrite Hw'.
  by rewrite walk_drop_keep_flags.
Qed.

Lemma column_Ok {A} (m : list (list (list A))) b c :
  (∀ f row, m !! f = Some row → ∃ cell, row !! b = Some cell ∧ c < length cell) →
  column m b c = Ok (channel m b c) ∧ length (channel m b c) = length m.
Proof.
  unfold column, channel. induction m as [|row m IH]; intros Hrows; [done|].
  destruct (Hrows 0 row) as (cell & Hcell & Hc); [done|].
  destruct (lookup_lt_is_Some_2 cell c Hc) as [x Hx].
  destruct IH as [IH1 IH2]; [intros f row' Hf; by apply (Hrows (S f))|].
  assert (omap (λ row : list (list A), row !! b ≫= (.!! c)) (row :: m) =
            x :: omap (λ row : list (list A), row !! b ≫= (.!! c)) m) as Hcons.
  { simpl. rewrite Hcell. simpl. by rewrite Hx. }
  rewrite Hcons. split; [|simpl; by rewrite IH2].
  simpl. rewrite (get_Ok _ _ _ Hcell), bind_Ok_l, (get_Ok _ _ _ Hx), bind_Ok_l.
  by rewrite IH1, bind_Ok_l.
Qed.

(** The cleaning of the f-curves of one bone. *)
Lemma clean_bone_Ok threshold b n (m : DataMatrix) (w0 : WriteMatrix) :
  (∀ f row, m !! f = Some row → ∃ cell, row !! b = Some cell ∧ n ≤ length cell) →
  (∀ f, f < length m → ∃ cell, cell_at w0 f b = Some cell ∧ n ≤ length cell) →
  ∃ w', for_range n (λ fcurve_index w,
          fcurve_frame_data ← column m b fcurve_index;
          clean_fcurve threshold b fcurve_index fcurve_frame_data w) w0 = Ok w' ∧
    length w' = length w0 ∧
    ∀ f b', cell_at w' f b' =
      (λ cell, if bool_decide (b' = b)
               then apply_drops (λ c, bool_decide (c < n) &&
                      negb (default true (keep_flags threshold (channel m b c) !! f))) cell
               else cell) <$> cell_at w0 f b'.
Proof.
  intros Hm Hw0. unfold for_range.
  destruct (for_range_from_intro (λ j w, length w = length w0 ∧ ∀ f b', cell_at w f b' =
      (λ cell, if bool_decide (b' = b)
               then apply_drops (λ c, bool_decide (c < j) &&
                      negb (default true (keep_flags threshold (channel m b c) !! f))) cell
               else cell) <$> cell_at w0 f b')
    (λ fcurve_index w,
       fcurve_frame_data ← column m b fcurve_index;
       clean_fcurve threshold b fcurve_index fcurve_frame_data w) n 0 w0) as (w' & E & Hw');
    [| |by exists w'].
  - split; [done|].
    intros f b'. destruct (cell_at w0 f b') as [cell|]; [|done]. simpl. f_equal.
    destruct (bool_decide (b' = b)); [|done]. rewrite <-(apply_drops_none cell) at 1.
    apply apply_drops_ext. intros c _. first [done | by rewrite bool_decide_eq_false_2 by lia].
  - intros j w Hj [Hlw Hinv].
    destruct (column_Ok m b j) as [-> Hlen].
    { intros f row Hrow. destruct (Hm f row Hrow) as (cell & ? & ?). exists cell. split; [done|lia]. }
    rewrite bind_Ok_l.
    destruct (clean_fcurve_Ok threshold b j (channel m b j) w) as (w1 & -> & Hlw1 & Hw1).
    { intros f Hf. rewrite Hlen in Hf. destruct (Hw0 f Hf) as (cell & Hcell & Hn).
      eexists. rewrite Hinv, Hcell. simpl. split; [done|].
      rewrite bool_decide_eq_true_2 by done. rewrite length_apply_drops. lia. }
    exists w1. split; [done|]. split; [congruence|]. intros f b'. rewrite Hw1, Hinv.
    destruct (cell_at w0 f b') as [cell|]; [|done]. simpl. f_equal.
    destruct (bool_decide (b' = b)); simpl; [|done].
    destruct (default true (keep_flags threshold (channel m b j) !! f)) eqn:Hk; simpl.
    + apply apply_drops_ext. intros c _. destruct (decide (c = j)) as [->|Hne].
      * rewrite Hk. simpl. by rewrite !andb_false_r.
      * destruct (decide (c < j)).
        -- by rewrite !bool_decide_eq_true_2 by lia.
        -- by rewrite !bool_decide_eq_false_2 by lia.
    + rewrite apply_drops_insert. apply apply_drops_ext. intros c _.
      destruct (decide (c = j)) as [->|Hne].
      * rewrite Hk. simpl. rewrite (bool_decide_eq_false_2 (j < j)) by lia.
        by rewrite !bool_decide_eq_true_2 by lia.
      * rewrite (bool_decide_eq_false_2 (c = j)) by done. rewrite orb_false_r.
        destruct (decide (c < j)).
        -- by rewrite !bool_decide_eq_true_2 by lia.
        -- by rewrite !bool_decide_eq_false_2 by lia.
Qed.

Lemma clean_keys_Ok threshold import_bones (m : DataMatrix) (w0 : WriteMatrix) :
  (∀ b ib f row, import_bones !! b = Some (Some ib) → m !! f = Some row →
     ∃ cell, row !! b = Some cell ∧ length (fcurves ib) ≤ length cell) →
  (∀ b ib f, import_bones !! b = Some (Some ib) → f < length m →
     ∃ cell, cell_at w0 f b = Some cell ∧ length (fcurves ib) ≤ length cell) →
  ∃ w', clean_keys threshold import_bones m w0 = Ok w' ∧ length w' = length w0 ∧
    ∀ f b, cell_at w' f b =
      apply_drops (dropped threshold import_bones m f b) <$> cell_at w0 f b.
Proof.
  intros Hm Hw0. unfold clean_keys, for_enumerate.
  destruct (for_enumerate_from_inv (λ k w, length w = length w0 ∧ ∀ f b, cell_at w f b =
      apply_drops (λ c, bool_decide (b < k) && dropped threshold import_bones m f b c)
        <$> cell_at w0 f b)
    import_bones
    (λ bone_index import_bone w,
       match import_bone with
       | None => Ok w
       | Some import_bone =>
           for_range (length (fcurves import_bone)) (λ fcurve_index w,
             fcurve_frame_data ← column m bone_index fcurve_index;
             clean_fcurve threshold bone_index fcurve_index fcurve_frame_data w) w
       end) 0 w0) as (w' & E & Hlw' & Hw').
  - split; [done|].
    intros f b. destruct (cell_at w0 f b) as [cell|]; [|done]. simpl. f_equal.
    rewrite <-(apply_drops_none cell) at 1. apply apply_drops_ext. intros c _.
    first [done | by rewrite bool_decide_eq_false_2 by lia].
  - intros k oib w Hk [Hlw Hinv]. simpl. destruct oib as [ib|].
    + destruct (clean_bone_Ok threshold k (length (fcurves ib)) m w) as (w1 & -> & Hlw1 & Hw1).
      { intros f row Hrow. by eapply Hm. }
      { intros f Hf. destruct (Hw0 k ib f Hk Hf) as (cell & Hcell & Hn).
        eexists. rewrite Hinv, Hcell. simpl. split; [done|]. by rewrite length_apply_drops. }
      exists w1. split; [done|]. split; [congruence|]. intros f b. rewrite Hw1, Hinv.
      destruct (cell_at w0 f b) as [cell|]; [|done]. simpl. f_equal.
      destruct (decide (b = k)) as [->|Hne].
      * rewrite bool_decide_eq_true_2 by done. rewrite apply_drops_compose.
        apply apply_drops_ext. intros c _. unfold dropped. rewrite Hk.
        rewrite (bool_decide_eq_false_2 (k < k)) by lia.
        by rewrite (bool_decide_eq_true_2 (k < S k)) by lia.
      * rewrite bool_decide_eq_false_2 by done. apply apply_drops_ext. intros c _.
        destruct (decide (b < k)).
        -- by rewrite !bool_decide_eq_true_2 by lia.
        -- by rewrite !bool_decide_eq_false_2 by lia.
    + exists w. split; [done|]. split; [done|]. intros f b. rewrite Hinv.
      destruct (cell_at w0 f b) as [cell|]; [|done]. simpl. f_equal.
      apply apply_drops_ext. intros c _. destruct (decide (b = k)) as [->|Hne].
      * unfold dropped. rewrite Hk. by rewrite !andb_false_r.
      * destruct (decide (b < k)).
        -- by rewrite !bool_decide_eq_true_2 by lia.
        -- by rewrite !bool_decide_eq_false_2 by lia.
  - exists w'. split; [done|]. split; [done|]. intros f b. rewrite Hw'.
    destruct (cell_at w0 f b) as [cell|]; [|done]. simpl. f_equal.
    apply apply_drops_ext. intros c _. destruct (decide (b < length import_bones)).
    + by rewrite bool_decide_eq_true_2 by lia.
    + unfold dropped. rewrite lookup_ge_None_2 by lia. by rewrite andb_false_r.
Qed.

End cleaner_facts.

Section keep_flags_facts.
Import Psa PsaSpec.

Lemma length_keep_from threshold values : ∀ start last,
  length (keep_from threshold start last values) = length values.
Proof.
  induction values as [|d values IH]; intros start last; simpl; [done|].
  destruct (bool_decide (0 < start) && below_threshold threshold d last); simpl; by rewrite IH.
Qed.









End keep_flags_facts.

Section sequence_facts.
Import Psa PsaSpec.

Lemma cell_at_ones (m : DataMatrix) f b :
  cell_at (ones m) f b = (λ cell : list Q, (λ _, true) <$> cell) <$> cell_at m f b.
Proof.
  unfold cell_at, ones. rewrite list_lookup_fmap. destruct (m !! f) as [row|]; [|done].
  simpl. by rewrite list_lookup_fmap.
Qed.

Lemma length_ones (m : DataMatrix) : length (ones m) = length m.
Proof. unfold ones. by rewrite length_fmap. Qed.

Lemma lookup_omap_total {A B} (g : A → option B) (l : list A) i :
  (∀ x, x ∈ l → is_Some (g x)) → omap g l !! i = l !! i ≫= g.
Proof.
  revert i. induction l as [|x l IH]; intros i Hg; [done|].
  destruct (Hg x) as [y Hy]; [by left|]. simpl. rewrite Hy.
  destruct i as [|i]; simpl; [done|]. apply IH. intros z Hz. apply Hg. by right.
Qed.

(** The values of a channel, when every frame has the cell. *)
Lemma channel_lookup {A} (m : list (list (list A))) b c f :
  (∀ f, f < length m → ∃ cell, cell_at m f b = Some cell ∧ c < length cell) →
  channel m b c !! f = cell_at m f b ≫= (.!! c) ∧ length (channel m b c) = length m.
Proof.
  intros Hcells.
  assert (∀ f row, m !! f = Some row → ∃ cell, row !! b = Some cell ∧ c < length cell) as Hrows.
  { intros f' row Hrow. destruct (Hcells f') as (cell & Hcell & Hc); [by eapply lookup_lt_Some|].
    unfold cell_at in Hcell. rewrite Hrow in Hcell. by exists cell. }
  split; [|by apply column_Ok]. unfold channel, cell_at.
  rewrite lookup_omap_total; [by destruct (m !! f)|].
  intros row [f' Hrow]%list_elem_of_lookup. destruct (Hrows f' row Hrow) as (cell & -> & Hc).
  simpl. by apply lookup_lt_is_Some_2.
Qed.

(** A matrix with the cells of a shaped matrix, cell for cell, is shaped. *)
Lemma shaped_pointwise {A B} (m : list (list (list A))) (m' : list (list (list B)))
    frames bones (g : nat → nat → list A → list B) :
  shaped m frames bones → length m' = length m →
  (∀ f b, cell_at m' f b = g f b <$> cell_at m f b) →
  (∀ f b cell, cell_at m f b = Some cell → length (g f b cell) = 7) →
  shaped m' frames bones.
Proof.
  intros [Hlen Hrows] Hlen' Hcells Hg. split; [congruence|].
  intros f row' Hrow'.
  destruct (lookup_lt_is_Some_2 m f) as [row Hrow].
  { rewrite <-Hlen'. by eapply lookup_lt_Some. }
  destruct (Hrows f row Hrow) as [Hlr Hc]. split.
  - destruct (Nat.lt_total (length row') bones) as [Hlt|[Heq|Hgt]]; [|done|].
    + destruct (lookup_lt_is_Some_2 row (length row')) as [cell Hcell]; [lia|].
      specialize (Hcells f (length row')). unfold cell_at in Hcells.
      rewrite Hrow', Hrow in Hcells. simpl in Hcells. rewrite Hcell in Hcells.
      rewrite lookup_ge_None_2 in Hcells by lia. done.
    + destruct (lookup_lt_is_Some_2 row' bones) as [cell Hcell]; [lia|].
      specialize (Hcells f bones). unfold cell_at in Hcells.
      rewrite Hrow', Hrow in Hcells. simpl in Hcells. rewrite Hcell in Hcells.
      rewrite (lookup_ge_None_2 row) in Hcells by lia. done.
  - intros b cell' Hcell'. specialize (Hcells f b). unfold cell_at in Hcells.
    rewrite Hrow', Hrow in Hcells. simpl in Hcells. rewrite Hcell' in Hcells.
    destruct (row !! b) as [cell|] eqn:Hcell; [|done]. injection Hcells as ->.
    apply Hg. unfold cell_at. rewrite Hrow. done.
Qed.

End sequence_facts.

Section sequence_claims.
Import Psa PsaSpec.
Context `{Mathutils}.


(** C7 (amended): the conversion of a sequence returns a matrix of the same
    shape in which every sample of every mapped bone is the local-space
    sample computed from the raw one, and every sample of a bone that is not
    mapped is the raw sample, as read. *)
Theorem C7_conversion_of_mapped_bones import_bones frame_count (m : DataMatrix) :
  shaped m frame_count (length import_bones) →
  ∃ m', convert_sequence import_bones frame_count m = Ok m' ∧
    shaped m' frame_count (length import_bones) ∧
    ∀ f b cell, cell_at m f b = Some cell →
      (∀ bone, import_bones !! b = Some (Some bone) →
         ∃ local, calculate_fcurve_data bone cell = Ok local ∧ cell_at m' f b = Some local) ∧
      (import_bones !! b = Some None → cell_at m' f b = Some cell).
Proof.
  intros Hshape.
  destruct (convert_sequence_Ok import_bones frame_count m) as (m' & E & Hlen & Hm').
  { intros f b ib Hf Hb. apply (shaped_cell m frame_count (length import_bones)); [done..|].
    by eapply lookup_lt_Some. }
  assert (∀ f b cell, cell_at m f b = Some cell → f < frame_count ∧ length cell = 7) as Hcell.
  { intros f b cell Hc. unfold cell_at in Hc. destruct (m !! f) as [row|] eqn:Hrow; [|done].
    destruct Hshape as [Hl Hrows]. split; [rewrite <-Hl; by eapply lookup_lt_Some|].
    destruct (Hrows f row Hrow) as [_ Hc7]. by eapply Hc7. }
  exists m'. split; [done|]. split.
  - apply (shaped_pointwise m m' frame_count (length import_bones)
             (λ f b, converted (import_bones !! b))); [done..| |].
    + intros f b. rewrite Hm'. destruct (decide (f < frame_count)); [done|].
      destruct (cell_at m f b) as [cell|] eqn:Hc; [|done].
      destruct (Hcell f b cell Hc). lia.
    + intros f b cell Hc. destruct (Hcell f b cell Hc) as [_ H7].
      destruct (import_bones !! b) as [[ib|]|]; [|done..].
      by apply calculate_fcurve_data_Ok.
  - intros f b cell Hc. destruct (Hcell f b cell Hc) as [Hf H7].
    rewrite Hm', decide_True, Hc by done. split.
    + intros bone Hb. rewrite Hb. exists (converted (Some (Some bone)) cell).
      split; [|done]. by apply calculate_fcurve_data_Ok.
    + by intros ->.
Qed.

End sequence_claims.

Section cleaner_claims.
Import Psa PsaSpec.


(** The write matrix after the cleaning, channel by channel: the channels of
    the mapped bones carry the flags of the walk. *)
Lemma clean_keys_channel threshold import_bones (m : DataMatrix) frames :
  shaped m frames (length import_bones) →
  (∀ b bone, import_bones !! b = Some (Some bone) → length (fcurves bone) = 7) →
  ∃ w, clean_keys threshold import_bones m (ones m) = Ok w ∧ length w = frames ∧
    (∀ f b, cell_at w f b =
       (λ cell : list Q, imap (λ c _, negb (dropped threshold import_bones m f b c)) cell)
         <$> cell_at m f b) ∧
    ∀ b bone c, import_bones !! b = Some (Some bone) → c < 7 →
      length (channel m b c) = frames ∧
      channel w b c = keep_flags threshold (channel m b c).
Proof.
  intros Hshape Hcurves.
  assert (∀ b bone f, import_bones !! b = Some (Some bone) → f < length m →
    ∃ cell, cell_at m f b = Some cell ∧ length cell = 7) as Hcell.
  { intros b bone f Hb Hf. apply (shaped_cell m frames (length import_bones)); [done| |].
    - destruct Hshape. lia.
    - by eapply lookup_lt_Some. }
  destruct (clean_keys_Ok threshold import_bones m (ones m)) as (w & E & Hlen & Hw).
  { intros b bone f row Hb Hrow.
    destruct (Hcell b bone f Hb) as (cell & Hc & H7); [by eapply lookup_lt_Some|].
    unfold cell_at in Hc. rewrite Hrow in Hc. exists cell. split; [done|].
    rewrite (Hcurves b bone Hb). lia. }
  { intros b bone f Hb Hf. destruct (Hcell b bone f Hb Hf) as (cell & Hc & H7).
    exists ((λ _, true) <$> cell). rewrite cell_at_ones, Hc. split; [done|].
    rewrite length_fmap, (Hcurves b bone Hb). lia. }
  rewrite length_ones in Hlen.
  assert (∀ f b, cell_at w f b =
    (λ cell : list Q, imap (λ c _, negb (dropped threshold import_bones m f b c)) cell)
      <$> cell_at m f b) as Hw'.
  { intros f b. rewrite Hw, cell_at_ones. destruct (cell_at m f b) as [cell|]; [|done].
    cbn [fmap option_fmap option_map]. f_equal. unfold apply_drops.
    apply list_eq. intros c. rewrite !list_lookup_imap, list_lookup_fmap.
    by destruct (cell !! c). }
  exists w. split; [done|]. split; [destruct Hshape; lia|]. split; [done|].
  intros b bone c Hb Hc.
  destruct (channel_lookup m b c 0) as [_ Hlm].
  { intros f Hf. destruct (Hcell b bone f Hb Hf) as (cell & Hcl & H7).
    exists cell. split; [done|lia]. }
  split; [destruct Hshape; lia|].
  apply list_eq. intros f.
  destruct (decide (f < length m)) as [Hf|Hf].
  - destruct (channel_lookup w b c f) as [-> _].
    { intros f' Hf'. rewrite Hw'.
      destruct (Hcell b bone f' Hb) as (cell & Hcl & H7); [lia|]. rewrite Hcl.
      eexists. split; [done|]. rewrite length_imap. lia. }
    rewrite Hw'. destruct (Hcell b bone f Hb Hf) as (cell & Hcl & H7). rewrite Hcl.
    cbn [fmap option_fmap option_map mbind option_bind].
    rewrite list_lookup_imap.
    destruct (lookup_lt_is_Some_2 cell c) as [x ->]; [lia|].
    cbn [fmap option_fmap option_map]. unfold dropped. rewrite Hb, (Hcurves b bone Hb).
    rewrite bool_decide_true by done.
    destruct (lookup_lt_is_Some_2 (keep_flags threshold (channel m b c)) f) as [k Hk].
    { unfold keep_flags. rewrite length_keep_from. lia. }
    rewrite Hk. simpl. by rewrite negb_involutive.
  - rewrite !lookup_ge_None_2; [done|..].
    + unfold keep_flags. rewrite length_keep_from. lia.
    + destruct (channel_lookup w b c 0) as [_ ->]; [|lia].
      intros f' Hf'. rewrite Hw'.
      destruct (Hcell b bone f' Hb) as (cell & Hcl & H7); [lia|]. rewrite Hcl.
      eexists. split; [done|]. rewrite length_imap. lia.
Qed.


End cleaner_claims.

Section sequence_examples.
Import Psa PsaSpec PsaExamples.
#[local] Existing Instance Exact.mathutils.

Example build_idle_import_bones :
  ∃ mapping, build_import_bones armature bones = Ok mapping ∧
    psa_bone_names mapping = ["Root"; "Spine"; "Arm"] ∧
    create_fcurves (psa_to_armature_bone_indices mapping) (import_bones mapping)
      = idle_import_bones.
Proof. eexists. split; [reflexivity|]. split; reflexivity. Qed.



Lemma C7_conversion_of_mapped_bones_witness :
  ∃ m', convert_sequence idle_import_bones 3 (seq_data idle) = Ok m' ∧
    shaped m' 3 (length idle_import_bones) ∧
    ∀ f b cell, cell_at (seq_data idle) f b = Some cell →
      (∀ bone, idle_import_bones !! b = Some (Some bone) →
         ∃ local, calculate_fcurve_data bone cell = Ok local ∧ cell_at m' f b = Some local) ∧
      (idle_import_bones !! b = Some None → cell_at m' f b = Some cell).
Proof.
  apply (C7_conversion_of_mapped_bones idle_import_bones 3 (seq_data idle)).
  apply shapedb_spec. reflexivity.
Defined.

(** C7, as stated, fails: "Spine" has no ImportBone, and its samples are in
    the matrix of the action as they were read. *)
Lemma C7_counterexample :
  ∃ mapping action,
    build_import_bones armature bones = Ok mapping ∧
    import_sequence clean mapping idle = Ok action ∧
    bones !! 1 = Some (mkBone "Spine") ∧
    import_bones mapping !! 1 = Some None ∧
    ∀ f, f < 3 →
      cell_at (seq_data idle) f 1 = Some [1; 0; 0; 0; 5; 5; 5]%Q ∧
      cell_at (act_data action) f 1 = Some [1; 0; 0; 0; 5; 5; 5]%Q.
Proof.
  eexists _, _. split; [reflexivity|]. split; [reflexivity|].
  split; [reflexivity|]. split; [reflexivity|].
  intros [|[|[|f]]] Hf; [by split..|lia].
Qed.


(** The channel Qx of the arm: the second frame is kept, and so is the
    third, which returns to the value of the first; the samples of the root,
    which do not change, are dropped after the first frame. *)
Example clean_idle :
  ∃ mapping action,
    build_import_bones armature bones = Ok mapping ∧
    import_sequence clean mapping idle = Ok action ∧
    channel (act_data action) 2 1 = [1; 0; 1]%Q ∧
    channel (act_write action) 2 1 = [true; true; true] ∧
    channel (act_write action) 0 0 = [true; false; false].
Proof. eexists _, _. repeat split; reflexivity. Qed.


End sequence_examples.

Section mapping_facts.
Import Psa PsaSpec.
Context `{Mathutils}.

Lemma mapM_Forall2 {A B} (f : A → result B) (l : list A) (rs : list B) :
  mapM f l = Ok rs ↔ Forall2 (λ x r, f x = Ok r) l rs.
Proof.
  revert rs. induction l as [|x l IH]; intros rs; cbn [mapM].
  - split; [intros [= <-]; constructor|by intros ->%Forall2_nil_inv_l].
  - split.
    + intros (y & Hy & (k & Hk & [= <-])%bind_Ok)%bind_Ok.
      constructor; [done|by apply IH].
    + intros (y & k & Hy & Hk & ->)%Forall2_cons_inv_l.
      apply IH in Hk. by rewrite Hy, bind_Ok_l, Hk, bind_Ok_l.
Qed.

Lemma index_of_Ok (names : list string) n :
  n ∈ names → ∃ i, index_of names n = Ok i.
Proof.
  intros Hn. unfold index_of.
  destruct (list_find_elem_of (λ x, x = n) names n Hn eq_refl) as [[i x] ->]. by exists i.
Qed.

Lemma index_of_Raise (names : list string) n :
  n ∉ names → index_of names n = Raise ValueError.
Proof.
  intros Hn. unfold index_of.
  destruct (list_find (λ x, x = n) names) as [[i x]|] eqn:E; [|done].
  apply list_find_Some in E as (Hx & -> & _). destruct Hn. by eapply list_elem_of_lookup_2.
Qed.

Lemma find_bone_Ok (armature : list ArmatureBone) n :
  n ∈ ab_name <$> armature → ∃ b, find_bone armature n = Ok b ∧ ab_name b = n.
Proof.
  intros (b & -> & Hb)%list_elem_of_fmap. unfold find_bone.
  destruct (list_find_elem_of (λ x, ab_name x = ab_name b) armature b Hb eq_refl)
    as [[i x] E].
  rewrite E. exists x. split; [done|]. by apply list_find_Some in E as (_ & ? & _).
Qed.

Lemma find_bone_Raise (armature : list ArmatureBone) n :
  n ∉ ab_name <$> armature → find_bone armature n = Raise KeyError.
Proof.
  intros Hn. unfold find_bone.
  destruct (list_find (λ b, ab_name b = n) armature) as [[i x]|] eqn:E; [|done].
  apply list_find_Some in E as (Hx & <- & _). destruct Hn.
  apply list_elem_of_fmap. exists x. split; [done|]. by eapply list_elem_of_lookup_2.
Qed.

Lemma new_import_bone_Some armature bone :
  name bone ∈ ab_name <$> armature →
  ∃ b, find_bone armature (name bone) = Ok b ∧
    new_import_bone armature bone =
      Some (mkImportBone bone None b (name bone) vec_zero quat_identity quat_identity []).
Proof.
  intros Hn. destruct (find_bone_Ok armature (name bone) Hn) as (b & E & _).
  exists b. split; [done|]. unfold new_import_bone. by rewrite E.
Qed.

Lemma new_import_bone_None armature bone :
  name bone ∉ ab_name <$> armature → new_import_bone armature bone = None.
Proof. intros Hn. unfold new_import_bone. by rewrite find_bone_Raise. Qed.

Lemma new_import_bone_pose armature bone b :
  new_import_bone armature bone = Some b →
  pose_bone b = name bone ∧ name bone ∈ ab_name <$> armature.
Proof.
  intros Hb. destruct (decide (name bone ∈ ab_name <$> armature)) as [Hn|Hn].
  - destruct (new_import_bone_Some armature bone Hn) as (ab & _ & E).
    rewrite E in Hb. by injection Hb as <-.
  - by rewrite new_import_bone_None in Hb.
Qed.

(** The first loop: the names of the PSA bones, and an index for every PSA
    bone whose name is the name of a bone of the armature. *)
Lemma map_bones_spec (names : list string) (bones : list Bone) :
  ∃ indices, for_enumerate bones (map_bone names) (∅, []) = Ok (indices, name <$> bones) ∧
    ∀ j, j ∈ dom indices ↔ ∃ b, bones !! j = Some b ∧ name b ∈ names.
Proof.
  unfold for_enumerate.
  destruct (for_enumerate_from_inv
    (λ i (st : gmap nat nat * list string),
       st.2 = name <$> take i bones ∧
       ∀ j, j ∈ dom st.1 ↔ j < i ∧ ∃ b, bones !! j = Some b ∧ name b ∈ names)
    bones (map_bone names) 0 (∅, [])) as ([indices pn] & E & Hpn & Hdom).
  - split; [done|]. intros j. cbn [fst snd]. rewrite dom_empty. split; [set_solver|lia].
  - intros i x [indices pn] Hx [Hpn Hdom]. cbn [fst snd] in *.
    assert (take (S i) bones = take i bones ++ [x]) as Htake by by apply take_S_r.
    unfold map_bone. destruct (decide (name x ∈ names)) as [Hn|Hn].
    + destruct (index_of_Ok names (name x) Hn) as [a ->]. eexists. split; [done|].
      cbn [fst snd]. split; [by rewrite Htake, fmap_app, Hpn|].
      intros j. rewrite dom_insert, elem_of_union, elem_of_singleton, Hdom.
      split.
      * intros [->|[Hj Hb]]; [split; [lia|by exists x]|split; [lia|done]].
      * intros [Hj Hb]. destruct (decide (j = i)) as [->|]; [by left|right].
        split; [lia|done].
    + rewrite (index_of_Raise names (name x) Hn). eexists. split; [done|].
      cbn [fst snd]. split; [by rewrite Htake, fmap_app, Hpn|].
      intros j. rewrite Hdom. split.
      * intros [Hj Hb]. split; [lia|done].
      * intros [Hj (b & Hb & Hbn)]. destruct (decide (j = i)) as [->|]; [congruence|].
        split; [lia|by exists b].
  - cbn [fst snd] in *. rewrite firstn_all in Hpn. subst pn.
    exists indices. split; [done|]. intros j. rewrite Hdom. split; [naive_solver|].
    intros (b & Hb & Hn). split; [by eapply lookup_lt_Some|by exists b].
Qed.

(** The second loop: an ImportBone for every PSA bone that has an index, and
    an entry of the dict for its name. *)
Lemma make_import_bones_spec armature (bones : list Bone) (indices : gmap nat nat) :
  (∀ j, j ∈ dom indices ↔ ∃ b, bones !! j = Some b ∧ name b ∈ ab_name <$> armature) →
  ∃ dict,
    for_enumerate bones (make_import_bone armature indices) ([], ∅)
      = Ok (new_import_bone armature <$> bones, dict) ∧
    ∀ n, is_Some (dict !! n) ↔ n ∈ ab_name <$> armature ∧ n ∈ name <$> bones.
Proof.
  intros Hdom. unfold for_enumerate.
  destruct (for_enumerate_from_inv
    (λ i (st : list (option ImportBone) * gmap string nat),
       st.1 = new_import_bone armature <$> take i bones ∧
       ∀ n, is_Some (st.2 !! n) ↔ n ∈ ab_name <$> armature ∧ n ∈ name <$> take i bones)
    bones (make_import_bone armature indices) 0 ([], ∅)) as ([ibs dict] & E & Hibs & Hdict).
  - split; [done|]. intros n. cbn [fst snd take fmap list_fmap].
    rewrite lookup_empty, elem_of_nil. split; [by intros []|by intros [_ []]].
  - intros i x [ibs dict] Hx [Hibs Hdict]. cbn [fst snd] in *.
    assert (take (S i) bones = take i bones ++ [x]) as Htake by by apply take_S_r.
    unfold make_import_bone. cbn [Nat.add].
    destruct (decide (name x ∈ ab_name <$> armature)) as [Hn|Hn].
    + rewrite bool_decide_false.
      2:{ intros Hi. apply Hi, Hdom. by exists x. }
      destruct (new_import_bone_Some armature x Hn) as (ab & -> & Hnew).
      rewrite bind_Ok_l. eexists. split; [done|]. cbn [fst snd]. split.
      * by rewrite Htake, fmap_app, Hibs, <-Hnew.
      * intros n. rewrite Htake, fmap_app, elem_of_app.
        change (name <$> [x]) with [name x]. rewrite list_elem_of_singleton.
        destruct (decide (n = name x)) as [->|Hne].
        -- rewrite lookup_insert_eq. split; [intros _; split; [done|by right]|done].
        -- rewrite lookup_insert_ne by done. rewrite Hdict. naive_solver.
    + rewrite bool_decide_true.
      2:{ intros (b & Hb & Hbn)%Hdom. congruence. }
      eexists. split; [done|]. cbn [fst snd]. split.
      * rewrite Htake, fmap_app, Hibs. change (new_import_bone armature <$> [x])
          with [new_import_bone armature x]. by rewrite new_import_bone_None.
      * intros n. rewrite Htake, fmap_app, elem_of_app.
        change (name <$> [x]) with [name x]. rewrite list_elem_of_singleton, Hdict.
        split; [naive_solver|]. intros [Hna [Hnb| ->]]; [done|done].
  - cbn [fst snd] in *. rewrite firstn_all in Hibs, Hdict. subst ibs.
    by exists dict.
Qed.

(** The part of [import_psa] before the sequences, with its loops resolved. *)
Lemma build_import_bones_unfold armature (bones : list Bone) :
  ∃ indices dict,
    (∀ j, j ∈ dom indices ↔ ∃ b, bones !! j = Some b ∧ name b ∈ ab_name <$> armature) ∧
    (∀ n, is_Some (dict !! n) ↔ n ∈ ab_name <$> armature ∧ n ∈ name <$> bones) ∧
    build_import_bones armature bones =
      (import_bones ← mapM (resolve (name <$> bones) dict) (new_import_bone armature <$> bones);
       Ok (mkMapping indices (name <$> bones)
             (missing_bone_names (name <$> bones) (ab_name <$> armature)) import_bones)).
Proof.
  destruct (map_bones_spec (ab_name <$> armature) bones) as (indices & E1 & Hdom).
  destruct (make_import_bones_spec armature bones indices Hdom) as (dict & E2 & Hdict).
  exists indices, dict. split; [done|]. split; [done|].
  unfold build_import_bones. rewrite E1, bind_Ok_l. cbn beta iota. by rewrite E2, bind_Ok_l.
Qed.

End mapping_facts.

Section removal_facts.
Import Psa PsaSpec.
Context `{Mathutils}.

Lemma elem_of_delete_1 {A} (l : list A) k x : x ∈ delete k l → x ∈ l.
Proof.
  intros [j Hj]%list_elem_of_lookup. rewrite list_lookup_delete in Hj.
  by eapply list_elem_of_lookup_2.
Qed.

Lemma elem_of_delete_2 {A} (l : list A) k x y :
  l !! k = Some y → x ∈ l → x ≠ y → x ∈ delete k l.
Proof.
  intros Hk [j Hj]%list_elem_of_lookup Hne.
  assert (j ≠ k) as Hjk by congruence.
  destruct (decide (j < k)) as [Hlt|Hge].
  - apply (list_elem_of_lookup_2 _ j). by rewrite list_lookup_delete_lt.
  - apply (list_elem_of_lookup_2 _ (j - 1)). rewrite list_lookup_delete_ge by lia.
    by replace (S (j - 1)) with j by lia.
Qed.

Lemma resolve_import_bone_agree pn pn' (d d' : gmap string nat) ib r :
  resolve_import_bone pn d ib = Ok r →
  (∀ n, n ∈ pn → is_Some (d !! n) → n ∈ pn' ∧ is_Some (d' !! n)) →
  (∀ n, n ∉ pn → n ∉ pn') →
  resolve_import_bone pn' d' ib = Ok r.
Proof.
  intros Hr Hin Hout. unfold resolve_import_bone in *.
  destruct (ab_parent (armature_bone ib)) as [p|] eqn:Hp; [|done].
  destruct (decide (pb_name p ∈ pn)) as [Hpn|Hpn].
  - rewrite bool_decide_true in Hr by done.
    destruct (d !! pb_name p) as [i|] eqn:Hd; [|discriminate Hr].
    destruct (Hin (pb_name p) Hpn) as [Hpn' [i' Hd']]; [by eexists|].
    by rewrite bool_decide_true, Hd' by done.
  - rewrite bool_decide_false in Hr by done.
    by rewrite bool_decide_false by by apply Hout.
Qed.

Lemma resolve_import_bone_pose pn (d : gmap string nat) ib r :
  resolve_import_bone pn d ib = Ok r →
  pose_bone r = pose_bone ib ∧ fcurves r = fcurves ib.
Proof.
  unfold resolve_import_bone. intros (ib1 & E1 & E2)%bind_Ok.
  assert (pose_bone ib1 = pose_bone ib ∧ fcurves ib1 = fcurves ib) as [<- <-].
  { destruct (ab_parent (armature_bone ib)) as [p|]; [|by injection E1 as <-].
    destruct (bool_decide (pb_name p ∈ pn)); [|by injection E1 as <-].
    destruct (d !! pb_name p); [by injection E1 as <-|discriminate E1]. }
  destruct (ab_bind_pose (armature_bone ib)) as [[[oq ol] pq]|]; [by injection E2 as <-|].
  destruct (parent ib1), (ab_parent (armature_bone ib)); by injection E2 as <-.
Qed.

(** What a mapping that was built holds. *)
Lemma build_import_bones_mapped armature (bones : list Bone) mapping :
  build_import_bones armature bones = Ok mapping →
  psa_bone_names mapping = name <$> bones ∧
  missing mapping = missing_bone_names (name <$> bones) (ab_name <$> armature) ∧
  length (import_bones mapping) = length bones ∧
  (∀ j b, bones !! j = Some b → name b ∉ ab_name <$> armature →
     import_bones mapping !! j = Some None) ∧
  (∀ j ib, import_bones mapping !! j = Some (Some ib) →
     j ∈ dom (psa_to_armature_bone_indices mapping) ∧
     pose_bone ib ∈ ab_name <$> armature ∧ fcurves ib = []).
Proof.
  destruct (build_import_bones_unfold armature bones) as (indices & dict & Hdom & Hdict & ->).
  intros (ibs & Hibs & [= <-])%bind_Ok. cbn [psa_bone_names missing import_bones
    psa_to_armature_bone_indices].
  apply mapM_Forall2 in Hibs. split; [done|]. split; [done|].
  split; [by rewrite <-(Forall2_length _ _ _ Hibs), length_fmap|]. split.
  - intros j b Hb Hn.
    destruct (Forall2_lookup_l _ _ _ j (new_import_bone armature b) Hibs) as (r & Hr & E).
    { by rewrite list_lookup_fmap, Hb. }
    rewrite new_import_bone_None in E by done. by injection E as <-.
  - intros j ib Hj.
    destruct (Forall2_lookup_r _ _ _ j (Some ib) Hibs Hj) as (x & Hx & E).
    rewrite list_lookup_fmap in Hx. destruct (bones !! j) as [b|] eqn:Hb; [|done].
    injection Hx as <-. unfold resolve in E.
    destruct (new_import_bone armature b) as [ib0|] eqn:Hnew; [|discriminate E].
    apply bind_Ok in E as (ib1 & E & [= <-]).
    apply resolve_import_bone_pose in E as [-> ->].
    destruct (new_import_bone_pose armature b ib0 Hnew) as [-> Hn].
    split; [apply Hdom; by exists b|]. split; [done|].
    destruct (new_import_bone_Some armature b Hn) as (ab & _ & E).
    rewrite E in Hnew. by injection Hnew as <-.
Qed.

(** The ImportBones that are built without a PSA bone whose name is not the
    name of a bone of the armature. *)
Lemma build_import_bones_delete armature (bones : list Bone) mapping k bone :
  build_import_bones armature bones = Ok mapping →
  bones !! k = Some bone →
  name bone ∉ ab_name <$> armature →
  ∃ mapping', build_import_bones armature (delete k bones) = Ok mapping' ∧
    import_bones mapping' = delete k (import_bones mapping).
Proof.
  intros Hbuild Hk Hn.
  destruct (build_import_bones_unfold armature bones) as (indices & dict & Hdom & Hdict & E).
  destruct (build_import_bones_unfold armature (delete k bones))
    as (indices' & dict' & Hdom' & Hdict' & ->).
  rewrite E in Hbuild. apply bind_Ok in Hbuild as (ibs & Hibs & [= <-]).
  cbn [import_bones]. apply mapM_Forall2 in Hibs.
  assert (mapM (resolve (name <$> delete k bones) dict')
            (new_import_bone armature <$> delete k bones) = Ok (delete k ibs)) as ->.
  { apply mapM_Forall2. rewrite (list_fmap_delete (new_import_bone armature)).
    eapply Forall2_impl; [by apply Forall2_delete|].
    intros [ib|] r Hr; [|done]. unfold resolve in *.
    apply bind_Ok in Hr as (ib1 & Hr & [= <-]).
    rewrite (resolve_import_bone_agree _ (name <$> delete k bones) _ dict' _ _ Hr); [done|..].
    - intros n Hnp [Hna _]%Hdict.
      assert (n ∈ name <$> delete k bones) as Hnp'.
      { rewrite list_fmap_delete. apply (elem_of_delete_2 _ _ _ (name bone)); [|done|].
        - by rewrite list_lookup_fmap, Hk.
        - by intros ->. }
      split; [done|]. by apply Hdict'.
    - intros n Hnp Hnp'. apply Hnp. rewrite list_fmap_delete in Hnp'.
      by eapply elem_of_delete_1. }
  rewrite bind_Ok_l. eexists. split; [done|]. done.
Qed.

(** The f-curves of an action, on the ImportBones of a mapping. *)
Lemma create_fcurves_mapped (indices : gmap nat nat) (ibs : list (option ImportBone)) :
  (∀ j ib, ibs !! j = Some (Some ib) → j ∈ dom indices) →
  create_fcurves indices ibs = with_fcurves <$> ibs.
Proof.
  intros Hdom. unfold create_fcurves. apply list_eq. intros j.
  rewrite list_lookup_imap, list_lookup_fmap.
  destruct (ibs !! j) as [[ib|]|] eqn:Hj; [|by case_bool_decide|done].
  cbn [fmap option_fmap option_map]. by rewrite bool_decide_true by by eapply Hdom.
Qed.

End removal_facts.

Section bone_removal.
Import Psa PsaSpec.
Context `{Mathutils}.

Lemma cell_at_delete {A} (m : list (list A)) k f b :
  cell_at (delete k <$> m) f b = cell_at m f (skip k b).
Proof.
  unfold cell_at, skip. rewrite list_lookup_fmap. destruct (m !! f) as [row|]; [|done].
  apply list_lookup_delete.
Qed.

Lemma get2_cell_at {A} (m : list (list A)) f b :
  get2 m f b = match cell_at m f b with Some c => Ok c | None => Raise IndexError end.
Proof.
  unfold get2, cell_at, get. destruct (m !! f) as [row|]; [|done].
  rewrite bind_Ok_l. done.
Qed.

Lemma shaped_ext {A} (m m' : list (list (list A))) frames bones :
  shaped m frames bones → shaped m' frames bones →
  (∀ f b, cell_at m f b = cell_at m' f b) → m = m'.
Proof.
  intros [Hl Hrows] [Hl' Hrows'] Hcells. apply list_eq. intros f.
  destruct (m !! f) as [row|] eqn:Hrow.
  - destruct (lookup_lt_is_Some_2 m' f) as [row' Hrow'].
    { rewrite Hl', <-Hl. by eapply lookup_lt_Some. }
    rewrite Hrow'. f_equal. apply list_eq. intros b.
    specialize (Hcells f b). unfold cell_at in Hcells. by rewrite Hrow, Hrow' in Hcells.
  - symmetry. apply lookup_ge_None_2. apply lookup_ge_None_1 in Hrow. lia.
Qed.

Lemma shaped_delete {A} (m : list (list (list A))) frames bones k :
  shaped m frames bones → k < bones → shaped (delete k <$> m) frames (bones - 1).
Proof.
  intros [Hl Hrows] Hk. split; [by rewrite length_fmap|].
  intros f row' Hrow'. rewrite list_lookup_fmap in Hrow'.
  destruct (m !! f) as [row|] eqn:Hrow; [|done]. injection Hrow' as <-.
  destruct (Hrows f row Hrow) as [Hlr Hcells]. split.
  - rewrite length_delete; [lia|]. apply lookup_lt_is_Some_2. lia.
  - intros b cell Hcell. rewrite list_lookup_delete in Hcell. by eapply Hcells.
Qed.

Lemma ones_delete (m : DataMatrix) k : ones (delete k <$> m) = delete k <$> ones m.
Proof.
  unfold ones. rewrite <-!list_fmap_compose. apply list_fmap_ext. intros _ row _.
  apply (list_fmap_delete (λ cell : list Q, (λ _ : Q, true) <$> cell)).
Qed.

Lemma channel_delete {A} (m : list (list (list A))) k b c :
  channel (delete k <$> m) b c = channel m (skip k b) c.
Proof.
  unfold channel, skip. induction m as [|row m IH]; [done|].
  cbn [fmap list_fmap omap list_omap]. rewrite list_lookup_delete.
  fold (@fmap list _ _ _ (delete k) m). by rewrite IH.
Qed.

Lemma dropped_delete threshold (import_bones : list (option ImportBone)) (m : DataMatrix)
    k f b c :
  dropped threshold (delete k import_bones) (delete k <$> m) f b c =
    dropped threshold import_bones m f (skip k b) c.
Proof. unfold dropped. by rewrite list_lookup_delete, channel_delete. Qed.

(** The conversion of a sequence whose matrix has its shape. *)
Lemma convert_sequence_shaped import_bones frame_count (m : DataMatrix) :
  shaped m frame_count (length import_bones) →
  ∃ m', convert_sequence import_bones frame_count m = Ok m' ∧
    shaped m' frame_count (length import_bones) ∧
    ∀ f b, cell_at m' f b = converted (import_bones !! b) <$> cell_at m f b.
Proof.
  intros Hshape.
  destruct (convert_sequence_Ok import_bones frame_count m) as (m' & E & Hlen & Hm').
  { intros f b ib Hf Hb. apply (shaped_cell m frame_count (length import_bones)); [done..|].
    by eapply lookup_lt_Some. }
  assert (∀ f b cell, cell_at m f b = Some cell → f < frame_count ∧ length cell = 7) as Hcell.
  { intros f b cell Hc. unfold cell_at in Hc. destruct (m !! f) as [row|] eqn:Hrow; [|done].
    destruct Hshape as [Hl Hrows]. split; [rewrite <-Hl; by eapply lookup_lt_Some|].
    destruct (Hrows f row Hrow) as [_ Hc7]. by eapply Hc7. }
  assert (∀ f b, cell_at m' f b = converted (import_bones !! b) <$> cell_at m f b) as Hm.
  { intros f b. rewrite Hm'. destruct (decide (f < frame_count)); [done|].
    destruct (cell_at m f b) as [cell|] eqn:Hc; [|done].
    destruct (Hcell f b cell Hc). lia. }
  exists m'. split; [done|]. split; [|done].
  apply (shaped_pointwise m m' frame_count (length import_bones)
           (λ f b, converted (import_bones !! b))); [done..|].
  intros f b cell Hc. destruct (Hcell f b cell Hc) as [_ H7].
  destruct (import_bones !! b) as [[ib|]|]; [|done..].
  by apply calculate_fcurve_data_Ok.
Qed.

Lemma convert_sequence_delete import_bones frame_count (m m1 : DataMatrix) k :
  shaped m frame_count (length import_bones) →
  import_bones !! k = Some None →
  convert_sequence import_bones frame_count m = Ok m1 →
  shaped m1 frame_count (length import_bones) ∧
  convert_sequence (delete k import_bones) frame_count (delete k <$> m)
    = Ok (delete k <$> m1).
Proof.
  intros Hshape Hk E.
  assert (k < length import_bones) as Hlt by by eapply lookup_lt_Some.
  destruct (convert_sequence_shaped import_bones frame_count m Hshape) as (m1' & E' & Hs & Hm).
  rewrite E in E'. injection E' as <-. split; [done|].
  assert (length (delete k import_bones) = length import_bones - 1) as Hld.
  { by rewrite length_delete by by eexists. }
  destruct (convert_sequence_shaped (delete k import_bones) frame_count (delete k <$> m))
    as (m2 & -> & Hs2 & Hm2).
  { rewrite Hld. by apply shaped_delete. }
  f_equal. apply (shaped_ext _ _ frame_count (length import_bones - 1)).
  - by rewrite <-Hld.
  - by apply shaped_delete.
  - intros f b. by rewrite Hm2, !cell_at_delete, Hm, list_lookup_delete.
Qed.

Lemma clean_keys_delete threshold import_bones frame_count (m : DataMatrix) w k :
  shaped m frame_count (length import_bones) →
  (∀ b bone, import_bones !! b = Some (Some bone) → length (fcurves bone) = 7) →
  import_bones !! k = Some None →
  clean_keys threshold import_bones m (ones m) = Ok w →
  clean_keys threshold (delete k import_bones) (delete k <$> m) (ones (delete k <$> m))
    = Ok (delete k <$> w).
Proof.
  intros Hshape Hcurves Hk E.
  assert (k < length import_bones) as Hlt by by eapply lookup_lt_Some.
  assert (∀ (m : DataMatrix) f b cell, shaped m frame_count (length import_bones) →
    cell_at m f b = Some cell → length cell = 7) as Hcell.
  { intros m0 f b cell [Hl Hrows] Hc. unfold cell_at in Hc.
    destruct (m0 !! f) as [row|] eqn:Hrow; [|done].
    destruct (Hrows f row Hrow) as [_ Hc7]. by eapply Hc7. }
  destruct (clean_keys_channel threshold import_bones m frame_count Hshape Hcurves)
    as (w1 & E1 & Hlw & Hw & _).
  rewrite E in E1. injection E1 as <-.
  assert (length (delete k import_bones) = length import_bones - 1) as Hld.
  { by rewrite length_delete by by eexists. }
  destruct (clean_keys_channel threshold (delete k import_bones) (delete k <$> m) frame_count)
    as (w2 & -> & Hlw2 & Hw2 & _).
  { rewrite Hld. by apply shaped_delete. }
  { intros b bone Hb. rewrite list_lookup_delete in Hb. by eapply Hcurves. }
  f_equal. apply (shaped_ext _ _ frame_count (length import_bones - 1)).
  - rewrite <-Hld.
    apply (shaped_pointwise (delete k <$> m) w2 frame_count (length (delete k import_bones))
             (λ f b cell, imap (λ c _, negb (dropped threshold (delete k import_bones)
                                               (delete k <$> m) f b c)) cell)).
    + rewrite Hld. by apply shaped_delete.
    + rewrite length_fmap. destruct Hshape. lia.
    + done.
    + intros f b cell Hc. rewrite length_imap. rewrite cell_at_delete in Hc.
      by eapply Hcell.
  - apply shaped_delete; [|done].
    apply (shaped_pointwise m w frame_count (length import_bones)
             (λ f b cell, imap (λ c _, negb (dropped threshold import_bones m f b c)) cell)).
    + done.
    + destruct Hshape. lia.
    + done.
    + intros f b cell Hc. rewrite length_imap. by eapply Hcell.
  - intros f b. rewrite Hw2, !cell_at_delete, Hw.
    destruct (cell_at m f (skip k b)) as [cell|]; [|done].
    cbn [fmap option_fmap option_map]. f_equal. apply imap_ext. intros c x _.
    by rewrite dropped_delete.
Qed.

End bone_removal.

Lemma for_range_from_ext {St} (body body' : nat → St → result St) n : ∀ start (s : St),
  (∀ i s, body' i s = body i s) →
  for_range_from start n body' s = for_range_from start n body s.
Proof.
  induction n as [|n IH]; intros start s Hbody; [done|].
  cbn [for_range_from]. rewrite Hbody. destruct (body start s) as [s1|e]; [|done].
  rewrite !bind_Ok_l. by apply IH.
Qed.

Lemma for_range_from_preserve {St} (P : St → Prop) (body : nat → St → result St) n :
  ∀ start (s s' : St),
  (∀ i s s1, body i s = Ok s1 → P s → P s1) →
  P s → for_range_from start n body s = Ok s' → P s'.
Proof.
  induction n as [|n IH]; intros start s s' Hbody Hs E.
  - by injection E as <-.
  - cbn [for_range_from] in E. apply bind_Ok in E as (s1 & E1 & E).
    eapply IH; [done| |done]. by eapply Hbody.
Qed.

Lemma for_enumerate_from_elem {A St} (P : St → Prop) (l : list A) body :
  ∀ start (s s' : St),
  (∀ i x s s1, x ∈ l → body i x s = Ok s1 → P s → P s1) →
  P s → for_enumerate_from start l body s = Ok s' → P s'.
Proof.
  induction l as [|x l IH]; intros start s s' Hbody Hs E.
  - by injection E as <-.
  - cbn [for_enumerate_from] in E. apply bind_Ok in E as (s1 & E1 & E).
    eapply IH; [|by eapply (Hbody start x); [left|..]|done].
    intros i y t t1 Hy. apply Hbody. by right.
Qed.

Lemma for_enumerate_from_shift {A St} (l : list A) (body body' : nat → A → St → result St) :
  ∀ a b (s : St),
  (∀ j y s, body' (a + j) y s = body (b + j) y s) →
  for_enumerate_from a l body' s = for_enumerate_from b l body s.
Proof.
  induction l as [|x l IH]; intros a b s Hbody; [done|].
  cbn [for_enumerate_from]. specialize (Hbody 0 x s) as Hx. rewrite !Nat.add_0_r in Hx.
  rewrite Hx. destruct (body b x s) as [s1|e]; [|done]. rewrite !bind_Ok_l.
  apply IH. intros j y t. specialize (Hbody (S j) y t).
  by rewrite !Nat.add_succ_r in Hbody.
Qed.

(** A loop over a list without an element on which the body does nothing. *)
Lemma for_enumerate_from_delete {A St} (l : list A) (body body' : nat → A → St → result St) :
  ∀ k x start (s : St),
  l !! k = Some x →
  (∀ s, body (start + k) x s = Ok s) →
  (∀ j y s, body' (start + j) y s = body (start + PsaSpec.skip k j) y s) →
  for_enumerate_from start (delete k l) body' s = for_enumerate_from start l body s.
Proof.
  induction l as [|y l IH]; intros k x start s Hk Hskip Hbody; [done|].
  destruct k as [|k].
  - injection Hk as ->. cbn [delete list_delete for_enumerate_from].
    rewrite <-(Nat.add_0_r start) at 2. rewrite Hskip, bind_Ok_l.
    apply for_enumerate_from_shift. intros j z t. rewrite Hbody. unfold PsaSpec.skip.
    rewrite decide_False by lia. f_equal. lia.
  - cbn [delete list_delete for_enumerate_from].
    specialize (Hbody 0 y s) as Hy. unfold PsaSpec.skip in Hy.
    rewrite decide_True, !Nat.add_0_r in Hy by lia. rewrite Hy.
    destruct (body start y s) as [s1|e]; [|done]. rewrite !bind_Ok_l.
    apply (IH k x); [done|..].
    + intros t. rewrite <-Hskip. f_equal. lia.
    + intros j z t. specialize (Hbody (S j) z t). rewrite Nat.add_succ_r in Hbody.
      cbn [Nat.add]. rewrite Hbody. f_equal. unfold PsaSpec.skip.
      destruct (decide (j < k)); [rewrite decide_True by lia|rewrite decide_False by lia]; lia.
Qed.

Section keyframe_facts.
Import Psa PsaSpec.

Lemma zip_keys_fcurve frame_index fcurves : ∀ write key_data key,
  key ∈ zip_keys frame_index fcurves write key_data → kf_fcurve key ∈ fcurves.
Proof.
  induction fcurves as [|fcurve fcurves IH]; intros write key_data key Hkey.
  - by apply elem_of_nil in Hkey.
  - destruct write as [|should_write write]; [by apply elem_of_nil in Hkey|].
    destruct key_data as [|datum key_data]; [by apply elem_of_nil in Hkey|].
    cbn [zip_keys] in Hkey. apply elem_of_app in Hkey as [Hkey|Hkey].
    + destruct should_write; [|by apply elem_of_nil in Hkey].
      apply list_elem_of_singleton in Hkey as ->. by left.
    + right. by eapply IH.
Qed.

(** Every key is a key of an f-curve of an ImportBone. *)
Lemma write_keyframes_fcurves import_bones frame_count (m : DataMatrix) (w : WriteMatrix) keys :
  write_keyframes import_bones frame_count m w = Ok keys →
  ∀ key, key ∈ keys → ∃ bone, Some bone ∈ import_bones ∧ kf_fcurve key ∈ fcurves bone.
Proof.
  unfold write_keyframes, for_range. intros E.
  set (P := λ keys : list Keyframe, ∀ key, key ∈ keys →
              ∃ bone, Some bone ∈ import_bones ∧ kf_fcurve key ∈ fcurves bone).
  change (P keys). eapply (for_range_from_preserve P); [| |exact E].
  - intros f s s1 Es Hs. unfold for_enumerate in Es.
    eapply (for_enumerate_from_elem P); [|exact Hs|exact Es].
    intros b [bone|] t t1 Hb Et Ht; [|by injection Et as <-].
    apply bind_Ok in Et as (write & _ & Et).
    destruct (any write); [|by injection Et as <-].
    apply bind_Ok in Et as (key_data & _ & [= <-]).
    intros key [Hkey|Hkey]%elem_of_app; [by apply Ht|].
    exists bone. split; [done|]. by eapply zip_keys_fcurve.
  - intros key Hkey. by apply elem_of_nil in Hkey.
Qed.

Lemma write_keyframes_delete import_bones frame_count (m : DataMatrix) (w : WriteMatrix) k :
  import_bones !! k = Some None →
  write_keyframes (delete k import_bones) frame_count (delete k <$> m) (delete k <$> w)
    = write_keyframes import_bones frame_count m w.
Proof.
  intros Hk. unfold write_keyframes, for_range. apply for_range_from_ext.
  intros f keys. unfold for_enumerate.
  apply (for_enumerate_from_delete import_bones _ _ k None 0 keys Hk); [done|].
  intros j [bone|] t; [|done]. cbn [Nat.add].
  by rewrite !get2_cell_at, !cell_at_delete.
Qed.

End keyframe_facts.

Section unmapped_bones.
Import Psa PsaSpec.
Context `{Mathutils}.

Lemma fmap_const_replicate {A B} (f : A → B) (l : list A) y :
  (∀ x, x ∈ l → f x = y) → f <$> l = replicate (length l) y.
Proof.
  induction l as [|x l IH]; intros Hf; [done|].
  cbn [fmap list_fmap length replicate]. rewrite (Hf x) by by left.
  f_equal. apply IH. intros z Hz. apply Hf. by right.
Qed.

(** [np.ones(shape)] is a function of the shape. *)
Lemma ones_shaped (m : DataMatrix) frames bones :
  shaped m frames bones → ones m = replicate frames (replicate bones (replicate 7 true)).
Proof.
  intros [Hl Hrows]. unfold ones. rewrite <-Hl. apply fmap_const_replicate.
  intros row [f Hrow]%list_elem_of_lookup. destruct (Hrows f row Hrow) as [<- Hcells].
  apply fmap_const_replicate. intros cell [b Hcell]%list_elem_of_lookup.
  rewrite <-(Hcells b cell Hcell). by apply fmap_const_replicate.
Qed.

Lemma with_fcurves_lookup (ibs : list (option ImportBone)) b bone :
  (with_fcurves <$> ibs) !! b = Some (Some bone) →
  ∃ ib, ibs !! b = Some (Some ib) ∧ pose_bone bone = pose_bone ib ∧
    fcurves bone = new_fcurves (pose_bone ib).
Proof.
  rewrite list_lookup_fmap. destruct (ibs !! b) as [[ib|]|]; [|done..].
  intros [= <-]. by exists ib.
Qed.

Lemma new_fcurves_bone pose_bone fcurve :
  fcurve ∈ new_fcurves pose_bone → fc_bone fcurve = pose_bone.
Proof. unfold new_fcurves. rewrite !elem_of_cons, elem_of_nil. naive_solver. Qed.

(** The import of a sequence without the samples of a bone that has no
    ImportBone. *)
Lemma import_sequence_delete options mapping mapping' sequence action k :
  (∀ j ib, import_bones mapping !! j = Some (Some ib) →
     j ∈ dom (psa_to_armature_bone_indices mapping)) →
  (∀ j ib, import_bones mapping' !! j = Some (Some ib) →
     j ∈ dom (psa_to_armature_bone_indices mapping')) →
  import_bones mapping' = delete k (import_bones mapping) →
  import_bones mapping !! k = Some None →
  shaped (seq_data sequence) (frame_count sequence) (length (import_bones mapping)) →
  import_sequence options mapping sequence = Ok action →
  import_sequence options mapping' (without_bone k sequence)
    = Ok (action_without_bone k action).
Proof.
  intros Hdom Hdom' Hibs Hk Hshape. unfold import_sequence, import_sequence_with.
  rewrite (create_fcurves_mapped _ _ Hdom), (create_fcurves_mapped _ _ Hdom'), Hibs.
  rewrite (list_fmap_delete with_fcurves).
  set (IB := with_fcurves <$> import_bones mapping).
  assert (IB !! k = Some None) as HkIB.
  { unfold IB. by rewrite list_lookup_fmap, Hk. }
  assert (length IB = length (import_bones mapping)) as HlIB.
  { unfold IB. by rewrite length_fmap. }
  rewrite <-HlIB in Hshape.
  assert (∀ b bone, IB !! b = Some (Some bone) → length (fcurves bone) = 7) as Hcurves.
  { intros b bone (ib & _ & _ & ->)%with_fcurves_lookup. done. }
  intros (m1 & E1 & (w & E2 & (keys & E3 & [= <-])%bind_Ok)%bind_Ok)%bind_Ok.
  cbn [seq_data frame_count seq_name without_bone action_without_bone act_name act_data
       act_write act_keys].
  destruct (convert_sequence_delete IB _ _ m1 k Hshape HkIB E1) as [Hs1 ->].
  rewrite bind_Ok_l, ones_delete.
  rewrite (ones_shaped _ _ _ Hshape), <-(ones_shaped _ _ _ Hs1) in *.
  rewrite <-ones_delete.
  destruct (should_clean_keys options).
  - rewrite (clean_keys_delete _ _ _ _ _ _ Hs1 Hcurves HkIB E2), bind_Ok_l.
    by rewrite write_keyframes_delete, E3, bind_Ok_l.
  - injection E2 as <-. rewrite bind_Ok_l, ones_delete.
    by rewrite write_keyframes_delete, E3, bind_Ok_l.
Qed.

(** The f-curves of the keys of an action are f-curves of pose bones of the
    armature. *)
Lemma import_sequence_keys armature bones options mapping sequence action key :
  build_import_bones armature bones = Ok mapping →
  import_sequence options mapping sequence = Ok action →
  key ∈ act_keys action →
  fc_bone (kf_fcurve key) ∈ ab_name <$> armature.
Proof.
  intros (_ & _ & _ & _ & Hmapped)%build_import_bones_mapped.
  unfold import_sequence, import_sequence_with.
  rewrite create_fcurves_mapped by (intros j ib Hj; by apply (Hmapped j ib)).
  intros (m1 & E1 & (w & E2 & (keys & E3 & [= <-])%bind_Ok)%bind_Ok)%bind_Ok.
  cbn [act_keys]. intros Hkey.
  destruct (write_keyframes_fcurves _ _ _ _ _ E3 key Hkey) as (bone & Hbone & Hfc).
  apply list_elem_of_lookup in Hbone as [b Hb].
  apply with_fcurves_lookup in Hb as (ib & Hib & _ & Hfcs).
  rewrite Hfcs in Hfc. apply new_fcurves_bone in Hfc as ->.
  by apply (Hmapped b ib).
Qed.

(** C6: a PSA bone whose name is not the name of a bone of the armature is
    in the reported set of missing bones and has no ImportBone, no key of any
    action is a key of an f-curve of a bone of its name, and the import of the
    same file without this bone and without its samples builds the same
    ImportBones for the other bones and gives the same actions: the same keys,
    and the same converted samples and flags for the other bones. *)
Theorem C6_unmapped_bone armature bones sequences options mapping actions k bone :
  import_psa armature bones sequences options = Ok (mapping, actions) →
  (∀ sequence, sequence ∈ sequences →
     shaped (seq_data sequence) (frame_count sequence) (length bones)) →
  bones !! k = Some bone →
  name bone ∉ ab_name <$> armature →
  name bone ∈ missing mapping ∧
  import_bones mapping !! k = Some None ∧
  (∀ action key, action ∈ actions → key ∈ act_keys action →
     fc_bone (kf_fcurve key) ≠ name bone) ∧
  ∃ mapping',
    import_psa armature (delete k bones) (without_bone k <$> sequences) options
      = Ok (mapping', action_without_bone k <$> actions) ∧
    import_bones mapping' = delete k (import_bones mapping).
Proof.
  unfold import_psa.
  intros (mapping0 & Hbuild & (actions0 & Hactions & [= -> ->])%bind_Ok)%bind_Ok
    Hshapes Hk Hn.
  apply mapM_Forall2 in Hactions.
  destruct (build_import_bones_mapped _ _ _ Hbuild)
    as (Hnames & Hmissing & Hlen & Hnone & Hmapped).
  destruct (build_import_bones_delete _ _ _ k bone Hbuild Hk Hn) as (mapping' & Hbuild' & Hibs).
  destruct (build_import_bones_mapped _ _ _ Hbuild') as (_ & _ & _ & _ & Hmapped').
  split; [|split; [|split]].
  - rewrite Hmissing. unfold missing_bone_names.
    rewrite elem_of_difference, !elem_of_list_to_set. split; [|done].
    apply list_elem_of_fmap. exists bone. split; [done|]. by eapply list_elem_of_lookup_2.
  - by eapply Hnone.
  - intros action key [i Hi]%list_elem_of_lookup Hkey Heq.
    destruct (Forall2_lookup_r _ _ _ i action Hactions Hi) as (sequence & _ & E).
    apply Hn. rewrite <-Heq.
    eapply import_sequence_keys; [exact Hbuild|exact E|exact Hkey].
  - exists mapping'. split; [|done]. rewrite Hbuild', bind_Ok_l.
    assert (mapM (import_sequence options mapping') (without_bone k <$> sequences)
              = Ok (action_without_bone k <$> actions)) as ->; [|done].
    apply mapM_Forall2, Forall2_fmap, Forall2_same_length_lookup.
    split; [by eapply Forall2_length|]. intros i sequence action Hs Ha.
    apply (import_sequence_delete options mapping).
    + intros j ib Hj. by apply (Hmapped j ib).
    + intros j ib Hj. by apply (Hmapped' j ib).
    + done.
    + by eapply Hnone.
    + rewrite Hlen. apply Hshapes. by eapply list_elem_of_lookup_2.
    + destruct (Forall2_lookup_l _ _ _ i sequence Hactions Hs) as (action' & Ha' & E).
      congruence.
Qed.

End unmapped_bones.

Section unmapped_bone_examples.
Import Psa PsaSpec PsaExamples.
#[local] Existing Instance Exact.mathutils.

Lemma C6_unmapped_bone_witness :
  ∃ mapping actions,
    import_psa armature bones [idle] clean = Ok (mapping, actions) ∧
    name (mkBone "Spine") ∈ missing mapping ∧
    import_bones mapping !! 1 = Some None ∧
    (∀ action key, action ∈ actions → key ∈ act_keys action →
       fc_bone (kf_fcurve key) ≠ name (mkBone "Spine")) ∧
    ∃ mapping',
      import_psa armature (delete 1 bones) (without_bone 1 <$> [idle]) clean
        = Ok (mapping', action_without_bone 1 <$> actions) ∧
      import_bones mapping' = delete 1 (import_bones mapping).
Proof.
  eexists _, _. split; [reflexivity|].
  apply (C6_unmapped_bone armature bones [idle] clean _ _ 1 (mkBone "Spine")).
  - reflexivity.
  - intros sequence ->%list_elem_of_singleton. apply shapedb_spec. reflexivity.
  - reflexivity.
  - apply (bool_decide_eq_false_1 (name (mkBone "Spine") ∈ ab_name <$> armature)).
    reflexivity.
Defined.

(** The import of the example: "Spine" is reported, and the keys are those
    of "Root" and "Arm". *)
Example import_idle :
  ∃ mapping action,
    import_psa armature bones [idle] clean = Ok (mapping, [action]) ∧
    missing mapping = {["Spine"]} ∧
    import_bones mapping !! 1 = Some None ∧
    length (act_keys action) = 20 ∧
    list_to_set (fc_bone ∘ kf_fcurve <$> act_keys action) = ({["Root"; "Arm"]} : gset string).
Proof. eexists _, _. split; [reflexivity|]. repeat split; reflexivity. Qed.

End unmapped_bone_examples.

(** ** The bone mapping of [import_psa] *)

Section mapping_properties.
Import Psa PsaSpec PsaKeys.
Context `{Mathutils}.

Lemma resolve_import_bone_fields pn (d : gmap string nat) ib r :
  resolve_import_bone pn d ib = Ok r →
  psa_bone r = psa_bone ib ∧ armature_bone r = armature_bone ib ∧
  parent r =
    match ab_parent (armature_bone ib) with
    | Some p => if bool_decide (pb_name p ∈ pn) then Some (pb_name p) else parent ib
    | None => parent ib
    end ∧
  (∀ p, ab_parent (armature_bone ib) = Some p → pb_name p ∈ pn → is_Some (d !! pb_name p)) ∧
  match ab_bind_pose (armature_bone ib) with
  | Some (q, l, pq) => orig_quat r = q ∧ orig_loc r = l ∧ post_quat r = pq
  | None => post_quat r = conjugated (orig_quat r)
  end.
Proof.
  unfold resolve_import_bone. intros (ib1 & E1 & E2)%bind_Ok.
  assert (psa_bone ib1 = psa_bone ib ∧ armature_bone ib1 = armature_bone ib ∧
    parent ib1 =
      match ab_parent (armature_bone ib) with
      | Some p => if bool_decide (pb_name p ∈ pn) then Some (pb_name p) else parent ib
      | None => parent ib
      end ∧
    (∀ p, ab_parent (armature_bone ib) = Some p → pb_name p ∈ pn → is_Some (d !! pb_name p)))
    as (<- & Hab & <- & Hd).
  { destruct (ab_parent (armature_bone ib)) as [p|]; [|by injection E1 as <-].
    case_bool_decide as Hp.
    2:{ injection E1 as <-. repeat split; [done..|]. by intros p' [= <-] ?. }
    destruct (d !! pb_name p) as [i|] eqn:Hd; [|discriminate E1].
    injection E1 as <-. repeat split; [done..|]. intros p' [= <-] _. by rewrite Hd. }
  assert (psa_bone r = psa_bone ib1 ∧ armature_bone r = armature_bone ib1 ∧
          parent r = parent ib1) as (-> & -> & ->).
  { destruct (ab_bind_pose (armature_bone ib)) as [[[oq ol] pq]|]; [by injection E2 as <-|].
    destruct (parent ib1) eqn:Hp1, (ab_parent (armature_bone ib)); by injection E2 as <-. }
  split; [done|]. split; [done|]. split; [done|]. split; [done|].
  destruct (ab_bind_pose (armature_bone ib)) as [[[oq ol] pq]|]; [by injection E2 as <-|].
  clear Hd. destruct (parent ib1), (ab_parent (armature_bone ib)); by injection E2 as <-.
Qed.

(** The ImportBone of the PSA bone [j] of a mapping that was built. *)
Lemma build_import_bones_lookup armature (bones : list Bone) mapping j b :
  build_import_bones armature bones = Ok mapping →
  bones !! j = Some b →
  ∃ (dict : gmap string nat) r,
    (∀ n, is_Some (dict !! n) ↔ n ∈ ab_name <$> armature ∧ n ∈ name <$> bones) ∧
    resolve (name <$> bones) dict (new_import_bone armature b) = Ok r ∧
    import_bones mapping !! j = Some r.
Proof.
  destruct (build_import_bones_unfold armature bones) as (indices & dict & Hdom & Hdict & ->).
  intros (ibs & Hibs & [= <-])%bind_Ok Hb. cbn [import_bones].
  apply mapM_Forall2 in Hibs.
  destruct (Forall2_lookup_l _ _ _ j (new_import_bone armature b) Hibs) as (r & Hr & E).
  { by rewrite list_lookup_fmap, Hb. }
  by exists dict, r.
Qed.

Lemma build_import_bones_mapped_bone armature (bones : list Bone) mapping j b :
  build_import_bones armature bones = Ok mapping →
  bones !! j = Some b →
  name b ∈ ab_name <$> armature →
  ∃ ib ab (dict : gmap string nat),
    (∀ n, is_Some (dict !! n) ↔ n ∈ ab_name <$> armature ∧ n ∈ name <$> bones) ∧
    import_bones mapping !! j = Some (Some ib) ∧
    find_bone armature (name b) = Ok ab ∧
    resolve_import_bone (name <$> bones) dict
      (mkImportBone b None ab (name b) vec_zero quat_identity quat_identity []) = Ok ib.
Proof.
  intros Hbuild Hb Hn.
  destruct (build_import_bones_lookup _ _ _ _ _ Hbuild Hb) as (dict & r & Hdict & Hr & Hj).
  destruct (new_import_bone_Some armature b Hn) as (ab & Hab & Hnew).
  rewrite Hnew in Hr. unfold resolve in Hr. apply bind_Ok in Hr as (ib & Hib & [= <-]).
  by exists ib, ab, dict.
Qed.

(** X1: a PSA bone has an ImportBone exactly when its name is the name of a bone
    of the armature: the ImportBone is then on the first armature bone of
    that name; otherwise [None] stands in its place. *)
Theorem import_bones_by_name armature (bones : list Bone) mapping :
  build_import_bones armature bones = Ok mapping →
  psa_bone_names mapping = name <$> bones ∧
  length (import_bones mapping) = length bones ∧
  ∀ j b, bones !! j = Some b →
    if decide (name b ∈ ab_name <$> armature)
    then ∃ ib, import_bones mapping !! j = Some (Some ib) ∧ psa_bone ib = b ∧
           pose_bone ib = name b ∧ find_bone armature (name b) = Ok (armature_bone ib) ∧
           ab_name (armature_bone ib) = name b
    else import_bones mapping !! j = Some None.
Proof.
  intros Hbuild.
  destruct (build_import_bones_mapped _ _ _ Hbuild) as (Hnames & _ & Hlen & Hnone & _).
  split; [done|]. split; [done|]. intros j b Hb.
  destruct (decide (name b ∈ ab_name <$> armature)) as [Hn|Hn]; [|by eapply Hnone].
  destruct (build_import_bones_mapped_bone _ _ _ _ _ Hbuild Hb Hn)
    as (ib & ab & dict & _ & Hj & Hab & Hib).
  exists ib. split; [done|].
  destruct (resolve_import_bone_fields _ _ _ _ Hib) as (-> & -> & _).
  destruct (resolve_import_bone_pose _ _ _ _ Hib) as [-> _]. cbn.
  split; [done|]. split; [done|]. split; [done|].
  destruct (find_bone_Ok armature (name b) Hn) as (ab' & Hab' & <-). congruence.
Qed.

(** X3: the names that are reported as missing are the names of the PSA bones
    that are left without ImportBone; none is reported exactly when every PSA
    bone has one. *)
Theorem missing_bones_are_unmapped armature (bones : list Bone) mapping :
  build_import_bones armature bones = Ok mapping →
  (∀ n, n ∈ missing mapping ↔
     ∃ j b, bones !! j = Some b ∧ name b = n ∧ import_bones mapping !! j = Some None) ∧
  (missing mapping = ∅ ↔ ∀ j, import_bones mapping !! j ≠ Some None).
Proof.
  intros Hbuild.
  destruct (build_import_bones_mapped _ _ _ Hbuild) as (_ & Hmissing & Hlen & Hnone & Hmapped).
  assert (∀ j b, bones !! j = Some b →
    (import_bones mapping !! j = Some None ↔ name b ∉ ab_name <$> armature)) as Hiff.
  { intros j b Hb. split; [|by apply Hnone].
    intros Hj Hn.
    destruct (build_import_bones_mapped_bone _ _ _ _ _ Hbuild Hb Hn) as (ib & ? & ? & _ & Hj' & _).
    congruence. }
  assert (∀ n, n ∈ missing mapping ↔
    ∃ j b, bones !! j = Some b ∧ name b = n ∧ import_bones mapping !! j = Some None) as Hmem.
  { intros n. rewrite Hmissing. unfold missing_bone_names.
    rewrite elem_of_difference, !elem_of_list_to_set, list_elem_of_fmap. split.
    - intros [(b & -> & [j Hb]%list_elem_of_lookup) Hn]. exists j, b.
      split; [done|]. split; [done|]. by apply (Hiff j b).
    - intros (j & b & Hb & <- & Hj). split; [|by apply (Hiff j b)].
      exists b. split; [done|]. by eapply list_elem_of_lookup_2. }
  split; [done|]. split.
  - intros Hempty j Hj.
    destruct (lookup_lt_is_Some_2 bones j) as [b Hb].
    { rewrite <-Hlen. by eapply lookup_lt_Some. }
    assert (name b ∈ missing mapping) as Hin by (apply Hmem; by exists j, b).
    rewrite Hempty in Hin. by apply not_elem_of_empty in Hin.
  - intros Hall. apply set_eq. intros n. rewrite Hmem. split.
    + intros (j & b & _ & _ & Hj). by destruct (Hall j).
    + intros Hn. by apply not_elem_of_empty in Hn.
Qed.

End mapping_properties.

Section mapping_errors.
Import Psa PsaSpec PsaKeys.
Context `{Mathutils}.


Lemma mapM_Raise {A B} (f : A → result B) (l : list A) e :
  mapM f l = Raise e → ∃ x, x ∈ l ∧ f x = Raise e.
Proof.
  induction l as [|x l IH]; [done|]. cbn [mapM].
  intros [Hx|(y & Hy & [Hl|(ys & Hys & [=])]%bind_Raise)]%bind_Raise.
  - exists x. split; [by left|done].
  - destruct (IH Hl) as (z & Hz & Ez). exists z. split; [by right|done].
Qed.








(** X6: the parent of an ImportBone is the name of the parent of its armature
    bone, when that is the name of a PSA bone, and then a PSA bone of that
    name has an ImportBone; its bind pose is the one stored in the custom
    properties of the armature bone when there is one, and otherwise
    [post_quat] is the conjugate of [orig_quat]. *)
Theorem import_bone_parent_and_bind_pose armature (bones : list Bone) mapping j ib :
  build_import_bones armature bones = Ok mapping →
  import_bones mapping !! j = Some (Some ib) →
  (∀ n, parent ib = Some n ↔
     ∃ p, ab_parent (armature_bone ib) = Some p ∧ pb_name p = n ∧ n ∈ name <$> bones) ∧
  (∀ n, parent ib = Some n →
     ∃ k parent_bone, import_bones mapping !! k = Some (Some parent_bone) ∧
       pose_bone parent_bone = n) ∧
  match ab_bind_pose (armature_bone ib) with
  | Some (q, l, pq) => orig_quat ib = q ∧ orig_loc ib = l ∧ post_quat ib = pq
  | None => post_quat ib = conjugated (orig_quat ib)
  end.
Proof.
  intros Hbuild Hj.
  destruct (build_import_bones_mapped _ _ _ Hbuild) as (_ & _ & Hlen & Hnone & _).
  destruct (lookup_lt_is_Some_2 bones j) as [b Hb].
  { rewrite <-Hlen. by eapply lookup_lt_Some. }
  destruct (decide (name b ∈ ab_name <$> armature)) as [Hn|Hn].
  2:{ rewrite (Hnone j b Hb Hn) in Hj. done. }
  destruct (build_import_bones_mapped_bone _ _ _ _ _ Hbuild Hb Hn)
    as (ib' & ab & dict & Hdict & Hj' & Hab & Hib).
  assert (ib' = ib) as -> by congruence.
  destruct (resolve_import_bone_fields _ _ _ _ Hib) as (_ & Harm & Hparent & Hd & Hpose).
  cbn in Harm, Hparent, Hd, Hpose. rewrite Harm.
  assert (∀ n, parent ib = Some n ↔
    ∃ p, ab_parent ab = Some p ∧ pb_name p = n ∧ n ∈ name <$> bones) as Hiff.
  { intros n. rewrite Hparent. destruct (ab_parent ab) as [p|]; [|naive_solver].
    case_bool_decide; naive_solver. }
  split; [done|]. split; [|done].
  intros n (p & Hp & <- & Hpn)%Hiff.
  destruct (Hd p Hp Hpn) as [i Hi].
  assert (pb_name p ∈ ab_name <$> armature) as Hpa.
  { apply (Hdict (pb_name p)). by eexists. }
  apply list_elem_of_fmap in Hpn as (b' & Hname & [k Hk]%list_elem_of_lookup).
  rewrite Hname in Hpa.
  destruct (build_import_bones_mapped_bone _ _ _ _ _ Hbuild Hk Hpa)
    as (pib & ab' & dict' & _ & Hkj & _ & Hpib).
  exists k, pib. split; [done|].
  apply resolve_import_bone_pose in Hpib as [-> _]. by rewrite Hname.
Qed.

End mapping_errors.

Section bone_indices.
Import Psa PsaSpec PsaKeys.
Context `{Mathutils}.

Lemma index_of_first_index (names : list string) n :
  index_of names n =
    match first_index names n with Some i => Ok i | None => Raise ValueError end.
Proof.
  unfold index_of, first_index. by destruct (list_find _ names) as [[i x]|].
Qed.

(** The first loop, index by index. *)
Lemma map_bones_lookup (names : list string) (bones : list Bone) :
  ∃ indices, for_enumerate bones (map_bone names) (∅, []) = Ok (indices, name <$> bones) ∧
    ∀ j, indices !! j = bones !! j ≫= λ b, first_index names (name b).
Proof.
  unfold for_enumerate.
  destruct (for_enumerate_from_inv
    (λ i (st : gmap nat nat * list string),
       st.2 = name <$> take i bones ∧
       ∀ j, st.1 !! j = if decide (j < i) then bones !! j ≫= λ b, first_index names (name b)
                        else None)
    bones (map_bone names) 0 (∅, [])) as ([indices pn] & E & Hpn & Hlookup).
  - split; [done|]. intros j. cbn [fst snd]. rewrite lookup_empty.
    by rewrite decide_False by lia.
  - intros i x [indices pn] Hx [Hpn Hlookup]. cbn [fst snd] in *.
    assert (take (S i) bones = take i bones ++ [x]) as Htake by by apply take_S_r.
    unfold map_bone. rewrite index_of_first_index.
    destruct (first_index names (name x)) as [a|] eqn:Ha.
    + eexists. split; [done|]. cbn [fst snd]. split; [by rewrite Htake, fmap_app, Hpn|].
      intros j. destruct (decide (j = i)) as [->|Hne].
      * rewrite lookup_insert_eq, decide_True, Hx by lia. done.
      * rewrite lookup_insert_ne, Hlookup by done.
        destruct (decide (j < i)); [by rewrite decide_True by lia|].
        by rewrite decide_False by lia.
    + eexists. split; [done|]. cbn [fst snd]. split; [by rewrite Htake, fmap_app, Hpn|].
      intros j. rewrite Hlookup. destruct (decide (j = i)) as [->|Hne].
      * rewrite decide_False, decide_True, Hx by lia. done.
      * destruct (decide (j < i)); [by rewrite decide_True by lia|].
        by rewrite decide_False by lia.
  - cbn [fst snd] in *. rewrite firstn_all in Hpn. subst pn.
    exists indices. split; [done|]. intros j. rewrite Hlookup.
    destruct (decide (j < length bones)) as [|Hge]; [done|].
    by rewrite lookup_ge_None_2 by lia.
Qed.

Lemma build_import_bones_indices armature (bones : list Bone) mapping j :
  build_import_bones armature bones = Ok mapping →
  psa_to_armature_bone_indices mapping !! j =
    bones !! j ≫= λ b, first_index (ab_name <$> armature) (name b).
Proof.
  destruct (map_bones_lookup (ab_name <$> armature) bones) as (indices & E1 & Hlookup).
  unfold build_import_bones. rewrite E1, bind_Ok_l. cbn beta iota.
  intros ([ibs dict] & _ & (ibs' & _ & [= <-])%bind_Ok)%bind_Ok.
  apply Hlookup.
Qed.

Lemma first_index_find_bone (armature : list ArmatureBone) n a :
  first_index (ab_name <$> armature) n = Some a →
  ∃ b, armature !! a = Some b ∧ ab_name b = n ∧ find_bone armature n = Ok b ∧
    ∀ a' b', a' < a → armature !! a' = Some b' → ab_name b' ≠ n.
Proof.
  unfold first_index, find_bone. rewrite list_find_fmap.
  change ((λ x : string, x = n) ∘ ab_name) with (λ b, ab_name b = n).
  destruct (list_find (λ b, ab_name b = n) armature) as [[i b]|] eqn:E; [|done].
  intros [= <-]. apply list_find_Some in E as (Hb & Hn & Hfirst).
  exists b. split; [done|]. split; [done|]. split; [done|].
  intros a' b' Ha' Hb'. by eapply Hfirst.
Qed.

(** X2: the index that the mapping records for a PSA bone is the index of the
    first bone of the armature that has its name, and this is the armature
    bone of its ImportBone; a PSA bone has an index exactly when it has an
    ImportBone. *)
Theorem bone_index_of_import_bone armature (bones : list Bone) mapping j :
  build_import_bones armature bones = Ok mapping →
  match psa_to_armature_bone_indices mapping !! j with
  | Some a =>
      ∃ b ib, bones !! j = Some b ∧ import_bones mapping !! j = Some (Some ib) ∧
        armature !! a = Some (armature_bone ib) ∧ ab_name (armature_bone ib) = name b ∧
        ∀ a' b', a' < a → armature !! a' = Some b' → ab_name b' ≠ name b
  | None => ∀ ib, import_bones mapping !! j ≠ Some (Some ib)
  end.
Proof.
  intros Hbuild. rewrite (build_import_bones_indices _ _ _ _ Hbuild).
  destruct (build_import_bones_mapped _ _ _ Hbuild) as (_ & _ & Hlen & Hnone & _).
  destruct (bones !! j) as [b|] eqn:Hb; cbn [mbind option_bind].
  2:{ intros ib Hj. apply lookup_lt_Some in Hj. apply lookup_ge_None_1 in Hb. lia. }
  destruct (first_index (ab_name <$> armature) (name b)) as [a|] eqn:Ha.
  - destruct (first_index_find_bone _ _ _ Ha) as (ab & Hab & Hn & Hfind & Hfirst).
    assert (name b ∈ ab_name <$> armature) as Hin.
    { rewrite <-Hn. apply list_elem_of_fmap_2. by eapply list_elem_of_lookup_2. }
    destruct (build_import_bones_mapped_bone _ _ _ _ _ Hbuild Hb Hin)
      as (ib & ab' & dict & _ & Hj & Hab' & Hib).
    assert (ab' = ab) as -> by congruence.
    destruct (resolve_import_bone_fields _ _ _ _ Hib) as (_ & Harm & _). cbn in Harm.
    exists b, ib. rewrite Harm. done.
  - intros ib Hj. rewrite (Hnone j b Hb) in Hj; [done|].
    intros (i & Hi)%(list_find_elem_of (λ x, x = name b) _ _); [|done].
    unfold first_index in Ha. by rewrite Hi in Ha.
Qed.

End bone_indices.

(** ** The keys of an action *)

Section write_loop.
Import Psa PsaSpec PsaKeys.

Lemma zip_keys_elem frame_index fcurves : ∀ write key_data key,
  key ∈ zip_keys frame_index fcurves write key_data ↔
  ∃ c, fcurves !! c = Some (kf_fcurve key) ∧ write !! c = Some true ∧
    key_data !! c = Some (kf_value key) ∧ kf_frame key = frame_index.
Proof.
  induction fcurves as [|fcurve fcurves IH]; intros write key_data key.
  { cbn [zip_keys]. rewrite elem_of_nil. split; [done|]. by intros (c & Hc & _). }
  destruct write as [|should_write write].
  { cbn [zip_keys]. rewrite elem_of_nil. split; [done|]. by intros (c & _ & Hc & _). }
  destruct key_data as [|datum key_data].
  { cbn [zip_keys]. rewrite elem_of_nil. split; [done|]. by intros (c & _ & _ & Hc & _). }
  cbn [zip_keys]. rewrite elem_of_app, IH. split.
  - intros [Hkey|(c & ?)]; [|by exists (S c)].
    destruct should_write; [|by apply elem_of_nil in Hkey].
    apply list_elem_of_singleton in Hkey as ->. by exists 0.
  - intros ([|c] & Hf & Hw & Hd & Hfr); [left|right; by exists c].
    cbn in Hf, Hw, Hd. injection Hf as ->. injection Hw as ->. injection Hd as ->.
    destruct key as [fc fr v]. cbn in *. subst fr. by left.
Qed.

Lemma length_zip_keys_ones frame_index fcurves : ∀ key_data,
  length key_data = length fcurves →
  length (zip_keys frame_index fcurves (replicate (length fcurves) true) key_data)
    = length fcurves.
Proof.
  induction fcurves as [|fcurve fcurves IH]; intros [|datum key_data] Hlen; try done.
  cbn [length replicate zip_keys app]. rewrite IH; [done|]. by injection Hlen.
Qed.

Lemma zip_keys_sublist frame_index fcurves : ∀ write write' key_data,
  Forall2 (λ x y : bool, x = true → y = true) write write' →
  zip_keys frame_index fcurves write key_data `sublist_of`
    zip_keys frame_index fcurves write' key_data.
Proof.
  induction fcurves as [|fcurve fcurves IH]; intros write write' key_data Hw; [done|].
  destruct Hw as [|x y write write' Hxy Hw]; [done|].
  destruct key_data as [|datum key_data]; [done|]. cbn [zip_keys].
  apply sublist_app; [|by apply IH].
  destruct x; [rewrite Hxy by done; done|]. apply sublist_nil_l.
Qed.

Lemma write_bone_spec (m : DataMatrix) (w : WriteMatrix) frame_index bone_index
    (import_bone : option ImportBone) (keys keys' : list Keyframe) :
  match import_bone with
  | None => Ok keys
  | Some import_bone =>
      write ← get2 w frame_index bone_index;
      if any write then
        key_data ← get2 m frame_index bone_index;
        Ok (keys ++ zip_keys frame_index (fcurves import_bone) write key_data)
      else Ok keys
  end = Ok keys' →
  keys' = keys ++ bone_keys m w frame_index bone_index import_bone.
Proof.
  unfold bone_keys. destruct import_bone as [ib|].
  2:{ intros [= <-]. by rewrite app_nil_r. }
  rewrite !get2_cell_at. destruct (cell_at w frame_index bone_index) as [write|]; [|done].
  rewrite bind_Ok_l. destruct (any write).
  2:{ intros [= <-]. by rewrite app_nil_r. }
  destruct (cell_at m frame_index bone_index) as [key_data|]; [|done].
  rewrite bind_Ok_l. by intros [= <-].
Qed.

Lemma write_bone_Ok (m : DataMatrix) (w : WriteMatrix) frame_index bone_index
    (import_bone : option ImportBone) (keys : list Keyframe) :
  (∀ ib, import_bone = Some ib →
     is_Some (cell_at w frame_index bone_index) ∧ is_Some (cell_at m frame_index bone_index)) →
  match import_bone with
  | None => Ok keys
  | Some import_bone =>
      write ← get2 w frame_index bone_index;
      if any write then
        key_data ← get2 m frame_index bone_index;
        Ok (keys ++ zip_keys frame_index (fcurves import_bone) write key_data)
      else Ok keys
  end = Ok (keys ++ bone_keys m w frame_index bone_index import_bone).
Proof.
  unfold bone_keys. destruct import_bone as [ib|]; [|by rewrite app_nil_r].
  intros Hcells. destruct (Hcells ib eq_refl) as [[write Hw] [key_data Hm]].
  rewrite !get2_cell_at, Hw, Hm, bind_Ok_l. destruct (any write); [|by rewrite app_nil_r].
  by rewrite bind_Ok_l.
Qed.

Lemma imap_shift {A B} (g : nat → A → B) (l : list A) start :
  imap (λ b, g (S start + b)) l = imap ((λ b, g (start + b)) ∘ S) l.
Proof. apply imap_ext. intros b x _. cbn. f_equal. lia. Qed.

(** What the write loop returns is the list of the keys of the frames. *)
Lemma write_keyframes_all_keys import_bones frame_count (m : DataMatrix) (w : WriteMatrix) keys :
  write_keyframes import_bones frame_count m w = Ok keys →
  keys = all_keys import_bones frame_count m w.
Proof.
  unfold write_keyframes, for_range, all_keys.
  assert (∀ f (l : list (option ImportBone)) start k k',
    for_enumerate_from start l (λ bone_index import_bone keys,
      match import_bone with
      | None => Ok keys
      | Some import_bone =>
          write ← get2 w f bone_index;
          if any write then
            key_data ← get2 m f bone_index;
            Ok (keys ++ zip_keys f (fcurves import_bone) write key_data)
          else Ok keys
      end) k = Ok k' →
    k' = k ++ mjoin (imap (λ b, bone_keys m w f (start + b)) l)) as Hframe.
  { intros f l. induction l as [|x l IH]; intros start k k' E.
    - injection E as <-. by rewrite app_nil_r.
    - cbn [for_enumerate_from] in E. apply bind_Ok in E as (k1 & E1 & E).
      apply write_bone_spec in E1 as ->. apply IH in E as ->.
      rewrite imap_cons, Nat.add_0_r, imap_shift. cbn [mjoin list_join]. by rewrite <-app_assoc. }
  assert (∀ n start k k',
    for_range_from start n (λ frame_index keys,
      for_enumerate import_bones (λ bone_index import_bone keys,
        match import_bone with
        | None => Ok keys
        | Some import_bone =>
            write ← get2 w frame_index bone_index;
            if any write then
              key_data ← get2 m frame_index bone_index;
              Ok (keys ++ zip_keys frame_index (fcurves import_bone) write key_data)
            else Ok keys
        end) keys) k = Ok k' →
    k' = k ++ (seq start n ≫= frame_keys import_bones m w)) as Hframes.
  { induction n as [|n IH]; intros start k k' E.
    - injection E as <-. by rewrite app_nil_r.
    - cbn [for_range_from] in E. apply bind_Ok in E as (k1 & E1 & E).
      apply Hframe in E1 as ->. apply IH in E as ->.
      cbn [seq]. rewrite bind_cons, <-app_assoc. done. }
  intros E. by apply Hframes in E.
Qed.

Lemma write_keyframes_Ok import_bones frame_count (m : DataMatrix) (w : WriteMatrix) :
  (∀ f b ib, f < frame_count → import_bones !! b = Some (Some ib) →
     is_Some (cell_at w f b) ∧ is_Some (cell_at m f b)) →
  write_keyframes import_bones frame_count m w = Ok (all_keys import_bones frame_count m w).
Proof.
  intros Hcells.
  destruct (write_keyframes import_bones frame_count m w) as [keys|e] eqn:E.
  { by apply write_keyframes_all_keys in E as ->. }
  exfalso. unfold write_keyframes, for_range in E.
  destruct (for_range_from_intro (λ _ _, True)
    (λ frame_index keys,
      for_enumerate import_bones (λ bone_index import_bone keys,
        match import_bone with
        | None => Ok keys
        | Some import_bone =>
            write ← get2 w frame_index bone_index;
            if any write then
              key_data ← get2 m frame_index bone_index;
              Ok (keys ++ zip_keys frame_index (fcurves import_bone) write key_data)
            else Ok keys
        end) keys) frame_count 0 []) as (keys & E' & _); [done| |congruence].
  intros f k Hf _. unfold for_enumerate.
  destruct (for_enumerate_from_inv (λ _ _, True) import_bones
    (λ bone_index import_bone keys,
        match import_bone with
        | None => Ok keys
        | Some import_bone =>
            write ← get2 w f bone_index;
            if any write then
              key_data ← get2 m f bone_index;
              Ok (keys ++ zip_keys f (fcurves import_bone) write key_data)
            else Ok keys
        end) 0 k) as (k' & Ek & _); [done| |by exists k'].
  intros b x t Hx _. eexists. split; [|done]. cbn [Nat.add].
  apply write_bone_Ok. intros ib ->. apply (Hcells f b ib); [lia|done].
Qed.

Lemma elem_of_frame_keys import_bones (m : DataMatrix) (w : WriteMatrix) f key :
  key ∈ frame_keys import_bones m w f ↔
  ∃ b x, import_bones !! b = Some x ∧ key ∈ bone_keys m w f b x.
Proof.
  unfold frame_keys. rewrite list_elem_of_join. split.
  - intros (l & Hkey & (b & x & -> & Hx)%elem_of_lookup_imap). by exists b, x.
  - intros (b & x & Hx & Hkey). exists (bone_keys m w f b x). split; [done|].
    apply elem_of_lookup_imap. by exists b, x.
Qed.

Lemma elem_of_bone_keys (m : DataMatrix) (w : WriteMatrix) f b x key :
  key ∈ bone_keys m w f b x ↔
  ∃ ib write key_data c, x = Some ib ∧ cell_at w f b = Some write ∧
    cell_at m f b = Some key_data ∧ fcurves ib !! c = Some (kf_fcurve key) ∧
    write !! c = Some true ∧ key_data !! c = Some (kf_value key) ∧ kf_frame key = f.
Proof.
  unfold bone_keys. split.
  - destruct x as [ib|]; [|by intros ?%elem_of_nil].
    destruct (cell_at w f b) as [write|]; [|by intros ?%elem_of_nil].
    destruct (any write); [|by intros ?%elem_of_nil].
    destruct (cell_at m f b) as [key_data|]; [|by intros ?%elem_of_nil].
    intros (c & ?)%zip_keys_elem. by exists ib, write, key_data, c.
  - intros (ib & write & key_data & c & -> & -> & -> & Hf & Hw & Hd & Hfr).
    assert (any write = true) as ->.
    { unfold any. apply existsb_exists. exists true. split; [|done].
      apply list_elem_of_In. by eapply list_elem_of_lookup_2. }
    apply zip_keys_elem. by exists c.
Qed.

Lemma elem_of_all_keys import_bones frame_count (m : DataMatrix) (w : WriteMatrix) key :
  key ∈ all_keys import_bones frame_count m w ↔
  ∃ b ib write key_data c, kf_frame key < frame_count ∧
    import_bones !! b = Some (Some ib) ∧
    cell_at w (kf_frame key) b = Some write ∧ cell_at m (kf_frame key) b = Some key_data ∧
    fcurves ib !! c = Some (kf_fcurve key) ∧ write !! c = Some true ∧
    key_data !! c = Some (kf_value key).
Proof.
  unfold all_keys. rewrite list_elem_of_bind. split.
  - intros (f & (b & x & Hx & Hkey)%elem_of_frame_keys & Hf%elem_of_seq).
    apply elem_of_bone_keys in Hkey as (ib & write & kd & c & -> & Hw & Hm & Hfc & Hwc & Hd & <-).
    exists b, ib, write, kd, c. split; [lia|done].
  - intros (b & ib & write & kd & c & Hf & Hb & Hw & Hm & Hfc & Hwc & Hd).
    exists (kf_frame key). split; [|apply elem_of_seq; lia].
    apply elem_of_frame_keys. exists b, (Some ib). split; [done|].
    apply elem_of_bone_keys. by exists ib, write, kd, c.
Qed.

(** X8: the keys that the write loop inserts are the samples of the ImportBones
    whose flag is set, at the frames of the sequence: a key of the f-curve
    [c] of a bone at a frame has the value of the channel [c] of the bone at
    that frame. *)
Theorem written_keys import_bones frame_count (m : DataMatrix) (w : WriteMatrix) keys :
  write_keyframes import_bones frame_count m w = Ok keys →
  ∀ key, key ∈ keys ↔
    ∃ b ib write key_data c, kf_frame key < frame_count ∧
      import_bones !! b = Some (Some ib) ∧
      cell_at w (kf_frame key) b = Some write ∧ cell_at m (kf_frame key) b = Some key_data ∧
      fcurves ib !! c = Some (kf_fcurve key) ∧ write !! c = Some true ∧
      key_data !! c = Some (kf_value key).
Proof.
  intros ->%write_keyframes_all_keys key. unfold all_keys. rewrite list_elem_of_bind. split.
  - intros (f & (b & x & Hx & Hkey)%elem_of_frame_keys & Hf%elem_of_seq).
    apply elem_of_bone_keys in Hkey as (ib & write & kd & c & -> & Hw & Hm & Hfc & Hwc & Hd & <-).
    exists b, ib, write, kd, c. split; [lia|done].
  - intros (b & ib & write & kd & c & Hf & Hb & Hw & Hm & Hfc & Hwc & Hd).
    exists (kf_frame key). split; [|apply elem_of_seq; lia].
    apply elem_of_frame_keys. exists b, (Some ib). split; [done|].
    apply elem_of_bone_keys. by exists ib, write, kd, c.
Qed.

End write_loop.

Section action_properties.
Import Psa PsaSpec PsaKeys.
Context `{Mathutils}.

Lemma imap_true {A} (l : list A) : imap (λ _ _, true) l = replicate (length l) true.
Proof.
  apply list_eq. intros i. rewrite list_lookup_imap.
  destruct (l !! i) as [x|] eqn:Hi.
  - symmetry. apply lookup_replicate_2. by eapply lookup_lt_Some.
  - symmetry. apply lookup_ge_None_2. rewrite length_replicate. by apply lookup_ge_None_1.
Qed.

Lemma imap_negb_false {A} (d : nat → bool) (l : list A) :
  imap (λ c _, negb (false && d c)) l = replicate (length l) true.
Proof. apply imap_true. Qed.

Lemma length_omap_id_fmap {A} (g : A → A) (l : list (option A)) :
  length (omap id (fmap g <$> l)) = length (omap id l).
Proof.
  induction l as [|[x|] l IH]; [done|..]; cbn [fmap list_fmap omap list_omap id option_fmap
    option_map length]; by rewrite ?IH.
Qed.

Lemma shaped_cell_inv {A} (m : list (list (list A))) frames bones f b cell :
  shaped m frames bones → cell_at m f b = Some cell →
  f < frames ∧ b < bones ∧ length cell = 7.
Proof.
  intros [Hl Hrows] Hc. unfold cell_at in Hc. destruct (m !! f) as [row|] eqn:Hrow; [|done].
  destruct (Hrows f row Hrow) as [Hlr Hc7]. cbn in Hc.
  split; [rewrite <-Hl; by eapply lookup_lt_Some|].
  split; [rewrite <-Hlr; by eapply lookup_lt_Some|by eapply Hc7].
Qed.

Lemma dropped_frame_0 th (import_bones : list (option ImportBone)) (m : DataMatrix) b c :
  dropped th import_bones m 0 b c = false.
Proof.
  unfold dropped. destruct (import_bones !! b) as [[ib|]|]; [|done..].
  destruct (channel m b c) as [|datum values]; [by rewrite andb_false_r|].
  by rewrite andb_false_r.
Qed.

(** The import of a sequence of the shape of the file, once the mapping is
    built: the converted samples, the flags and the keys. *)
Lemma import_sequence_unfold options armature (bones : list Bone) mapping sequence :
  build_import_bones armature bones = Ok mapping →
  shaped (seq_data sequence) (frame_count sequence) (length bones) →
  ∃ m1 w,
    import_sequence options mapping sequence =
      Ok (mkAction (seq_name sequence) m1 w
            (all_keys (with_fcurves <$> import_bones mapping) (frame_count sequence) m1 w)) ∧
    shaped m1 (frame_count sequence) (length bones) ∧
    shaped w (frame_count sequence) (length bones) ∧
    (∀ f b, cell_at m1 f b =
       converted ((with_fcurves <$> import_bones mapping) !! b)
         <$> cell_at (seq_data sequence) f b) ∧
    (∀ f b, cell_at w f b =
       (λ cell : list Q,
          imap (λ c _, negb (should_clean_keys options &&
                             dropped threshold (with_fcurves <$> import_bones mapping)
                               m1 f b c)) cell) <$> cell_at m1 f b).
Proof.
  intros Hbuild Hshape.
  destruct (build_import_bones_mapped _ _ _ Hbuild) as (_ & _ & Hlen & _ & Hmapped).
  unfold import_sequence, import_sequence_with.
  rewrite create_fcurves_mapped by (intros j ib Hj; by apply (Hmapped j ib)).
  set (IB := with_fcurves <$> import_bones mapping).
  assert (length IB = length bones) as HlIB by (unfold IB; by rewrite length_fmap).
  rewrite <-HlIB in *.
  assert (∀ b bone, IB !! b = Some (Some bone) → length (fcurves bone) = 7) as Hcurves.
  { intros b bone (ib & _ & _ & ->)%with_fcurves_lookup. done. }
  destruct (convert_sequence_shaped IB _ _ Hshape) as (m1 & -> & Hs1 & Hm1).
  rewrite bind_Ok_l.
  rewrite (ones_shaped _ _ _ Hshape), <-(ones_shaped _ _ _ Hs1).
  assert (∀ (m : DataMatrix) f b cell, shaped m (frame_count sequence) (length IB) →
    cell_at m f b = Some cell → length cell = 7) as Hcell.
  { intros m0 f b cell [Hl Hrows] Hc. unfold cell_at in Hc.
    destruct (m0 !! f) as [row|] eqn:Hrow; [|done].
    destruct (Hrows f row Hrow) as [_ Hc7]. by eapply Hc7. }
  assert (∃ w,
    (if should_clean_keys options then clean_keys threshold IB m1 (ones m1)
     else Ok (ones m1)) = Ok w ∧
    length w = frame_count sequence ∧
    ∀ f b, cell_at w f b =
      (λ cell : list Q,
         imap (λ c _, negb (should_clean_keys options && dropped threshold IB m1 f b c)) cell)
        <$> cell_at m1 f b) as (w & -> & Hlw & Hw).
  { destruct (should_clean_keys options).
    - destruct (clean_keys_channel threshold IB m1 _ Hs1 Hcurves) as (w & E & Hlw & Hw & _).
      by exists w.
    - exists (ones m1). split; [done|]. split; [rewrite length_ones; by destruct Hs1|].
      intros f b. rewrite cell_at_ones. destruct (cell_at m1 f b) as [cell|]; [|done].
      cbn [fmap option_fmap option_map]. f_equal.
      rewrite imap_negb_false. by apply fmap_const_replicate. }
  assert (shaped w (frame_count sequence) (length IB)) as Hsw.
  { apply (shaped_pointwise m1 w _ _
      (λ f b cell, imap (λ c _, negb (should_clean_keys options &&
                                      dropped threshold IB m1 f b c)) cell)); [done| |done|].
    - destruct Hs1. lia.
    - intros f b cell Hc. rewrite length_imap. by eapply Hcell. }
  rewrite bind_Ok_l, write_keyframes_Ok, bind_Ok_l.
  2:{ intros f b ib Hf Hb. apply lookup_lt_Some in Hb.
      destruct (shaped_cell w _ _ f b Hsw Hf Hb) as (? & -> & _).
      destruct (shaped_cell m1 _ _ f b Hs1 Hf Hb) as (? & -> & _). by split. }
  by exists m1, w.
Qed.

Lemma length_bind_same {A B} (g : A → list B) (l : list A) n :
  (∀ x, x ∈ l → length (g x) = n) → length (l ≫= g) = length l * n.
Proof.
  induction l as [|x l IH]; intros Hg; [done|].
  rewrite bind_cons, length_app, IH, Hg; [cbn; lia|by left|].
  intros y Hy. apply Hg. by right.
Qed.

Lemma length_join_imap {A B} (l : list (option A)) n : ∀ (g : nat → option A → list B),
  (∀ b x, l !! b = Some x → length (g b x) = if x is Some _ then n else 0) →
  length (mjoin (imap g l)) = n * length (omap id l).
Proof.
  induction l as [|x l IH]; intros g Hg; [cbn; lia|].
  rewrite imap_cons. cbn [mjoin list_join]. rewrite length_app, (Hg 0 x eq_refl), IH.
  2:{ intros b y Hb. by apply (Hg (S b)). }
  destruct x; cbn; lia.
Qed.

Lemma mjoin_imap_sublist {A B} (l : list A) : ∀ (g g' : nat → A → list B),
  (∀ b x, l !! b = Some x → g b x `sublist_of` g' b x) →
  mjoin (imap g l) `sublist_of` mjoin (imap g' l).
Proof.
  induction l as [|x l IH]; intros g g' Hg; [done|].
  rewrite !imap_cons. cbn [mjoin list_join]. apply sublist_app; [by apply (Hg 0)|].
  apply IH. intros b y Hb. by apply (Hg (S b)).
Qed.

Lemma bind_sublist {A B} (l : list A) (g g' : A → list B) :
  (∀ x, x ∈ l → g x `sublist_of` g' x) → l ≫= g `sublist_of` l ≫= g'.
Proof.
  induction l as [|x l IH]; intros Hg; [done|].
  rewrite !bind_cons. apply sublist_app; [apply Hg; by left|].
  apply IH. intros y Hy. apply Hg. by right.
Qed.


(** X9: without key cleaning every flag stays set, and an action has seven keys
    per frame for every PSA bone that has an ImportBone. *)
Theorem keys_without_cleaning armature (bones : list Bone) mapping sequence action :
  build_import_bones armature bones = Ok mapping →
  shaped (seq_data sequence) (frame_count sequence) (length bones) →
  import_sequence (mkOptions false) mapping sequence = Ok action →
  act_write action = ones (seq_data sequence) ∧
  length (act_keys action) = frame_count sequence * (7 * mapped_count (import_bones mapping)).
Proof.
  intros Hbuild Hshape E.
  destruct (import_sequence_unfold (mkOptions false) _ _ _ _ Hbuild Hshape)
    as (m1 & w & E' & Hs1 & Hsw & Hm1 & Hw).
  rewrite E in E'. injection E' as ->. cbn [act_write act_keys should_clean_keys] in *.
  assert (∀ f b, f < frame_count sequence → b < length bones →
    ∃ cell, cell_at m1 f b = Some cell ∧ length cell = 7 ∧
      cell_at w f b = Some (replicate 7 true)) as Hcells.
  { intros f b Hf Hb. destruct (shaped_cell m1 _ _ f b Hs1 Hf Hb) as (cell & Hc & H7).
    exists cell. split; [done|]. split; [done|].
    rewrite Hw, Hc. cbn [fmap option_fmap option_map]. by rewrite imap_negb_false, H7. }
  split.
  - rewrite (ones_shaped _ _ _ Hshape), <-(ones_shaped _ _ _ Hs1).
    apply (shaped_ext _ _ (frame_count sequence) (length bones)); [done| |].
    + apply (shaped_pointwise m1 (ones m1) _ _ (λ _ _ cell, (λ _, true) <$> cell));
        [done|apply length_ones|intros; apply cell_at_ones|].
      intros f b cell (_ & _ & H7)%(shaped_cell_inv m1 _ _ _ _ _ Hs1).
      by rewrite length_fmap.
    + intros f b. rewrite Hw, cell_at_ones. destruct (cell_at m1 f b) as [cell|]; [|done].
      cbn [fmap option_fmap option_map]. f_equal. rewrite imap_negb_false.
      symmetry. by apply fmap_const_replicate.
  - unfold all_keys, mapped_count. rewrite (length_bind_same _ _
      (7 * length (omap id (import_bones mapping)))), length_seq; [done|].
    intros f Hf%elem_of_seq. unfold frame_keys.
    rewrite (length_join_imap _ 7).
    + f_equal. apply length_omap_id_fmap.
    + intros b x Hb. unfold bone_keys. destruct x as [bone|]; [|done].
      destruct (build_import_bones_mapped _ _ _ Hbuild) as (_ & _ & Hlen & _).
      destruct (Hcells f b) as (cell & -> & H7 & ->); [lia| |].
      { rewrite <-Hlen, <-(length_fmap with_fcurves). by eapply lookup_lt_Some. }
      apply with_fcurves_lookup in Hb as (ib & _ & _ & ->). cbn [any existsb replicate id orb].
      apply (length_zip_keys_ones f (new_fcurves (pose_bone ib))). done.
Qed.

End action_properties.

Section cleaning_properties.
Import Psa PsaSpec PsaKeys.
Context `{Mathutils}.

Lemma any_true (write : list bool) c : write !! c = Some true → any write = true.
Proof.
  intros Hc. unfold any. apply existsb_exists. exists true. split; [|done].
  apply list_elem_of_In. by eapply list_elem_of_lookup_2.
Qed.

Lemma any_elem (write : list bool) : any write = true → ∃ c, write !! c = Some true.
Proof.
  unfold any. intros (x & Hx & Hid)%existsb_exists. unfold id in Hid. subst x.
  by apply list_elem_of_In, list_elem_of_lookup in Hx.
Qed.

Lemma bone_keys_sublist (m : DataMatrix) (w w' : WriteMatrix) f b x :
  (∀ write, cell_at w f b = Some write →
     ∃ write', cell_at w' f b = Some write' ∧
       Forall2 (λ x y : bool, x = true → y = true) write write') →
  bone_keys m w f b x `sublist_of` bone_keys m w' f b x.
Proof.
  intros Hw. unfold bone_keys. destruct x as [ib|]; [|done].
  destruct (cell_at w f b) as [write|]; [|apply sublist_nil_l].
  destruct (Hw write eq_refl) as (write' & -> & Hle).
  destruct (any write) eqn:Hany; [|apply sublist_nil_l].
  assert (any write' = true) as ->.
  { apply any_elem in Hany as [c Hc].
    destruct (Forall2_lookup_l _ _ _ c true Hle Hc) as (y & Hy & Hty).
    apply (any_true _ c). by rewrite Hy, Hty. }
  destruct (cell_at m f b) as [key_data|]; [|done].
  by apply zip_keys_sublist.
Qed.

(** X10: key cleaning leaves the converted samples as they are and only removes
    keys: the keys of the action that is imported with cleaning are a
    sublist of the keys of the action imported without it, and have all
    its keys of the first frame. *)
Theorem cleaning_removes_keys armature (bones : list Bone) mapping sequence cleaned full :
  build_import_bones armature bones = Ok mapping →
  shaped (seq_data sequence) (frame_count sequence) (length bones) →
  import_sequence (mkOptions true) mapping sequence = Ok cleaned →
  import_sequence (mkOptions false) mapping sequence = Ok full →
  act_data cleaned = act_data full ∧
  act_keys cleaned `sublist_of` act_keys full ∧
  ∀ key, key ∈ act_keys full → kf_frame key = 0 → key ∈ act_keys cleaned.
Proof.
  intros Hbuild Hshape Ec Ef.
  destruct (import_sequence_unfold (mkOptions true) _ _ _ _ Hbuild Hshape)
    as (m1 & w & E & Hs1 & Hsw & Hm1 & Hw).
  rewrite Ec in E. injection E as ->.
  destruct (import_sequence_unfold (mkOptions false) _ _ _ _ Hbuild Hshape)
    as (m2 & w' & E & Hs2 & Hsw' & Hm2 & Hw').
  rewrite Ef in E. injection E as ->.
  cbn [act_data act_keys should_clean_keys] in *.
  assert (m2 = m1) as ->.
  { apply (shaped_ext _ _ (frame_count sequence) (length bones)); [done..|].
    intros f b. by rewrite Hm1, Hm2. }
  split; [done|]. split.
  - unfold all_keys. apply bind_sublist. intros f _. unfold frame_keys.
    apply mjoin_imap_sublist. intros b x _. apply bone_keys_sublist.
    intros write. rewrite Hw, Hw'. destruct (cell_at m1 f b) as [cell|]; [|done].
    cbn [fmap option_fmap option_map]. intros [= <-]. eexists. split; [done|].
    apply Forall2_same_length_lookup. split; [by rewrite !length_imap|].
    intros c x' y. rewrite !list_lookup_imap. destruct (cell !! c); [|done].
    cbn [fmap option_fmap option_map andb negb]. by intros _ [= <-].
  - intros key (b & ib & write & kd & c & Hf & Hb & Hwr & Hkd & Hfc & Hc & Hv)%elem_of_all_keys
      Hframe.
    apply elem_of_all_keys. rewrite Hframe in *. rewrite Hw' in Hwr.
    destruct (cell_at m1 0 b) as [cell|] eqn:Hcell; [|done].
    cbn [fmap option_fmap option_map] in Hwr. injection Hwr as <-.
    rewrite list_lookup_imap in Hc. destruct (cell !! c) as [x|] eqn:Hx; [|done].
    eexists b, ib, _, kd, c. split; [done|]. split; [done|].
    split; [by rewrite Hw, Hcell|]. split; [congruence|]. split; [done|]. split; [|done].
    rewrite list_lookup_imap, Hx. cbn [fmap option_fmap option_map andb].
    by rewrite dropped_frame_0.
Qed.

End cleaning_properties.

Section mapping_examples.
Import Psa PsaSpec PsaKeys PsaExamples PsaKeysExamples.
#[local] Existing Instance Exact.mathutils.

Lemma import_bones_by_name_witness :
  ∃ mapping, build_import_bones armature bones = Ok mapping ∧
    psa_bone_names mapping = name <$> bones ∧
    length (import_bones mapping) = length bones ∧
    ∀ j b, bones !! j = Some b →
      if decide (name b ∈ ab_name <$> armature)
      then ∃ ib, import_bones mapping !! j = Some (Some ib) ∧ psa_bone ib = b ∧
             pose_bone ib = name b ∧ find_bone armature (name b) = Ok (armature_bone ib) ∧
             ab_name (armature_bone ib) = name b
      else import_bones mapping !! j = Some None.
Proof.
  eexists. split; [reflexivity|].
  apply (import_bones_by_name armature bones). reflexivity.
Defined.

Lemma missing_bones_are_unmapped_witness :
  ∃ mapping, build_import_bones armature bones = Ok mapping ∧
    (∀ n, n ∈ missing mapping ↔
       ∃ j b, bones !! j = Some b ∧ name b = n ∧ import_bones mapping !! j = Some None) ∧
    (missing mapping = ∅ ↔ ∀ j, import_bones mapping !! j ≠ Some None).
Proof.
  eexists. split; [reflexivity|].
  apply (missing_bones_are_unmapped armature bones). reflexivity.
Defined.



Lemma import_bone_parent_and_bind_pose_witness :
  ∃ mapping ib, build_import_bones armature bones = Ok mapping ∧
    import_bones mapping !! 2 = Some (Some ib) ∧
    (∀ n, parent ib = Some n ↔
       ∃ p, ab_parent (armature_bone ib) = Some p ∧ pb_name p = n ∧ n ∈ name <$> bones) ∧
    (∀ n, parent ib = Some n →
       ∃ k parent_bone, import_bones mapping !! k = Some (Some parent_bone) ∧
         pose_bone parent_bone = n) ∧
    match ab_bind_pose (armature_bone ib) with
    | Some (q, l, pq) => orig_quat ib = q ∧ orig_loc ib = l ∧ post_quat ib = pq
    | None => post_quat ib = conjugated (orig_quat ib)
    end.
Proof.
  eexists _, _. split; [reflexivity|]. split; [reflexivity|].
  apply (import_bone_parent_and_bind_pose armature bones _ 2); reflexivity.
Defined.

Lemma bone_index_of_import_bone_witness :
  ∃ mapping, build_import_bones armature bones = Ok mapping ∧
    match psa_to_armature_bone_indices mapping !! 2 with
    | Some a =>
        ∃ b ib, bones !! 2 = Some b ∧ import_bones mapping !! 2 = Some (Some ib) ∧
          armature !! a = Some (armature_bone ib) ∧ ab_name (armature_bone ib) = name b ∧
          ∀ a' b', a' < a → armature !! a' = Some b' → ab_name b' ≠ name b
    | None => ∀ ib, import_bones mapping !! 2 ≠ Some (Some ib)
    end.
Proof.
  eexists. split; [reflexivity|].
  apply (bone_index_of_import_bone armature bones _ 2). reflexivity.
Defined.

(** The index of "Arm" is 1, its place in the armature. *)
Example idle_indices :
  ∃ mapping, build_import_bones armature bones = Ok mapping ∧
    psa_to_armature_bone_indices mapping !! 0 = Some 0 ∧
    psa_to_armature_bone_indices mapping !! 1 = None ∧
    psa_to_armature_bone_indices mapping !! 2 = Some 1.
Proof. eexists. split; [reflexivity|]. repeat split; reflexivity. Qed.

Lemma written_keys_witness :
  ∃ keys,
    write_keyframes idle_import_bones 3 (seq_data idle) (ones (seq_data idle)) = Ok keys ∧
    ∀ key, key ∈ keys ↔
      ∃ b ib write key_data c, kf_frame key < 3 ∧
        idle_import_bones !! b = Some (Some ib) ∧
        cell_at (ones (seq_data idle)) (kf_frame key) b = Some write ∧
        cell_at (seq_data idle) (kf_frame key) b = Some key_data ∧
        fcurves ib !! c = Some (kf_fcurve key) ∧ write !! c = Some true ∧
        key_data !! c = Some (kf_value key).
Proof.
  eexists. split; [reflexivity|].
  apply (written_keys idle_import_bones 3 (seq_data idle) (ones (seq_data idle))).
  reflexivity.
Defined.


Lemma keys_without_cleaning_witness :
  ∃ mapping action, build_import_bones armature bones = Ok mapping ∧
    import_sequence (mkOptions false) mapping idle = Ok action ∧
    act_write action = ones (seq_data idle) ∧
    length (act_keys action) = frame_count idle * (7 * mapped_count (import_bones mapping)).
Proof.
  eexists _, _. split; [reflexivity|]. split; [reflexivity|].
  eapply (keys_without_cleaning armature bones _ idle); [reflexivity| |reflexivity].
  apply shapedb_spec. reflexivity.
Defined.

Lemma cleaning_removes_keys_witness :
  ∃ mapping cleaned full, build_import_bones armature bones = Ok mapping ∧
    import_sequence (mkOptions true) mapping idle = Ok cleaned ∧
    import_sequence (mkOptions false) mapping idle = Ok full ∧
    act_data cleaned = act_data full ∧
    act_keys cleaned `sublist_of` act_keys full ∧
    ∀ key, key ∈ act_keys full → kf_frame key = 0 → key ∈ act_keys cleaned.
Proof.
  eexists _, _, _. split; [reflexivity|]. split; [reflexivity|]. split; [reflexivity|].
  eapply (cleaning_removes_keys armature bones _ idle); [reflexivity| |reflexivity..].
  apply shapedb_spec. reflexivity.
Defined.

(** The example: 42 keys without cleaning, 20 with it. *)
Example idle_key_counts :
  ∃ mapping cleaned full, build_import_bones armature bones = Ok mapping ∧
    import_sequence (mkOptions true) mapping idle = Ok cleaned ∧
    import_sequence (mkOptions false) mapping idle = Ok full ∧
    length (act_keys cleaned) = 20 ∧ length (act_keys full) = 42.
Proof. eexists _, _, _. repeat split; reflexivity. Qed.

End mapping_examples.

(** ** The operators of the PSA import panel *)

Section operators.
Import Psa PsaSpec PsaOperators.
Context `{Mathutils}.

Lemma existsb_fmap {A B} (f : A → B) (P : B → bool) (l : list A) :
  existsb P (f <$> l) = existsb (P ∘ f) l.
Proof. induction l as [|x l IH]; [done|]. cbn. by rewrite IH. Qed.

Lemma existsb_false {A} (l : list A) : existsb (λ _, false) l = false.
Proof. by induction l. Qed.

Lemma existsb_true {A} (l : list A) : existsb (λ _, true) l = bool_decide (0 < length l).
Proof. by destruct l. Qed.

Lemma filter_all {A} (P : A → Prop) `{∀ x, Decision (P x)} (l : list A) :
  (∀ x, x ∈ l → P x) → filter P l = l.
Proof.
  induction l as [|x l IH]; intros HP; [done|].
  rewrite filter_cons_True by (apply HP; by left). f_equal.
  apply IH. intros y Hy. apply HP. by right.
Qed.

Lemma filter_none {A} (P : A → Prop) `{∀ x, Decision (P x)} (l : list A) :
  (∀ x, x ∈ l → ¬ P x) → filter P l = [].
Proof.
  induction l as [|x l IH]; intros HP; [done|].
  rewrite filter_cons_False by (apply HP; by left).
  apply IH. intros y Hy. apply HP. by right.
Qed.

(** X11: after "select all" every action is selected, with its name and frame
    count: the operator is no longer available, "deselect all" is available
    when the list is not empty, and an import takes every action. *)
Theorem select_all_selects action_list :
  let selected := select_all_execute action_list in
  action_name <$> selected = action_name <$> action_list ∧
  item_frame_count <$> selected = item_frame_count <$> action_list ∧
  select_all_poll selected = false ∧
  deselect_all_poll selected = bool_decide (0 < length action_list) ∧
  selected_names selected = action_name <$> action_list.
Proof.
  cbn zeta. unfold select_all_execute, select_all_poll, deselect_all_poll, selected_names.
  rewrite <-!list_fmap_compose, !existsb_fmap, length_fmap.
  change (λ action, negb (is_selected action)) with (negb ∘ is_selected).
  split; [by apply list_fmap_ext|]. split; [by apply list_fmap_ext|]. split.
  { assert (existsb (negb ∘ is_selected ∘ set_is_selected true) action_list = false) as ->
      by apply (existsb_false action_list).
    by rewrite andb_false_r. }
  split.
  { assert (existsb (is_selected ∘ set_is_selected true) action_list
            = bool_decide (0 < length action_list)) as -> by apply (existsb_true action_list).
    by destruct (bool_decide _). }
  rewrite filter_all.
  - rewrite <-list_fmap_compose. by apply list_fmap_ext.
  - by intros x (y & -> & _)%list_elem_of_fmap.
Qed.

(** X12: after "deselect all" no action is selected: the operator is no longer
    available, "select all" is available when the list is not empty, and the
    import operator is not available. *)
Theorem deselect_all_deselects action_list active_object :
  let deselected := deselect_all_execute action_list in
  action_name <$> deselected = action_name <$> action_list ∧
  deselect_all_poll deselected = false ∧
  select_all_poll deselected = bool_decide (0 < length action_list) ∧
  selected_names deselected = [] ∧
  import_poll deselected active_object = false.
Proof.
  cbn zeta.
  unfold deselect_all_execute, select_all_poll, deselect_all_poll, selected_names, import_poll.
  rewrite <-!list_fmap_compose, !existsb_fmap, length_fmap.
  change (λ action, negb (is_selected action)) with (negb ∘ is_selected).
  assert (existsb (is_selected ∘ set_is_selected false) action_list = false) as ->.
  { apply (existsb_false action_list). }
  split; [by apply list_fmap_ext|]. split; [by rewrite andb_false_r|]. split.
  { assert (existsb (negb ∘ is_selected ∘ set_is_selected false) action_list
            = bool_decide (0 < length action_list)) as -> by apply (existsb_true action_list).
    by destruct (bool_decide _). }
  split; [|done]. rewrite filter_none; [done|].
  intros x (y & -> & _)%list_elem_of_fmap Hsel. exact Hsel.
Qed.

(** X13: the import operator is available only with an armature as the active
    object and at least one selected action: it never runs on an empty
    selection. *)
Theorem import_poll_selection action_list active_object :
  import_poll action_list active_object = true →
  active_object = Some "ARMATURE" ∧ selected_names action_list ≠ [].
Proof.
  unfold import_poll, selected_names.
  intros [(x & Hx & Hsel)%existsb_exists Hactive]%andb_prop. split.
  - destruct active_object as [type|]; [|done]. by apply bool_decide_eq_true in Hactive as ->.
  - intros Hnil%fmap_nil_inv. apply list_elem_of_In in Hx.
    assert (x ∈ filter (λ x, is_selected x) action_list) as Hin.
    { apply list_elem_of_filter. split; [by apply Is_true_true|done]. }
    rewrite Hnil in Hin. by apply elem_of_nil in Hin.
Qed.

(** X14: when the import operator returns, every selected name is a sequence of
    the reader, the result is the one of [import_psa] on these sequences in
    the order of the list, and the number that is reported is the number of
    the actions. *)
Theorem execute_imports_selected sequences armature bones should_clean_keys action_list
    mapping actions reported :
  execute sequences armature bones should_clean_keys action_list
    = Ok (mapping, actions, reported) →
  reported = length actions ∧
  ∃ selected,
    Forall2 (λ x sequence, sequences !! x = Some sequence)
      (selected_names action_list) selected ∧
    import_psa armature bones selected (mkOptions should_clean_keys) = Ok (mapping, actions).
Proof.
  unfold execute, import_psa_named, import_psa.
  intros ([mapping' actions'] & (mapping0 & Hbuild & (actions0 & Hactions & [= -> ->])%bind_Ok
    )%bind_Ok & [= -> -> <-])%bind_Ok.
  apply mapM_Forall2 in Hactions.
  assert (∃ selected,
    Forall2 (λ x sequence, sequences !! x = Some sequence)
      (selected_names action_list) selected ∧
    Forall2 (λ sequence action,
      import_sequence (mkOptions should_clean_keys) mapping sequence = Ok action)
      selected actions) as (selected & Hsel & Himp).
  { induction Hactions as [|x action names actions Hx _ (selected & Hsel & Himp)].
    - exists []. by split.
    - apply bind_Ok in Hx as (sequence & Hfind & Hx). unfold find_sequence in Hfind.
      destruct (sequences !! x) as [s|] eqn:Hs; [|done]. injection Hfind as ->.
      exists (sequence :: selected). split; by constructor. }
  split; [by rewrite (Forall2_length _ _ _ Hactions)|].
  exists selected. split; [done|]. rewrite Hbuild, bind_Ok_l.
  apply mapM_Forall2 in Himp. by rewrite Himp, bind_Ok_l.
Qed.

(** X15: the import operator raises KeyError on a selected action that is not a
    sequence of the reader, when the mapping is built and the sequences
    before it are imported. *)
Theorem execute_unknown_sequence sequences armature bones should_clean_keys action_list
    mapping before x after actions :
  selected_names action_list = before ++ x :: after →
  sequences !! x = None →
  import_psa_named sequences armature bones before (mkOptions should_clean_keys)
    = Ok (mapping, actions) →
  execute sequences armature bones should_clean_keys action_list = Raise KeyError.
Proof.
  unfold execute, import_psa_named. intros -> Hx.
  intros (mapping0 & Hbuild & (actions0 & Hactions & [= -> ->])%bind_Ok)%bind_Ok.
  rewrite Hbuild, !bind_Ok_l.
  assert (mapM (λ x, sequence ← find_sequence sequences x;
                     import_sequence (mkOptions should_clean_keys) mapping sequence)
               (before ++ x :: after) = Raise KeyError) as ->; [|done].
  clear Hbuild. revert actions Hactions.
  induction before as [|y before IH]; intros actions Hactions.
  - cbn [app mapM]. unfold find_sequence. by rewrite Hx.
  - cbn [app mapM] in *. apply bind_Ok in Hactions as (a & -> & Hactions).
    apply bind_Ok in Hactions as (rest & Hrest & _). rewrite bind_Ok_l.
    by rewrite (IH rest Hrest).
Qed.

End operators.

Section operators_examples.
Import Psa PsaSpec PsaOperators PsaExamples PsaOperatorsExamples.
#[local] Existing Instance Exact.mathutils.

Lemma import_poll_selection_witness :
  import_poll idle_list (Some "ARMATURE") = true ∧
  Some "ARMATURE" = Some "ARMATURE" ∧ selected_names idle_list ≠ [].
Proof.
  split; [reflexivity|]. apply (import_poll_selection idle_list (Some "ARMATURE")).
  reflexivity.
Defined.

Lemma execute_imports_selected_witness :
  ∃ mapping actions reported,
    execute idle_reader armature bones true idle_list = Ok (mapping, actions, reported) ∧
    reported = length actions ∧
    ∃ selected,
      Forall2 (λ x sequence, idle_reader !! x = Some sequence)
        (selected_names idle_list) selected ∧
      import_psa armature bones selected (mkOptions true) = Ok (mapping, actions).
Proof.
  eexists _, _, _. split; [reflexivity|].
  apply (execute_imports_selected idle_reader armature bones true idle_list). reflexivity.
Defined.

Lemma execute_unknown_sequence_witness :
  ∃ mapping actions,
    import_psa_named idle_reader armature bones ["Idle"] (mkOptions true)
      = Ok (mapping, actions) ∧
    execute idle_reader armature bones true (select_all_execute idle_list) = Raise KeyError.
Proof.
  eexists _, _. split; [reflexivity|].
  eapply (execute_unknown_sequence idle_reader armature bones true
            (select_all_execute idle_list) _ ["Idle"] "Walk" []); reflexivity.
Defined.

End operators_examples.

(** ** The material list of the PSK export operator *)

Section material_list.
Import PskExport.
Context {Material : Type} `{EqDecision Material}.

Lemma first_occurrences_snoc (slots : list Material) x materials :
  first_occurrences (slots ++ [x]) materials
    = add_material (first_occurrences slots materials) x.
Proof. unfold first_occurrences. by rewrite foldl_app. Qed.

Lemma add_material_in_order (slots materials : list Material) x :
  in_order_of_first_occurrence slots materials →
  in_order_of_first_occurrence (slots ++ [x]) (add_material materials x).
Proof.
  intros (Hnodup & Hmem & Horder). unfold add_material. case_bool_decide as Hx.
  - split; [done|]. split.
    + intros m. rewrite elem_of_app, list_elem_of_singleton, Hmem. split; [by left|].
      intros [?| ->]; [done|]. by apply Hmem.
    + intros i j a b Hij Ha Hb. destruct (Horder i j a b Hij Ha Hb) as (p & Hp & Hq).
      exists p. split; [by apply lookup_app_l_Some|].
      intros q [Hl|[Hge _]]%lookup_app_Some; [by apply Hq|].
      apply lookup_lt_Some in Hp. lia.
  - assert (x ∉ slots) as Hxs by (by rewrite <-Hmem).
    split; [|split].
    + apply NoDup_app. split; [done|]. split; [|apply NoDup_singleton].
      intros m Hm ->%list_elem_of_singleton. done.
    + intros m. rewrite !elem_of_app, Hmem. done.
    + intros i j a b Hij Ha Hb.
      apply lookup_app_Some in Hb as [Hb|[Hge Hb]].
      * assert (materials !! i = Some a) as Ha'.
        { apply lookup_lt_Some in Hb. by rewrite lookup_app_l in Ha by lia. }
        destruct (Horder i j a b Hij Ha' Hb) as (p & Hp & Hq).
        exists p. split; [by apply lookup_app_l_Some|].
        intros q [Hl|[_ Hl]]%lookup_app_Some; [by apply Hq|].
        apply list_lookup_singleton_Some in Hl as [_ <-].
        destruct Hx. by eapply list_elem_of_lookup_2.
      * apply list_lookup_singleton_Some in Hb as [Hj <-].
        assert (materials !! i = Some a) as Ha' by (by rewrite lookup_app_l in Ha by lia).
        assert (a ∈ slots) as [p Hp]%list_elem_of_lookup.
        { apply Hmem. by eapply list_elem_of_lookup_2. }
        exists p. split; [by apply lookup_app_l_Some|].
        intros q [Hl|[Hq _]]%lookup_app_Some.
        -- destruct Hxs. by eapply list_elem_of_lookup_2.
        -- apply lookup_lt_Some in Hp. lia.
Qed.

Lemma first_occurrences_in_order (slots : list Material) :
  in_order_of_first_occurrence slots (first_occurrences slots []).
Proof.
  induction slots as [|x slots IH] using rev_ind.
  - split; [apply NoDup_nil_2|]. split; [done|]. by intros i j a b _ ?.
  - rewrite first_occurrences_snoc. by apply add_material_in_order.
Qed.

Lemma collect_slots_Some (slots : list Material) : ∀ i materials,
  collect_slots i (Some <$> slots) materials = inr (first_occurrences slots materials).
Proof. induction slots as [|x slots IH]; intros i materials; [done|]. apply IH. Qed.

Lemma collect_slots_inr (material_slots : list (option Material)) : ∀ i materials r,
  collect_slots i material_slots materials = inr r →
  ∃ slots, material_slots = Some <$> slots ∧ r = first_occurrences slots materials.
Proof.
  induction material_slots as [|[x|] material_slots IH]; intros i materials r E.
  - exists []. by injection E as <-.
  - destruct (IH _ _ _ E) as (slots & -> & ->). by exists (x :: slots).
  - done.
Qed.

Lemma collect_slots_None (material_slots : list (option Material)) : ∀ k i materials,
  material_slots !! k = Some None →
  (∀ j, j < k → material_slots !! j ≠ Some None) →
  collect_slots i material_slots materials =
    inl (RuntimeError ("Material slot cannot be empty (index " +:+ pretty (i + k) +:+ ")")).
Proof.
  induction material_slots as [|x material_slots IH]; intros k i materials Hk Hfirst; [done|].
  destruct k as [|k].
  - injection Hk as ->. cbn [collect_slots]. by rewrite Nat.add_0_r.
  - destruct x as [x|]; [|by destruct (Hfirst 0); [lia|]].
    cbn [collect_slots]. rewrite (IH k); [by rewrite Nat.add_succ_r|done|].
    intros j Hj. apply (Hfirst (S j)). lia.
Qed.

Lemma collect_materials_Some (objects : list (list Material)) : ∀ materials,
  collect_materials (fmap (M := list) (@Some Material) <$> objects) materials
    = inr (first_occurrences (mjoin objects) materials).
Proof.
  induction objects as [|object objects IH]; intros materials; [done|].
  cbn [fmap list_fmap collect_materials]. rewrite collect_slots_Some, IH.
  unfold first_occurrences. cbn [mjoin list_join]. by rewrite foldl_app.
Qed.

Lemma collect_materials_inr (mesh_objects : list (list (option Material))) : ∀ materials r,
  collect_materials mesh_objects materials = inr r →
  ∃ objects, mesh_objects = fmap (M := list) (@Some Material) <$> objects ∧
    r = first_occurrences (mjoin objects) materials.
Proof.
  induction mesh_objects as [|mesh_object mesh_objects IH]; intros materials r E.
  - exists []. by injection E as <-.
  - cbn [collect_materials] in E.
    destruct (collect_slots 0 mesh_object materials) as [e|r1] eqn:E1; [done|].
    apply collect_slots_inr in E1 as (slots & -> & ->).
    destruct (IH _ _ E) as (objects & -> & ->). exists (slots :: objects).
    split; [done|]. unfold first_occurrences. cbn [mjoin list_join]. by rewrite foldl_app.
Qed.

Lemma no_empty_slot (material_slots : list (option Material)) :
  None ∉ material_slots → ∃ slots, material_slots = Some <$> slots.
Proof.
  induction material_slots as [|[x|] material_slots IH]; intros Hnone.
  - by exists [].
  - destruct IH as [slots ->]; [by intros ?; apply Hnone; right|]. by exists (x :: slots).
  - destruct Hnone. by left.
Qed.

Lemma mjoin_cons {A} (x : list A) (l : list (list A)) : mjoin (x :: l) = x ++ mjoin l.
Proof. done. Qed.

Lemma join_fmap_Some (objects : list (list Material)) :
  mjoin (fmap (M := list) (@Some Material) <$> objects) = Some <$> mjoin objects.
Proof.
  induction objects as [|object objects IH]; [done|].
  by rewrite fmap_cons, !mjoin_cons, fmap_app, IH.
Qed.

(** X16: when [populate_material_list] returns, no material slot is empty, and the
    list holds the materials of the slots of the mesh objects, once each, in
    the order of their first occurrence, each with its position as index;
    what the list held before is discarded. *)
Theorem populate_material_list_result (mesh_objects : list (list (option Material)))
    (material_list items : list (@MaterialListItem Material)) :
  populate_material_list mesh_objects material_list = (items, None) →
  let slots := mjoin mesh_objects in
  (None ∉ slots) ∧
  NoDup (material <$> items) ∧
  (∀ m, m ∈ material <$> items ↔ Some m ∈ slots) ∧
  (∀ i item, items !! i = Some item → index item = i) ∧
  ∀ i j a b, i < j → items !! i = Some a → items !! j = Some b →
    ∃ p, slots !! p = Some (Some (material a)) ∧
      ∀ q, slots !! q = Some (Some (material b)) → p < q.
Proof.
  unfold populate_material_list.
  destruct (collect_materials mesh_objects []) as [e|materials] eqn:E; [done|].
  intros [= <-]. apply collect_materials_inr in E as (objects & -> & ->).
  cbn zeta. rewrite join_fmap_Some. cbn [app].
  destruct (first_occurrences_in_order (mjoin objects)) as (Hnodup & Hmem & Horder).
  set (materials := first_occurrences (mjoin objects) []) in *.
  assert (material <$> imap (λ index material, mkItem material index) materials = materials)
    as Hmaterials.
  { apply list_eq. intros i. rewrite list_lookup_fmap, list_lookup_imap.
    by destruct (materials !! i). }
  rewrite Hmaterials. split; [|split; [done|split; [|split]]].
  - by intros (m & ? & _)%list_elem_of_fmap.
  - intros m. rewrite Hmem. split; [apply list_elem_of_fmap_2|].
    by intros (m' & [= <-] & ?)%list_elem_of_fmap.
  - intros i item. rewrite list_lookup_imap. destruct (materials !! i); [|done].
    by intros [= <-].
  - intros i j a b Hij Ha Hb.
    assert (materials !! i = Some (material a)) as Ha'.
    { by rewrite <-Hmaterials, list_lookup_fmap, Ha. }
    assert (materials !! j = Some (material b)) as Hb'.
    { by rewrite <-Hmaterials, list_lookup_fmap, Hb. }
    destruct (Horder i j _ _ Hij Ha' Hb') as (p & Hp & Hq).
    exists p. split; [by rewrite list_lookup_fmap, Hp|].
    intros q Hq'. apply Hq. rewrite list_lookup_fmap in Hq'.
    destruct (mjoin objects !! q); [|done]. by injection Hq' as ->.
Qed.

(** X17: [populate_material_list] raises RuntimeError at the first empty material
    slot, with the index of the slot within its mesh object in the message,
    and leaves the material list empty. *)
Theorem populate_material_list_empty_slot (before : list (list (option Material)))
    mesh_object after k (material_list : list (@MaterialListItem Material)) :
  (∀ o, o ∈ before → None ∉ o) →
  mesh_object !! k = Some None →
  (∀ j, j < k → mesh_object !! j ≠ Some None) →
  populate_material_list (before ++ mesh_object :: after) material_list =
    ([], Some (RuntimeError ("Material slot cannot be empty (index " +:+ pretty k +:+ ")"))).
Proof.
  intros Hbefore Hk Hfirst. unfold populate_material_list.
  assert (∀ materials, collect_materials (before ++ mesh_object :: after) materials =
    inl (RuntimeError ("Material slot cannot be empty (index " +:+ pretty k +:+ ")")))
    as ->; [|done].
  induction before as [|o before IH]; intros materials.
  - cbn [app collect_materials]. by rewrite (collect_slots_None _ k 0).
  - destruct (no_empty_slot o) as [slots ->]; [apply Hbefore; by left|].
    cbn [app collect_materials]. rewrite collect_slots_Some.
    apply IH. intros o' Ho'. apply Hbefore. by right.
Qed.

End material_list.

Section material_list_moves.
Import PskExport.
Context {Item : Type}.

Lemma move_swap_up (before : list Item) x y after :
  move (before ++ y :: x :: after) (Z.of_nat (S (length before))) (Z.of_nat (length before))
    = before ++ x :: y :: after.
Proof.
  unfold move. rewrite !bool_decide_true by (rewrite length_app; cbn [length]; lia).
  cbn [andb]. rewrite !Nat2Z.id.
  assert (before ++ y :: x :: after = (before ++ [y]) ++ x :: after) as Hmid
    by by rewrite <-app_assoc.
  assert (S (length before) = length (before ++ [y])) as Hlen
    by (rewrite length_app; cbn [length]; lia).
  rewrite Hmid, Hlen, list_lookup_middle by done.
  rewrite delete_middle, <-app_assoc. cbn [app].
  by rewrite take_app_length, drop_app_length.
Qed.

Lemma move_swap_down (before : list Item) x y after :
  move (before ++ x :: y :: after) (Z.of_nat (length before)) (Z.of_nat (S (length before)))
    = before ++ y :: x :: after.
Proof.
  unfold move. rewrite !bool_decide_true by (rewrite length_app; cbn [length]; lia).
  cbn [andb]. rewrite !Nat2Z.id, list_lookup_middle by done.
  rewrite delete_middle.
  assert (before ++ y :: after = (before ++ [y]) ++ after) as -> by by rewrite <-app_assoc.
  assert (S (length before) = length (before ++ [y])) as ->
    by (rewrite length_app; cbn [length]; lia).
  by rewrite take_app_length, drop_app_length, <-app_assoc.
Qed.

Lemma split_two (l : list Item) i :
  S i < length l →
  ∃ before x y after, l = before ++ x :: y :: after ∧ length before = i.
Proof.
  intros Hi.
  destruct (lookup_lt_is_Some_2 l i) as [x Hx]; [lia|].
  destruct (lookup_lt_is_Some_2 l (S i)) as [y Hy]; [lia|].
  exists (take i l), x, y, (drop (S (S i)) l). split.
  - rewrite <-(take_drop_middle l i x Hx) at 1. f_equal. f_equal.
    by apply drop_S.
  - rewrite length_take. lia.
Qed.

(** X18: under its poll, and with the index on an item of the list, "move up"
    exchanges the selected material and the one before it, leaves the others
    in place, and keeps the index on the selected material; "move down" is
    then available and undoes it. *)
Theorem move_up_swaps (pg : ExportProperties Item) :
  move_up_poll pg = true →
  (material_list_index pg < Z.of_nat (length (material_list pg)))%Z →
  ∃ before y x after,
    pg = mkProperties (before ++ y :: x :: after) (Z.of_nat (S (length before))) ∧
    move_up_execute pg = mkProperties (before ++ x :: y :: after) (Z.of_nat (length before)) ∧
    move_down_poll (move_up_execute pg) = true ∧
    move_down_execute (move_up_execute pg) = pg.
Proof.
  destruct pg as [l i]. unfold move_up_poll, move_up_execute, move_down_poll,
    move_down_execute. cbn [material_list material_list_index].
  intros Hpoll%bool_decide_eq_true Hi.
  destruct (split_two l (Z.to_nat i - 1)) as (before & y & x & after & -> & Hlen); [lia|].
  assert (i = Z.of_nat (S (length before))) as -> by lia.
  exists before, y, x, after. split; [done|].
  replace (Z.of_nat (S (length before)) - 1)%Z with (Z.of_nat (length before)) by lia.
  rewrite move_swap_up. split; [done|]. split.
  - apply bool_decide_eq_true. rewrite length_app. cbn [length]. lia.
  - replace (Z.of_nat (length before) + 1)%Z with (Z.of_nat (S (length before))) by lia.
    by rewrite move_swap_down.
Qed.

(** X19: under its poll, and with a non-negative index, "move down" exchanges
    the selected material and the one after it, leaves the others in place,
    and keeps the index on the selected material; "move up" is then
    available and undoes it. *)
Theorem move_down_swaps (pg : ExportProperties Item) :
  move_down_poll pg = true →
  (0 ≤ material_list_index pg)%Z →
  ∃ before x y after,
    pg = mkProperties (before ++ x :: y :: after) (Z.of_nat (length before)) ∧
    move_down_execute pg
      = mkProperties (before ++ y :: x :: after) (Z.of_nat (S (length before))) ∧
    move_up_poll (move_down_execute pg) = true ∧
    move_up_execute (move_down_execute pg) = pg.
Proof.
  destruct pg as [l i]. unfold move_up_poll, move_up_execute, move_down_poll,
    move_down_execute. cbn [material_list material_list_index].
  intros Hpoll%bool_decide_eq_true Hi.
  destruct (split_two l (Z.to_nat i)) as (before & x & y & after & -> & Hlen); [lia|].
  assert (i = Z.of_nat (length before)) as -> by lia.
  exists before, x, y, after. split; [done|].
  replace (Z.of_nat (length before) + 1)%Z with (Z.of_nat (S (length before))) by lia.
  rewrite move_swap_down. split; [done|]. split.
  - apply bool_decide_eq_true. lia.
  - replace (Z.of_nat (S (length before)) - 1)%Z with (Z.of_nat (length before)) by lia.
    by rewrite move_swap_up.
Qed.

End material_list_moves.

Section material_list_examples.
Import PskExport PskExportExamples.

Lemma populate_material_list_result_witness :
  ∃ items,
    populate_material_list [body; head] [mkItem "old" 7] = (items, None) ∧
    (None ∉ mjoin [body; head]) ∧
    NoDup (material <$> items) ∧
    (∀ m, m ∈ material <$> items ↔ Some m ∈ mjoin [body; head]) ∧
    (∀ i item, items !! i = Some item → index item = i) ∧
    ∀ i j a b, i < j → items !! i = Some a → items !! j = Some b →
      ∃ p, mjoin [body; head] !! p = Some (Some (material a)) ∧
        ∀ q, mjoin [body; head] !! q = Some (Some (material b)) → p < q.
Proof.
  eexists. split; [reflexivity|].
  apply (populate_material_list_result [body; head] [mkItem "old" 7]). reflexivity.
Defined.

(** The materials of the two mesh objects: "skin" is listed once. *)
Example populate_body_and_head :
  populate_material_list [body; head] [] =
    ([mkItem "skin" 0; mkItem "cloth" 1; mkItem "eyes" 2], None).
Proof. reflexivity. Qed.

Lemma populate_material_list_empty_slot_witness :
  (∀ o, o ∈ [body; head] → None ∉ o) ∧
  hat !! 1 = Some None ∧
  (∀ j, j < 1 → hat !! j ≠ Some None) ∧
  populate_material_list ([body; head] ++ hat :: [body]) [mkItem "old" 7] =
    ([], Some (RuntimeError "Material slot cannot be empty (index 1)")).
Proof.
  assert (∀ o, o ∈ [body; head] → None ∉ o) as Hbefore.
  { intros o Ho. apply (bool_decide_unpack _).
    apply elem_of_cons in Ho as [->|Ho]; [reflexivity|].
    apply list_elem_of_singleton in Ho as ->. reflexivity. }
  assert (∀ j, j < 1 → hat !! j ≠ Some None) as Hfirst.
  { intros [|j] Hj; [done|lia]. }
  split; [done|]. split; [reflexivity|]. split; [done|].
  apply (populate_material_list_empty_slot [body; head] hat [body] 1); done.
Defined.

Lemma move_up_swaps_witness :
  move_up_poll three_materials = true ∧
  (material_list_index three_materials
     < Z.of_nat (length (material_list three_materials)))%Z ∧
  ∃ before y x after,
    three_materials = mkProperties (before ++ y :: x :: after) (Z.of_nat (S (length before))) ∧
    move_up_execute three_materials
      = mkProperties (before ++ x :: y :: after) (Z.of_nat (length before)) ∧
    move_down_poll (move_up_execute three_materials) = true ∧
    move_down_execute (move_up_execute three_materials) = three_materials.
Proof.
  split; [reflexivity|]. split; [reflexivity|].
  apply (move_up_swaps three_materials); reflexivity.
Defined.

Lemma move_down_swaps_witness :
  move_down_poll three_materials = true ∧
  (0 ≤ material_list_index three_materials)%Z ∧
  ∃ before x y after,
    three_materials = mkProperties (before ++ x :: y :: after) (Z.of_nat (length before)) ∧
    move_down_execute three_materials
      = mkProperties (before ++ y :: x :: after) (Z.of_nat (S (length before))) ∧
    move_up_poll (move_down_execute three_materials) = true ∧
    move_up_execute (move_down_execute three_materials) = three_materials.
Proof.
  split; [reflexivity|]. split; [by vm_compute|].
  apply (move_down_swaps three_materials); [reflexivity|by vm_compute].
Defined.

(** Moving "cloth" up and down. *)
Example move_cloth :
  move_up_execute three_materials = mkProperties ["cloth"; "skin"; "eyes"] 0 ∧
  move_down_execute three_materials = mkProperties ["skin"; "eyes"; "cloth"] 2.
Proof. split; reflexivity. Qed.

End material_list_examples.

(** ** The edit bones of [import_psk] *)

Section edit_bones.
Import Psk PskEditBones.
Context `{Mathutils}.

Lemma conjugated_involutive q : conjugated (conjugated q) = q.
Proof.
  destruct q as [w [xn xd] [yn yd] [zn zd]]. by destruct xn, yn, zn.
Qed.

Lemma make_edit_bone_spec s0 k st st1 :
  edit_inv s0 k st → k < length s0 →
  make_edit_bone k st = Ok st1 → edit_inv s0 (S k) st1.
Proof.
  destruct st as [s ebs]. intros (Hlen & Hrest & Hworld & Hebs) Hk. cbn [fst snd] in *.
  destruct (lookup_lt_is_Some_2 s0 k Hk) as [ib Hib].
  assert (s !! k = Some ib) as Hsk by (by rewrite Hrest).
  assert (take (S k) s0 = take k s0 ++ [ib]) as Htake by by apply take_S_r.
  unfold make_edit_bone. rewrite (get_Ok _ _ _ Hsk), bind_Ok_l. cbv beta.
  destruct (parent ib) as [p|] eqn:Hp.
  - intros ([s' par] & (x & _ & [= <- <-])%bind_Ok & E)%bind_Ok.
    rewrite (get_Ok _ _ _ Hsk), bind_Ok_l in E. injection E as <-.
    split; [done|]. split; [intros j Hj; apply Hrest; lia|]. split; [done|]. cbn [snd].
    rewrite Htake, fmap_app, Hebs. f_equal.
    change (edit_bone_of <$> [ib]) with [edit_bone_of ib].
    unfold edit_bone_of, bind_rotation. by rewrite Hp.
  - rewrite bind_Ok_l.
    erewrite get_Ok by (rewrite list_lookup_alter_eq, Hsk; reflexivity).
    rewrite bind_Ok_l. intros [= <-].
    split; [cbn [fst]; by rewrite length_alter|]. split; [|split].
    + intros j Hj. cbn [fst]. rewrite list_lookup_alter_ne by lia. apply Hrest. lia.
    + intros j ib'. cbn [fst]. destruct (decide (j = k)) as [->|Hne].
      * rewrite list_lookup_alter_eq, Hsk. intros [= <-]. by exists ib.
      * rewrite list_lookup_alter_ne by done. apply Hworld.
    + cbn [snd]. rewrite Htake, fmap_app, Hebs. f_equal.
      change (edit_bone_of <$> [ib]) with [edit_bone_of ib].
      unfold edit_bone_of, bind_rotation. by rewrite Hp.
Qed.

(** The edit bones of a skeleton that is built, from the ImportBones of the
    second loop. *)
Lemma build_skeleton_edit_bones bones s ebs :
  build_skeleton bones = Ok (s, ebs) →
  ∃ s0, second_inv bones (length bones) s0 ∧ ebs = edit_bone_of <$> s0 ∧
    (∀ j ib, s !! j = Some ib →
       ∃ ib0, s0 !! j = Some ib0 ∧ world_matrix ib = world_matrix ib0) ∧
    ∀ j, j < length bones → parent_not_later bones j.
Proof.
  intros Hbuild. destruct (build_skeleton_Ok _ _ _ Hbuild) as (_ & _ & _ & Hnl).
  unfold build_skeleton in Hbuild. apply bind_Ok in Hbuild as (s0 & E2 & E3).
  apply second_pass_Ok in E2 as [Hinv _]. exists s0. split; [done|].
  unfold for_range in E3.
  apply (for_range_from_elim (edit_inv s0) (λ _, True)) in E3.
  - destruct E3 as [(_ & _ & Hworld & Hebs) _]. cbn [fst snd] in Hebs, Hworld.
    rewrite Nat.add_0_l, firstn_all in Hebs. done.
  - split; [done|]. split; [done|]. split; [|done]. intros j ib Hj. by exists ib.
  - intros i st st1 Hi Hst Est. split; [done|].
    apply (make_edit_bone_spec s0 i st); [done|lia|done].
Qed.

Lemma is_root_spec j (bone : Bone) :
  is_root j (clamped bone) = true ↔ j = 0 ∧ (parent_index bone ≤ 0)%Z.
Proof.
  unfold is_root, clamped. cbn. rewrite andb_true_iff, !bool_decide_eq_true. lia.
Qed.


(** X21: the matrix of an edit bone has the world translation of its ImportBone,
    and the rotation of its [post_quat] (the rotation of the file for the
    first bone, its conjugate for the others) rotated by the world matrix of
    the ImportBone. *)
Theorem edit_bone_world_matrix bones s ebs j bone ib eb :
  build_skeleton bones = Ok (s, ebs) →
  bones !! j = Some bone → s !! j = Some ib → ebs !! j = Some eb →
  translation (eb_matrix eb) = translation (world_matrix ib) ∧
  m3 (eb_matrix eb) =
    quat_to_matrix
      (quat_rotate_mat (if decide (j = 0) then rotation bone else conjugated (rotation bone))
         (m3 (world_matrix ib))).
Proof.
  intros Hbuild Hbone Hs Heb.
  destruct (build_skeleton_edit_bones _ _ _ Hbuild) as (s0 & Hinv & -> & Hworld & Hnl).
  destruct Hinv as (Hlen & Hbones & Hlaw).
  assert (j < length bones) as Hj by by eapply lookup_lt_Some.
  destruct (Hworld j ib Hs) as (ib0 & Hib0 & ->).
  rewrite list_lookup_fmap, Hib0 in Heb. injection Heb as <-.
  destruct (Hbones j ib0 Hib0) as (bone' & Hbone' & Hpsk & Hrot & _ & Hnone).
  assert (bone' = bone) as -> by congruence.
  unfold edit_bone_of, bind_rotation. cbn. split; [done|]. rewrite Hrot.
  destruct (is_root j (clamped bone)) eqn:Hroot.
  - apply is_root_spec in Hroot as Hroot'. destruct Hroot' as [-> Hneg].
    rewrite decide_True by done. rewrite Hnone by by left.
    by rewrite conjugated_involutive.
  - destruct (Hlaw j ib0) as [Hp _]; [lia|done|by rewrite Hpsk|].
    rewrite Hp. specialize (Hnl j Hj bone Hbone Hroot). cbn in Hnl.
    destruct (decide (j = 0)) as [->|Hne]; [|done].
    exfalso. assert (is_root 0 (clamped bone) = true) as Hr; [|congruence].
    apply is_root_spec. split; [done|]. lia.
Qed.

End edit_bones.

Section edit_bones_examples.
Import Psk PskEditBones PskExamples.
#[local] Existing Instance Exact.mathutils.


Lemma edit_bone_world_matrix_witness :
  ∃ s ebs bone ib eb, build_skeleton chain = Ok (s, ebs) ∧
    chain !! 1 = Some bone ∧ s !! 1 = Some ib ∧ ebs !! 1 = Some eb ∧
    translation (eb_matrix eb) = translation (world_matrix ib) ∧
    m3 (eb_matrix eb) =
      quat_to_matrix
        (quat_rotate_mat (if decide (1 = 0) then rotation bone else conjugated (rotation bone))
           (m3 (world_matrix ib))).
Proof.
  eexists _, _, _, _, _. split; [reflexivity|]. split; [reflexivity|].
  split; [reflexivity|]. split; [reflexivity|].
  eapply (edit_bone_world_matrix chain _ _ 1); reflexivity.
Defined.

End edit_bones_examples.

(** ** The mesh of [import_psk] *)

Lemma for_enumerate_from_Raise {A St} (l : list A) (body : nat → A → St → result St) e :
  ∀ start (s : St),
  for_enumerate_from start l body s = Raise e →
  ∃ i x s', l !! i = Some x ∧ body (start + i) x s' = Raise e.
Proof.
  induction l as [|x l IH]; intros start s E; [done|].
  cbn [for_enumerate_from] in E. apply bind_Raise in E as [E|(s1 & _ & E)].
  - exists 0, x, s. by rewrite Nat.add_0_r.
  - destruct (IH _ _ E) as (i & y & s' & Hy & Ey). exists (S i), y, s'.
    split; [done|]. by rewrite Nat.add_succ_r.
Qed.

Section mesh_properties.
Import Mesh MeshSpec.


Lemma faces_new_exn bm_faces verts material e :
  faces_new bm_faces verts material = Raise e → e = ValueError.
Proof.
  unfold faces_new. case_bool_decide; [|by intros [= <-]].
  destruct (existsb _ bm_faces); [by intros [= <-]|done].
Qed.

(** X22: the face loop catches the ValueError of a face that the BMesh rejects:
    the only exception that it raises is the IndexError of a wedge index that
    is not an index of [psk.wedges], or of a wedge whose point index is not
    an index of [psk.points]. *)
Theorem build_faces_raises (psk : Psk) e :
  build_faces psk = Raise e →
  e = IndexError ∧
  ∃ k face i, faces psk !! k = Some face ∧ i ∈ reversed face ∧
    (wedges psk !! i = None ∨
     ∃ w, wedges psk !! i = Some w ∧ points psk !! point_index w = None).
Proof.
  unfold build_faces, for_enumerate.
  intros E.
  apply (for_enumerate_from_Raise (faces psk) (add_face psk) e 0 ([], ∅)) in E
    as (k & face & [bm deg] & Hface & E).
  unfold add_face in E. apply bind_Raise in E as [E|(verts & _ & E)].
  - apply mapM_Raise in E as (i & Hi & E).
    apply bind_Raise in E as [E|(w & Hw & E)].
    + apply get_exn in E as [-> Hnone]. split; [done|]. exists k, face, i. by auto.
    + apply bind_Raise in E as [E|(pt & _ & [=])].
      apply get_exn in E as [-> Hnone]. apply get_inv in Hw. split; [done|].
      exists k, face, i. split; [done|]. split; [done|]. right. by exists w.
  - destruct (faces_new bm verts (material_index face)) as [bm'|e'] eqn:Enew; [done|].
    apply faces_new_exn in Enew as ->. done.
Qed.

(** X23: extra UVs without wedges: the division by the number of wedges raises
    ZeroDivisionError, once the faces and the first UV layer are done. *)
Theorem extra_uvs_without_wedges {F : Type} `{EqDecision F} (one : F)
    (normalized : Color → F * F * F * F) (rgb_to_srgb : cell F → cell F)
    (psk : Psk) (options : PskImportOptions) :
  well_formed psk → wedges psk = [] →
  has_extra_uvs psk = true → should_import_extra_uvs options = true →
  import_mesh one normalized rgb_to_srgb psk options = Raise ZeroDivisionError.
Proof.
  intros Hwf Hw Hhas Hopt.
  assert (faces psk = []) as Hfaces.
  { destruct (faces psk) as [|face fs] eqn:Hf; [done|]. exfalso.
    destruct Hwf as [Hrange _].
    assert (∃ i, i ∈ reversed face) as [i Hi].
    { unfold reversed. destruct (wedge_indices face) as [[a b] c]. exists c. by left. }
    specialize (Hrange 0 face i). rewrite Hf, Hw in Hrange. cbn in Hrange.
    specialize (Hrange eq_refl Hi). lia. }
  unfold import_mesh, build_faces, texture_coordinates, extra_uv_layers.
  rewrite Hfaces, Hhas, Hopt, Hw. reflexivity.
Qed.

End mesh_properties.

Section mesh_import.
Import Mesh MeshSpec.
Context {F : Type} `{EqDecision F}.
Variable one : F.
Variable normalized : Color → F * F * F * F.
Variable rgb_to_srgb : cell F → cell F.
Variable psk : Psk.

Lemma first_wedge_first_seen p i : first_seen psk p i → first_wedge psk p = Some i.
Proof.
  intros [(w & Hw & Hp) Hfirst]. unfold first_wedge.
  assert (list_find (λ w, point_index w = p) (wedges psk) = Some (i, w)) as ->; [|done].
  apply list_find_Some. split; [done|]. split; [done|].
  intros j y Hj Hlt. by apply (Hfirst j y).
Qed.

(** What one pass of the wedge loop appends to the ambiguous vertices. *)
Lemma resolve_wedge_color_ambiguous k wedge st st' :
  resolve_wedge_color normalized psk k wedge st = Ok st' →
  ∃ c row, vertex_colors psk !! k = Some c ∧ st.1 !! point_index wedge = Some row ∧
    st'.2 = st.2 ++ (if is_not_inf row.1.1.1 && row_differs row (normalized c)
                     then [point_index wedge] else []).
Proof.
  destruct st as [buffer amb]. unfold resolve_wedge_color. intros E.
  apply bind_Ok in E as (c & Hc%get_inv & E). apply bind_Ok in E as (row & Hrow%get_inv & E).
  exists c, row. split; [done|]. split; [done|]. simpl.
  destruct (is_not_inf _ && row_differs _ _).
  - by injection E as <-.
  - apply bind_Ok in E as (buffer' & _ & E). injection E as <-. simpl. by rewrite app_nil_r.
Qed.


Lemma resolve_colors_ambiguous :
  (∀ i w, wedges psk !! i = Some w → point_index w < length (points psk)) →
  length (wedges psk) ≤ length (vertex_colors psk) →
  ∃ resolved,
    resolve_colors normalized psk =
      Ok (resolved, point_index <$> (recoloring_wedges normalized psk).*2) ∧
    colors_inv normalized psk (length (wedges psk))
      (resolved, point_index <$> (recoloring_wedges normalized psk).*2).
Proof.
  intros Hpoints Hcolors. unfold resolve_colors, for_enumerate.
  destruct (for_enumerate_from_inv
    (λ k st, colors_inv normalized psk k st ∧
       st.2 = point_index <$> (ifilter (recolors normalized psk) 0 (take k (wedges psk))).*2)
    (wedges psk) (resolve_wedge_color normalized psk) 0
    (replicate (length (points psk)) inf_row, [])) as ([resolved amb] & E & Hinv & Hamb).
  - split; [apply colors_inv_init|]. by rewrite take_0.
  - intros i w st Hi [Hinv Hamb].
    destruct (resolve_wedge_color_step normalized psk Hcolors Hpoints i w st Hi Hinv)
      as (st' & E & Hinv').
    exists st'. split; [done|]. split; [done|].
    destruct (resolve_wedge_color_ambiguous _ _ _ _ E) as (c & row & Hc & Hrow & ->).
    pose proof (lookup_lt_Some _ _ _ Hi) as Hilt.
    rewrite (take_S_r _ _ _ Hi), ifilter_snoc, !fmap_app, Hamb. f_equal.
    rewrite length_take_le by lia.
    destruct Hinv as (Hlen & Hfirst & Hnone & _). destruct st as [buffer amb0]. simpl in *.
    destruct (first_seen_dec psk i (point_index w)) as [Hno|(i0 & Hi0 & Hfs)]; [lia| |].
    + assert (Some row = Some inf_row) as [= ->].
      { rewrite <-Hrow. apply Hnone; [by eapply Hpoints|done]. }
      simpl.
      unfold recolors. rewrite (first_wedge_first_seen (point_index w) i).
      2:{ split; [by exists w|]. intros j w' Hj Hw'. by apply (Hno j w'). }
      simpl. rewrite Hc. by rewrite bool_decide_eq_true_2.
    + destruct (lookup_lt_is_Some_2 (vertex_colors psk) i0) as [c0 Hc0]; [lia|].
      assert (Some row = Some (row_of (normalized c0))) as [= ->].
      { rewrite <-Hrow. by apply (Hfirst _ i0 c0). }
      rewrite is_not_inf_row_of, row_differs_row_of. simpl.
      unfold recolors. rewrite (first_wedge_first_seen _ _ Hfs). simpl. rewrite Hc0, Hc.
      by destruct (bool_decide (normalized c0 = normalized c)).
  - simpl in Hamb. subst amb. rewrite firstn_all in *. by exists resolved.
Qed.




(** X25: the ambiguous vertices are the vertices of the wedges that have another
    color than the first wedge on their vertex, one entry per such wedge and
    in the order of the wedges: a vertex with several such wedges is listed,
    and counted in the warning, once for each of them. *)
Theorem ambiguous_vertex_list options loops :
  has_vertex_colors psk = true → should_import_vertex_colors options = true →
  colors_well_formed psk loops →
  ∃ vc,
    import_vertex_colors one normalized rgb_to_srgb psk options loops = Ok (Some vc) ∧
    vc_ambiguous vc = point_index <$> (recoloring_wedges normalized psk).*2.
Proof.
  intros Hhas Hopt (Hcolors & Hpoints & Hloops).
  unfold import_vertex_colors. rewrite Hhas, Hopt. cbn [andb].
  destruct (resolve_colors_ambiguous Hpoints Hcolors) as (resolved & -> & Hinv).
  cbn [mbind result_bind].
  destruct (color_loops_Ok one (convert_color_space rgb_to_srgb options resolved) loops)
    as (data & -> & _).
  { intros l v Hl. destruct Hinv as [Hn _]. simpl in Hn.
    unfold convert_color_space. destruct (vertex_color_space_is_srgba options);
      rewrite ?length_fmap, Hn; by eapply Hloops. }
  eexists. split; [reflexivity|]. done.
Qed.


End mesh_import.

Section mesh_import_examples.
Import Mesh MeshSpec MeshExamples.

Lemma build_faces_raises_witness :
  build_faces with_missing_wedge = Raise IndexError ∧
  IndexError = IndexError ∧
  ∃ k face i, faces with_missing_wedge !! k = Some face ∧ i ∈ reversed face ∧
    (wedges with_missing_wedge !! i = None ∨
     ∃ w, wedges with_missing_wedge !! i = Some w ∧
          points with_missing_wedge !! point_index w = None).
Proof.
  split; [reflexivity|]. apply (build_faces_raises with_missing_wedge). reflexivity.
Defined.

Lemma extra_uvs_without_wedges_witness :
  import_mesh 255%Z byte_normalized double_rgb without_wedges options_all =
    Raise ZeroDivisionError.
Proof.
  apply extra_uvs_without_wedges; [by apply well_formedb_spec|reflexivity..].
Defined.


(** The mesh of the first sample file: one face is discarded, and the two
    extra layers have the three loops of the other. *)
Example import_with_degenerate_face :
  ∃ md, import_mesh 255%Z byte_normalized double_rgb with_degenerate_face options_all = Ok md ∧
    md_faces md = [mkBMFace [2; 1; 0] 0] ∧ md_degenerate md = {[1]} ∧
    md_loops md = [2; 1; 0] ∧ length <$> md_extra_uvs md = [3; 3].
Proof. eexists. repeat split; reflexivity. Qed.

Lemma ambiguous_vertex_list_witness :
  ∃ vc,
    import_vertex_colors 255%Z byte_normalized double_rgb with_two_recolorings options_all
      [2; 1; 0; 2; 3; 0] = Ok (Some vc) ∧
    vc_ambiguous vc = point_index <$> (recoloring_wedges byte_normalized with_two_recolorings).*2.
Proof.
  apply (ambiguous_vertex_list 255%Z byte_normalized double_rgb with_two_recolorings options_all).
  - reflexivity.
  - reflexivity.
  - by apply colors_well_formedb_spec.
Defined.

(** The vertex 0 is listed twice. *)
Example ambiguous_with_two_recolorings :
  ∃ vc,
    import_vertex_colors 255%Z byte_normalized double_rgb with_two_recolorings options_all
      [2; 1; 0; 2; 3; 0] = Ok (Some vc) ∧
    vc_ambiguous vc = [0; 0] ∧
    (recoloring_wedges byte_normalized with_two_recolorings).*1 = [3; 5].
Proof. eexists. repeat split; reflexivity. Qed.


End mesh_import_examples.

(** ** The vertex groups of [import_psk] *)

Section vertex_groups.
Import PskVertexGroups.
Variable names : list string.


Lemma subscript_lt (x : Z) b : subscript names x = Some b → b < length names.
Proof. unfold subscript. repeat case_bool_decide; intros [= <-]; lia. Qed.













End vertex_groups.

Section vertex_groups_examples.
Import PskVertexGroups PskVertexGroupsExamples.


(** The last bone selected as 2 and as -1: two vertex groups with its name,
    of which the second gets both weights. *)
Example vertex_groups_from_the_end :
  import_vertex_groups three_bones from_the_end =
    (mkState ["head"; "head"] [None; None; Some 1] [(1, 0%Z, 1%Q); (1, 1%Z, 1%Q)], None).
Proof. reflexivity. Qed.


Example vertex_groups_of_two_groups :
  import_vertex_groups three_bones two_groups =
    (mkState ["root"; "head"] [Some 0; None; Some 1]
       [(1, 0%Z, 1%Q); (0, 1%Z, (1 # 2)%Q); (1, 1%Z, (1 # 2)%Q)], None).
Proof. reflexivity. Qed.


End vertex_groups_examples.
